(** * String-based decimal calculator (Lab10.cpp)

    A shallow embedding of the literal validator and of the string-based
    [BigDecimal] engine of [Lab10.cpp], and the properties of the
    specification proved about it.

    Modelling conventions.
    - A [std::string] is a [list ascii]; its size and the positions of its
      characters are natural numbers ([size_t] does not wrap on a string that
      fits in memory).
    - [int] is the 32-bit two's complement type and its values are in [Z].
      The loops of [add_abs] and [sub_abs] start at
      [static_cast<int>(size) - 1]: the conversion of the size to [int]
      ([int_of_size]) wraps modulo 2^32, so for a string of more than
      [INT_MAX] characters the loop is skipped or covers only the leading
      positions, and the remaining positions keep what the result string
      was created with.  For a size congruent to 2^31 modulo 2^32 the
      subtraction overflows, which C++ leaves undefined; the model runs no
      iteration there, and the theorems on the digits or the value of a
      result bound the sizes by [INT_MAX] or name a size of their own.
    - The other [int]s of the engine are the sign ([+1]/[-1]), comparison
      results ([-1]/[0]/[+1]) and per-digit sums, carries and borrows, all of
      absolute value below 400, so no wrap-around occurs there.  [%] and [/]
      are C++ truncating operators, i.e. [Z.rem] and [Z.quot].
    - [char] is the signed 8-bit type of g++ on x86-64 (the Makefile's
      compiler); [int_of_char] is the promotion of a [char] to [int] and
      [char_of_int] the conversion [char(...)].  On digit characters none of
      this matters.
    - The loop of [main] is modelled on the text of the opened file and on
      the text written to [std::cout]: [fin >> a >> b] takes the next two
      whitespace-delimited words of the file (classic locale).  The case
      counter [lineNo] is an [int]; [++lineNo] at [INT_MAX] is undefined in
      C++, the model wraps it ([int_wrap]) and the theorems on the numbering
      take a file of at most [INT_MAX] pairs. *)

From Stdlib Require Import DecimalString.
From Stdlib Require Import String Ascii ZArith List Bool Lia QArith Qabs.
Import ListNotations.
Local Open Scope Z_scope.

(** ** Characters and strings *)

Definition str := list ascii.

(** A string literal of the source, as a list of characters. *)
Definition lit (s : string) : str := list_ascii_of_string s.

(** [static_cast<unsigned char>(c)] *)
Definition code (c : ascii) : Z := Z.of_N (N_of_ascii c).

(** integral promotion of a (signed) [char] *)
Definition int_of_char (c : ascii) : Z :=
  if code c <? 128 then code c else code c - 256.

(** [char(z)] *)
Definition char_of_int (z : Z) : ascii := ascii_of_N (Z.to_N (z mod 256)).

(** [std::isdigit(static_cast<unsigned char>(c))] in the "C" locale *)
Definition isdigit (c : ascii) : bool := (48 <=? code c) && (code c <=? 57).

(** [c == '0'] *)
Definition is_zero_char (c : ascii) : bool := Ascii.eqb c "0".

(** [a == b] on strings *)
Fixpoint str_eqb (a b : str) : bool :=
  match a, b with
  | [], [] => true
  | x :: a', y :: b' => Ascii.eqb x y && str_eqb a' b'
  | _, _ => false
  end.

(** [a < b] on strings: [char_traits<char>::compare] on the common prefix
    (characters compared as unsigned), then the shorter string first. *)
Fixpoint str_ltb (a b : str) : bool :=
  match a, b with
  | _, [] => false
  | [], _ :: _ => true
  | x :: a', y :: b' =>
      if code x <? code y then true
      else if code y <? code x then false
      else str_ltb a' b'
  end.

(** [s.empty()] *)
Definition empty (s : str) : bool :=
  match s with [] => true | _ :: _ => false end.

(** ** Utilities *)

Definition is_all_digits (s : str) : bool :=
  forallb isdigit s && negb (empty s).

(** [while (i + 1 < s.size() && s[i] == '0') ++i;  s.erase(0, i)] *)
Fixpoint trim_leading_zeros (s : str) : str :=
  match s with
  | c :: (_ :: _) as rest => if is_zero_char c then trim_leading_zeros rest else s
  | _ => s
  end.

(** One run of [pop_back] while the last character is ['0'], on the
    reversed string. *)
Fixpoint drop_zeros (r : str) : str :=
  match r with
  | c :: r' => if is_zero_char c then drop_zeros r' else r
  | [] => []
  end.

(** [while (!s.empty() && s.back() == '0') s.pop_back()] *)
Definition trim_trailing_zeros (s : str) : str := rev (drop_zeros (rev s)).

(** ** Validation *)

(** [while (j < x.size() && isdigit(x[j])) ++j], on the suffix of [x] that
    starts at [j]; the result is the suffix at the final [j]. *)
Fixpoint skip_digits (s : str) : str :=
  match s with
  | c :: r => if isdigit c then skip_digits r else s
  | [] => []
  end.

Definition is_sign_char (c : ascii) : bool := Ascii.eqb c "+" || Ascii.eqb c "-".

Definition is_valid_double_literal (x : str) : bool :=
  match x with
  | [] => false
  | c0 :: tl =>
      if is_sign_char c0 && empty tl then false (* only sign is invalid *)
      else
        (* the suffix of x at index i *)
        let at_i := if is_sign_char c0 then tl else x in
        match at_i with
        | [] => false
        | d :: _ =>
            if negb (isdigit d) then false
            else
              match skip_digits at_i with
              | [] => true (* pure integer *)
              | e :: at_k =>
                  if Ascii.eqb e "." then
                    match at_k with
                    | [] => false
                    | f :: _ =>
                        if negb (isdigit f) then false
                        else empty (skip_digits at_k)
                    end
                  else false
              end
        end
  end.

(** ** BigDecimal *)

Record BigDecimal : Type := mkBigDecimal {
  sign : Z;          (* +1 or -1 *)
  intPart : str;     (* no leading zeros except single "0" *)
  fracPart : str     (* no trailing zeros; empty means no decimal *)
}.

Definition isZero (v : BigDecimal) : bool :=
  str_eqb (intPart v) (lit "0") && empty (fracPart v).

(** [x.find('.', i)] on the suffix at [i]: the text before the first dot and
    the text after it, or [None] for [npos]. *)
Fixpoint split_dot (s : str) : option (str * str) :=
  match s with
  | [] => None
  | c :: r =>
      if Ascii.eqb c "." then Some ([], r)
      else match split_dot r with
           | Some (p, q) => Some (c :: p, q)
           | None => None
           end
  end.

Definition parse_normalize (x : str) : BigDecimal :=
  let '(sg, body) :=
    match x with
    | c :: r =>
        if Ascii.eqb c "+" then (1, r)
        else if Ascii.eqb c "-" then (-1, r)
        else (1, x)
    | [] => (1, x)
    end in
  let '(ip, fp) :=
    match split_dot body with
    | None => (body, [])
    | Some (p, q) => (p, q)
    end in
  let ip := trim_leading_zeros ip in
  let fp := trim_trailing_zeros fp in
  let sg := if str_eqb ip (lit "0") && empty fp then 1 else sg in
  mkBigDecimal sg ip fp.

(** [s.append(n, c)] and [s.insert(0, n, c)] *)
Definition pad_right (s : str) (n : nat) : str := s ++ repeat "0"%char n.
Definition pad_left (s : str) (n : nat) : str := repeat "0"%char n ++ s.

Definition align_frac (a b : BigDecimal) : BigDecimal * BigDecimal :=
  let L := Nat.max (length (fracPart a)) (length (fracPart b)) in
  (mkBigDecimal (sign a) (intPart a) (pad_right (fracPart a) (L - length (fracPart a))),
   mkBigDecimal (sign b) (intPart b) (pad_right (fracPart b) (L - length (fracPart b)))).

Definition cmp_abs (a b : BigDecimal) : Z :=
  let '(a, b) := align_frac a b in
  if negb (length (intPart a) =? length (intPart b))%nat then
    if (length (intPart a) <? length (intPart b))%nat then -1 else 1
  else if negb (str_eqb (intPart a) (intPart b)) then
    if str_ltb (intPart a) (intPart b) then -1 else 1
  else if negb (str_eqb (fracPart a) (fracPart b)) then
    if str_ltb (fracPart a) (fracPart b) then -1 else 1
  else 0.

(** The integer operands [A] and [B], the shorter one left-padded. *)
Definition pad_ints (a b : BigDecimal) : str * str :=
  let A := intPart a in
  let B := intPart b in
  let A := if (length A <? length B)%nat then pad_left A (length B - length A) else A in
  let B := if (length B <? length A)%nat then pad_left B (length A - length B) else B in
  (A, B).

(** One iteration of the addition loops at a position holding [fst p] in the
    first operand and [snd p] in the second; [st] is the part of the result
    right of the position and the carry. *)
Definition add_step (p : ascii * ascii) (st : str * Z) : str * Z :=
  let '(r, carry) := st in
  let da := int_of_char (fst p) - 48 in
  let db := int_of_char (snd p) - 48 in
  let s := da + db + carry in
  (char_of_int (48 + Z.rem s 10) :: r, Z.quot s 10).

(** The iterations of an addition loop over the positions of [a] and [b]
    given: the last position is processed first. *)
Definition add_run (a b : str) (carry : Z) : str * Z :=
  fold_right add_step ([], carry) (combine a b).

(** [INT_MAX], and a value reduced to the range of [int]. *)
Definition int_max : Z := 2147483647.

Definition int_wrap (z : Z) : Z :=
  let m := z mod 2 ^ 32 in
  if m <=? int_max then m else m - 2 ^ 32.

(** [static_cast<int>(s.size())] *)
Definition int_of_size (n : nat) : Z := int_wrap (Z.of_nat n).

(** The number of positions that [for (int i = static_cast<int>(size) - 1;
    i >= 0; --i)] visits: the positions [0] to [static_cast<int>(size) - 1],
    none when that start index is negative. *)
Definition loop_count (n : nat) : nat := Z.to_nat (int_of_size n - 1 + 1).

(** The loop [for (int i = static_cast<int>(a.size()) - 1; i >= 0; --i)] of
    [add_abs] writing into a result string created with [a.size()] copies of
    [fill]: the visited positions hold the digits computed, the others keep
    [fill]. *)
Definition add_digits (fill : ascii) (a b : str) (carry : Z) : str * Z :=
  let k := loop_count (length a) in
  let '(r, carry) := add_run (firstn k a) (firstn k b) carry in
  (r ++ repeat fill (length a - k), carry).

(** The character [resize] fills a string with. *)
Definition nul : ascii := "000"%char.

Definition add_abs (a b : BigDecimal) : BigDecimal :=
  let '(a, b) := align_frac a b in
  let '(rf, carry) := add_digits nul (fracPart a) (fracPart b) 0 in
  let rf := trim_trailing_zeros rf in
  let '(A, B) := pad_ints a b in
  let '(s, carry) := add_digits "0"%char A B carry in
  let s := if negb (carry =? 0) then char_of_int (48 + carry) :: s else s in
  mkBigDecimal 1 (trim_leading_zeros s) rf.

Definition sub_step (p : ascii * ascii) (st : str * Z) : str * Z :=
  let '(r, borrow) := st in
  let da := int_of_char (fst p) - 48 - borrow in
  let db := int_of_char (snd p) - 48 in
  if da <? db then (char_of_int (48 + (da + 10 - db)) :: r, 1)
  else (char_of_int (48 + (da - db)) :: r, 0).

(** The iterations of a subtraction loop over the positions given. *)
Definition sub_run (a b : str) (borrow : Z) : str * Z :=
  fold_right sub_step ([], borrow) (combine a b).

(** The subtraction loop of [sub_abs], with the same [int] index as the
    addition loop. *)
Definition sub_digits (fill : ascii) (a b : str) (borrow : Z) : str * Z :=
  let k := loop_count (length a) in
  let '(r, borrow) := sub_run (firstn k a) (firstn k b) borrow in
  (r ++ repeat fill (length a - k), borrow).

Definition sub_abs (a b : BigDecimal) : BigDecimal :=
  let '(a, b) := align_frac a b in
  let '(rf, borrow) := sub_digits nul (fracPart a) (fracPart b) 0 in
  let rf := trim_trailing_zeros rf in
  let '(A, B) := pad_ints a b in
  let '(s, _) := sub_digits "0"%char A B borrow in
  let s := trim_leading_zeros s in
  if str_eqb s (lit "0") && empty rf then mkBigDecimal 1 (lit "0") rf
  else mkBigDecimal 1 s rf.

(** [r.sign = sg; if (r.isZero()) r.sign = +1;] *)
Definition with_sign (sg : Z) (r : BigDecimal) : BigDecimal :=
  let r := mkBigDecimal sg (intPart r) (fracPart r) in
  if isZero r then mkBigDecimal 1 (intPart r) (fracPart r) else r.

Definition add_signed (a b : BigDecimal) : BigDecimal :=
  if isZero a then b
  else if isZero b then a
  else if sign a =? sign b then with_sign (sign a) (add_abs a b)
  else
    let cmp := cmp_abs a b in
    if cmp =? 0 then mkBigDecimal 1 (lit "0") (lit "")
    else if cmp >? 0 then with_sign (sign a) (sub_abs a b)
    else with_sign (sign b) (sub_abs b a).

Definition to_string (x : BigDecimal) : str :=
  if isZero x then lit "0"
  else
    (if sign x <? 0 then lit "-" else []) ++ intPart x ++
    (if negb (empty (fracPart x)) then lit "." ++ fracPart x else []).

(** ** Specification-level notions *)

(** The decimal digits, as characters. *)
Definition decimal_digit (c : ascii) : Prop := In c (lit "0123456789").

(** The grammar of valid literals: an optional single sign, one or more
    digits, optionally a single dot and one or more digits. *)
Definition opt_sign (s : str) : Prop := s = [] \/ s = lit "+" \/ s = lit "-".

Definition digits1 (s : str) : Prop := s <> [] /\ Forall decimal_digit s.

Inductive valid_literal : str -> Prop :=
| valid_integer sg ds :
    opt_sign sg -> digits1 ds -> valid_literal (sg ++ ds)
| valid_fraction sg ds fs :
    opt_sign sg -> digits1 ds -> digits1 fs ->
    valid_literal (sg ++ ds ++ lit "." ++ fs).

(** The number a digit character stands for, and the number a digit string
    stands for (most significant digit first). *)
Definition digit_val (c : ascii) : Z := int_of_char c - 48.

Fixpoint digits_val (s : str) : Z :=
  match s with
  | [] => 0
  | c :: r => digit_val c * 10 ^ Z.of_nat (length r) + digits_val r
  end.

(** The magnitude of a value, scaled by [10^k], for [k] at least the number
    of its fractional digits. *)
Definition mag_at (k : nat) (v : BigDecimal) : Z :=
  digits_val (intPart v) * 10 ^ Z.of_nat k
  + digits_val (fracPart v) * 10 ^ Z.of_nat (k - length (fracPart v)).

(** The rational number a value stands for. *)
Definition pow10 (n : nat) : positive := Z.to_pos (10 ^ Z.of_nat n).

Definition magnitude (v : BigDecimal) : Q :=
  Qmake (digits_val (intPart v ++ fracPart v)) (pow10 (length (fracPart v))).

Definition value (v : BigDecimal) : Q :=
  Qmake (sign v * digits_val (intPart v ++ fracPart v)) (pow10 (length (fracPart v))).

(** The rational number a literal stands for, read off its text: sign, the
    digits before the dot and the digits after it. *)
Definition literal_value (x : str) : Q :=
  let '(sg, body) :=
    match x with
    | c :: r =>
        if Ascii.eqb c "-" then (-1, r)
        else if Ascii.eqb c "+" then (1, r)
        else (1, x)
    | [] => (1, x)
    end in
  match split_dot body with
  | None => inject_Z (sg * digits_val body)
  | Some (ip, fp) => Qmake (sg * digits_val (ip ++ fp)) (pow10 (length fp))
  end.

(** The normalization invariants of the data model. *)
Definition no_leading_zero (s : str) : bool :=
  match s with
  | c :: _ :: _ => negb (is_zero_char c)
  | _ => true
  end.

Definition no_trailing_zero (s : str) : bool :=
  match rev s with
  | c :: _ => negb (is_zero_char c)
  | [] => true
  end.

Definition normalized (v : BigDecimal) : bool :=
  ((sign v =? 1) || (sign v =? -1))
  && is_all_digits (intPart v) && no_leading_zero (intPart v)
  && forallb isdigit (fracPart v) && no_trailing_zero (fracPart v)
  && (if isZero v then sign v =? 1 else true).

(** Canonical zero. *)
Definition zero : BigDecimal := mkBigDecimal 1 (lit "0") (lit "").

(** Values whose digit strings the [int] loop indices can address: both
    parts have at most [INT_MAX] characters; and values that in addition
    leave room for one more integer digit. *)
Definition in_int_range (v : BigDecimal) : bool :=
  (Z.of_nat (length (intPart v)) <=? int_max)
  && (Z.of_nat (length (fracPart v)) <=? int_max).

Definition carry_room (v : BigDecimal) : bool :=
  (Z.of_nat (length (intPart v)) <? int_max)
  && (Z.of_nat (length (fracPart v)) <=? int_max).

(** The same invariants as propositions: the sign is [+1] or [-1]; the
    integer digits are never empty and have no leading zero unless they are
    exactly "0"; the fractional digits never end in a zero; every digit
    character is a decimal digit; the sign of zero is [+1]. *)
Definition Invariants (v : BigDecimal) : Prop :=
  (sign v = 1 \/ sign v = -1)
  /\ intPart v <> []
  /\ (forall c r, intPart v = c :: r -> c = "0"%char -> r = [])
  /\ Forall decimal_digit (intPart v)
  /\ Forall decimal_digit (fracPart v)
  /\ (forall p c, fracPart v = p ++ [c] -> c <> "0"%char)
  /\ (intPart v = lit "0" -> fracPart v = [] -> sign v = 1).

(** ** Auxiliary definitions used in the proofs and statements *)

(** The checks of [is_valid_double_literal] from the first digit on, on the
    suffix of the input that starts there. *)
Definition valid_body (at_i : str) : bool :=
  match at_i with
  | [] => false
  | d :: _ =>
      if negb (isdigit d) then false
      else
        match skip_digits at_i with
        | [] => true
        | e :: at_k =>
            if Ascii.eqb e "." then
              match at_k with
              | [] => false
              | f :: _ => if negb (isdigit f) then false else empty (skip_digits at_k)
              end
            else false
        end
  end.

(** What [parse_normalize] does once the sign is read: [sg] is the sign and
    [body] the text after it. *)
Definition parse_parts (sg : Z) (body : str) : BigDecimal :=
  let '(ip, fp) :=
    match split_dot body with
    | None => (body, [])
    | Some (p, q) => (p, q)
    end in
  let ip := trim_leading_zeros ip in
  let fp := trim_trailing_zeros fp in
  let sg := if str_eqb ip (lit "0") && empty fp then 1 else sg in
  mkBigDecimal sg ip fp.

Definition sign_of (sg : str) : Z :=
  match sg with
  | c :: _ => if Ascii.eqb c "-" then -1 else 1
  | [] => 1
  end.

(** The text after the sign, read as a number. *)
Definition literal_parts (sg : Z) (body : str) : Q :=
  match split_dot body with
  | None => inject_Z (sg * digits_val body)
  | Some (ip, fp) => Qmake (sg * digits_val (ip ++ fp)) (pow10 (length fp))
  end.

Definition int_of_comparison (c : comparison) : Z :=
  match c with Lt => -1 | Eq => 0 | Gt => 1 end.

(** The signed value scaled by [10^k]. *)
Definition sval_at (k : nat) (v : BigDecimal) : Z := sign v * mag_at k v.

Inductive Ordering : Type := LESS | EQUAL | GREATER.

Definition int_of_ordering (o : Ordering) : Z :=
  match o with LESS => -1 | EQUAL => 0 | GREATER => 1 end.

(** Lexicographic comparison of character sequences. *)
Fixpoint lex_compare (s t : str) : Ordering :=
  match s, t with
  | [], [] => EQUAL
  | [], _ :: _ => LESS
  | _ :: _, [] => GREATER
  | x :: s', y :: t' =>
      match code x ?= code y with
      | Lt => LESS
      | Gt => GREATER
      | Eq => lex_compare s' t'
      end
  end.

(** [compareAbs] following the specification's description: pad the
    fractional parts on the right to equal length; a longer integer part is
    greater; integer parts of equal length are compared lexicographically;
    ties are broken by the lexicographic comparison of the padded fractional
    parts. *)
Definition compareAbs_spec (a b : BigDecimal) : Ordering :=
  let L := Nat.max (length (fracPart a)) (length (fracPart b)) in
  let fa := fracPart a ++ repeat "0"%char (L - length (fracPart a)) in
  let fb := fracPart b ++ repeat "0"%char (L - length (fracPart b)) in
  match Nat.compare (length (intPart a)) (length (intPart b)) with
  | Lt => LESS
  | Gt => GREATER
  | Eq =>
      match lex_compare (intPart a) (intPart b) with
      | EQUAL => lex_compare fa fb
      | o => o
      end
  end.

(** A representation of zero that carries a sign other than [+1]; the
    normalization invariants exclude it. *)
Definition negative_zero (v : BigDecimal) : bool :=
  isZero v && negb (sign v =? 1).

(** ** The driver loop of [main] *)

(** [std::isspace] in the classic locale: space, and the characters from
    ['\t'] to ['\r']. *)
Definition isspace (c : ascii) : bool :=
  (code c =? 32) || ((9 <=? code c) && (code c <=? 13)).

(** The words that successive [fin >> word] extractions deliver from the
    text [s]: leading whitespace is skipped, then characters are taken up to
    the next whitespace or the end.  [cur] holds the characters of the word
    being read, last one first. *)
Fixpoint words_from (cur : str) (s : str) : list str :=
  match s with
  | [] => match cur with [] => [] | _ :: _ => [rev cur] end
  | c :: r =>
      if isspace c then
        match cur with
        | [] => words_from [] r
        | _ :: _ => rev cur :: words_from [] r
        end
      else words_from (c :: cur) r
  end.

Definition words (s : str) : list str := words_from [] s.

(** [std::cout << lineNo] *)
Definition show_int (n : Z) : str := lit (NilZero.string_of_int (Z.to_int n)).

Definition newline : ascii := "010"%char.

(** The text one iteration of the loop writes for the words [a] and [b],
    [lineNo] being the counter after [++lineNo]. *)
Definition report_case (lineNo : Z) (a b : str) : str :=
  let okA := is_valid_double_literal a in
  let okB := is_valid_double_literal b in
  lit "Case " ++ show_int lineNo ++ lit ": " ++ a ++ lit " + " ++ b ++ [newline] ++
  if negb okA then
    lit "  -> INVALID: '" ++ a ++ lit "' is not a valid double literal." ++ [newline; newline]
  else if negb okB then
    lit "  -> INVALID: '" ++ b ++ lit "' is not a valid double literal." ++ [newline; newline]
  else
    let A := parse_normalize a in
    let B := parse_normalize b in
    let S := add_signed A B in
    lit "  -> " ++ to_string A ++ lit " + " ++ to_string B ++ lit " = " ++ to_string S
    ++ [newline; newline].

(** [while (fin >> a >> b)]: the texts written by the iterations, in order;
    the loop ends when fewer than two words are left. *)
Fixpoint run_cases (lineNo : Z) (ws : list str) : list str :=
  match ws with
  | a :: b :: rest =>
      let lineNo := int_wrap (lineNo + 1) in
      report_case lineNo a b :: run_cases lineNo rest
  | _ => []
  end.

(** Everything the loop writes for a file with the text [contents]. *)
Definition process_file (contents : str) : str :=
  concat (run_cases 0 (words contents)).

(** The value with the same digits and the sign [sg]. *)
Definition set_sign (sg : Z) (v : BigDecimal) : BigDecimal :=
  mkBigDecimal sg (intPart v) (fracPart v).

(** ** Characters *)

Lemma isdigit_decimal_digit c : isdigit c = true <-> decimal_digit c.
Proof.
  split.
  - destruct c as [[] [] [] [] [] [] [] []]; vm_compute; intros H;
      try discriminate H; tauto.
  - intros H. unfold decimal_digit in H. simpl in H.
    repeat (destruct H as [H | H]; [subst c; reflexivity |]). destruct H.
Qed.

Lemma isdigit_val c : isdigit c = true -> 0 <= digit_val c <= 9.
Proof.
  destruct c as [[] [] [] [] [] [] [] []]; vm_compute; intros H;
    try discriminate H; split; discriminate.
Qed.

Lemma isdigit_code c : isdigit c = true -> code c = 48 + digit_val c.
Proof.
  destruct c as [[] [] [] [] [] [] [] []]; vm_compute; intros H;
    try discriminate H; reflexivity.
Qed.

Lemma digit_cases d : 0 <= d <= 9 ->
  d = 0 \/ d = 1 \/ d = 2 \/ d = 3 \/ d = 4 \/ d = 5 \/ d = 6 \/ d = 7 \/ d = 8 \/ d = 9.
Proof. lia. Qed.

Lemma char_of_digit d : 0 <= d <= 9 ->
  isdigit (char_of_int (48 + d)) = true /\ digit_val (char_of_int (48 + d)) = d.
Proof.
  intros H. apply digit_cases in H.
  repeat (destruct H as [H | H]; [subst d; split; reflexivity |]).
  subst d; split; reflexivity.
Qed.

Lemma digit_val_zero_iff c : isdigit c = true -> (is_zero_char c = true <-> digit_val c = 0).
Proof.
  destruct c as [[] [] [] [] [] [] [] []]; vm_compute; intros H;
    try discriminate H; split; intros H'; try discriminate H'; reflexivity.
Qed.

Lemma is_zero_char_val c : is_zero_char c = true -> digit_val c = 0.
Proof.
  unfold is_zero_char. intros H. apply Ascii.eqb_eq in H. subst c. reflexivity.
Qed.

Lemma is_zero_char_digit c : is_zero_char c = true -> isdigit c = true.
Proof.
  unfold is_zero_char. intros H. apply Ascii.eqb_eq in H. subst c. reflexivity.
Qed.

Lemma str_eqb_eq a b : str_eqb a b = true <-> a = b.
Proof.
  revert b. induction a as [| x a IH]; intros [| y b]; simpl; split; intros H;
    try reflexivity; try discriminate H.
  - apply andb_true_iff in H. destruct H as [H1 H2].
    apply Ascii.eqb_eq in H1. apply IH in H2. congruence.
  - injection H as -> ->. rewrite Ascii.eqb_refl. simpl. now apply IH.
Qed.

Lemma str_eqb_refl a : str_eqb a a = true.
Proof. now apply str_eqb_eq. Qed.

Lemma str_eqb_sym a b : str_eqb a b = str_eqb b a.
Proof.
  destruct (str_eqb a b) eqn:E.
  - apply str_eqb_eq in E. subst. symmetry. apply str_eqb_refl.
  - destruct (str_eqb b a) eqn:E'; [| reflexivity].
    apply str_eqb_eq in E'. subst. now rewrite str_eqb_refl in E.
Qed.

(** ** The validator *)

Lemma is_valid_unfold c0 tl :
  is_valid_double_literal (c0 :: tl) =
  if is_sign_char c0 then valid_body tl else valid_body (c0 :: tl).
Proof.
  unfold is_valid_double_literal, valid_body.
  destruct (is_sign_char c0); simpl; [| reflexivity].
  destruct tl; reflexivity.
Qed.

Lemma forallb_isdigit_Forall s :
  forallb isdigit s = true <-> Forall decimal_digit s.
Proof.
  rewrite forallb_forall, Forall_forall.
  split; intros H c Hc; apply isdigit_decimal_digit; auto.
Qed.

Lemma is_all_digits_digits1 s : is_all_digits s = true <-> digits1 s.
Proof.
  unfold is_all_digits, digits1. rewrite andb_true_iff, forallb_isdigit_Forall.
  destruct s; simpl; split; intros [H1 H2]; split; try assumption;
    try discriminate; try reflexivity. now contradiction H1.
Qed.

Lemma is_all_digits_inv s :
  is_all_digits s = true -> forallb isdigit s = true /\ empty s = false.
Proof.
  unfold is_all_digits. intros H. apply andb_true_iff in H. destruct H as [H1 H2].
  apply negb_true_iff in H2. auto.
Qed.

Lemma skip_digits_app ds r :
  forallb isdigit ds = true -> skip_digits (ds ++ r) = skip_digits r.
Proof.
  induction ds as [| c ds IH]; simpl; [reflexivity |].
  intros H. apply andb_true_iff in H. destruct H as [-> H]. auto.
Qed.

Lemma skip_digits_all ds : forallb isdigit ds = true -> skip_digits ds = [].
Proof.
  intros H. rewrite <- (app_nil_r ds). now rewrite skip_digits_app.
Qed.

Lemma skip_digits_split s :
  exists ds, s = ds ++ skip_digits s /\ forallb isdigit ds = true.
Proof.
  induction s as [| c s [ds [E H]]]; simpl.
  - exists []. auto.
  - destruct (isdigit c) eqn:D.
    + exists (c :: ds). simpl. rewrite D, H. split; [now f_equal | reflexivity].
    + exists []. auto.
Qed.

Lemma skip_digits_head s c r : skip_digits s = c :: r -> isdigit c = false.
Proof.
  induction s as [| x s IH]; simpl; [discriminate |].
  destruct (isdigit x) eqn:D; [assumption |].
  intros H. injection H as -> _. assumption.
Qed.

Lemma valid_body_sound s :
  valid_body s = true ->
  digits1 s \/ exists ds fs, s = ds ++ lit "." ++ fs /\ digits1 ds /\ digits1 fs.
Proof.
  unfold valid_body. destruct s as [| d s']; [discriminate |].
  destruct (isdigit d) eqn:Dd; simpl negb; cbv iota; [| discriminate].
  destruct (skip_digits_split (d :: s')) as [ds [E Hds]].
  destruct (skip_digits (d :: s')) as [| e at_k] eqn:Sk.
  - intros _. left. rewrite app_nil_r in E. rewrite E.
    apply is_all_digits_digits1. unfold is_all_digits. rewrite Hds.
    rewrite <- E. reflexivity.
  - destruct (Ascii.eqb e ".") eqn:Ee; [| discriminate].
    apply Ascii.eqb_eq in Ee. subst e.
    destruct at_k as [| f at_k']; [discriminate |].
    destruct (isdigit f) eqn:Df; simpl negb; cbv iota; [| discriminate].
    intros H. right. exists ds, (f :: at_k'). split; [exact E |]. split.
    + apply is_all_digits_digits1. unfold is_all_digits. rewrite Hds.
      destruct ds; [| reflexivity].
      simpl in E. injection E as ->. discriminate Dd.
    + apply is_all_digits_digits1. unfold is_all_digits.
      destruct (skip_digits_split (f :: at_k')) as [fs [E' Hfs]].
      destruct (skip_digits (f :: at_k')); [| discriminate H].
      rewrite app_nil_r in E'. rewrite E', Hfs. rewrite <- E'. reflexivity.
Qed.

Lemma valid_body_integer ds : digits1 ds -> valid_body ds = true.
Proof.
  intros H. apply is_all_digits_digits1 in H. unfold is_all_digits in H.
  apply andb_true_iff in H. destruct H as [H1 H2].
  destruct ds as [| d ds]; [discriminate H2 |].
  unfold valid_body. rewrite (skip_digits_all _ H1).
  simpl in H1. apply andb_true_iff in H1. destruct H1 as [-> _]. reflexivity.
Qed.

Lemma valid_body_fraction ds fs :
  digits1 ds -> digits1 fs -> valid_body (ds ++ lit "." ++ fs) = true.
Proof.
  intros H H'. apply is_all_digits_digits1 in H, H'. unfold is_all_digits in *.
  apply andb_true_iff in H, H'. destruct H as [H1 H2], H' as [H1' H2'].
  destruct ds as [| d ds]; [discriminate H2 |].
  destruct fs as [| f fs]; [discriminate H2' |].
  unfold valid_body. rewrite (skip_digits_app _ _ H1).
  rewrite <- app_comm_cons.
  simpl in H1. apply andb_true_iff in H1. destruct H1 as [-> _].
  simpl. pose proof H1' as H3. simpl in H3. apply andb_true_iff in H3.
  destruct H3 as [-> H3]. simpl. now rewrite (skip_digits_all _ H3).
Qed.

Lemma digit_not_sign c : isdigit c = true -> is_sign_char c = false.
Proof.
  destruct c as [[] [] [] [] [] [] [] []]; vm_compute; intros H;
    try discriminate H; reflexivity.
Qed.

Lemma digits1_head s : digits1 s -> exists d r, s = d :: r /\ isdigit d = true.
Proof.
  intros [H1 H2]. destruct s as [| d r]; [now contradiction H1 |].
  exists d, r. split; [reflexivity |].
  apply isdigit_decimal_digit. now inversion H2.
Qed.

Lemma is_valid_iff_grammar x :
  is_valid_double_literal x = true <-> valid_literal x.
Proof.
  split.
  - destruct x as [| c0 tl]; [discriminate |].
    rewrite is_valid_unfold. destruct (is_sign_char c0) eqn:Sg.
    + assert (Hs : opt_sign [c0]).
      { unfold is_sign_char in Sg. apply orb_true_iff in Sg.
        destruct Sg as [Sg | Sg]; apply Ascii.eqb_eq in Sg; subst c0;
          unfold opt_sign; auto. }
      intros H. apply valid_body_sound in H.
      destruct H as [H | [ds [fs [E [H1 H2]]]]].
      * now apply (valid_integer [c0] tl).
      * rewrite E. now apply (valid_fraction [c0] ds fs).
    + intros H. apply valid_body_sound in H.
      destruct H as [H | [ds [fs [E [H1 H2]]]]].
      * apply (valid_integer [] (c0 :: tl)); [left; reflexivity | exact H].
      * rewrite E. apply (valid_fraction [] ds fs); [left; reflexivity | |]; assumption.
  - intros H. destruct H as [sg ds Hs Hd | sg ds fs Hs Hd Hf].
    + destruct (digits1_head _ Hd) as [d [r [E Dd]]].
      destruct Hs as [-> | [-> | ->]].
      * simpl. rewrite E, is_valid_unfold, (digit_not_sign _ Dd), <- E.
        now apply valid_body_integer.
      * change (lit "+" ++ ds) with ("+"%char :: ds).
        rewrite is_valid_unfold. simpl is_sign_char. cbv iota.
        now apply valid_body_integer.
      * change (lit "-" ++ ds) with ("-"%char :: ds).
        rewrite is_valid_unfold. simpl is_sign_char. cbv iota.
        now apply valid_body_integer.
    + destruct (digits1_head _ Hd) as [d [r [E Dd]]].
      destruct Hs as [-> | [-> | ->]].
      * rewrite app_nil_l. rewrite E at 1. rewrite <- app_comm_cons.
        rewrite is_valid_unfold, (digit_not_sign _ Dd), app_comm_cons, <- E.
        now apply valid_body_fraction.
      * change (lit "+" ++ ds ++ lit "." ++ fs) with ("+"%char :: ds ++ lit "." ++ fs).
        rewrite is_valid_unfold. simpl is_sign_char. cbv iota.
        now apply valid_body_fraction.
      * change (lit "-" ++ ds ++ lit "." ++ fs) with ("-"%char :: ds ++ lit "." ++ fs).
        rewrite is_valid_unfold. simpl is_sign_char. cbv iota.
        now apply valid_body_fraction.
Qed.

(** ** Digit strings and their numbers *)

Lemma pow10_pos n : 0 < 10 ^ Z.of_nat n.
Proof. apply Z.pow_pos_nonneg; lia. Qed.

Lemma pow10_S n : 10 ^ Z.of_nat (S n) = 10 * 10 ^ Z.of_nat n.
Proof. rewrite Nat2Z.inj_succ, Z.pow_succ_r; lia. Qed.

Lemma pow10_add n m : 10 ^ Z.of_nat (n + m) = 10 ^ Z.of_nat n * 10 ^ Z.of_nat m.
Proof. rewrite Nat2Z.inj_add, Z.pow_add_r; lia. Qed.

Lemma digits_val_app a b :
  digits_val (a ++ b) = digits_val a * 10 ^ Z.of_nat (length b) + digits_val b.
Proof.
  induction a as [| c a IH]; simpl; [reflexivity |].
  rewrite IH, length_app, pow10_add. ring.
Qed.

Lemma digits_val_zeros k : digits_val (repeat "0"%char k) = 0.
Proof. induction k as [| k IH]; simpl; [reflexivity |]. rewrite IH. reflexivity. Qed.

Lemma digits_val_pad_right s k :
  digits_val (pad_right s k) = digits_val s * 10 ^ Z.of_nat k.
Proof.
  unfold pad_right. rewrite digits_val_app, digits_val_zeros, repeat_length. ring.
Qed.

Lemma digits_val_pad_left s k : digits_val (pad_left s k) = digits_val s.
Proof. unfold pad_left. rewrite digits_val_app, digits_val_zeros. ring. Qed.

Lemma digits_val_bounds s :
  forallb isdigit s = true -> 0 <= digits_val s < 10 ^ Z.of_nat (length s).
Proof.
  induction s as [| c s IH]; simpl digits_val; simpl length.
  - intros _. simpl. lia.
  - intros H. simpl in H. apply andb_true_iff in H. destruct H as [Hc Hs].
    apply isdigit_val in Hc. specialize (IH Hs). rewrite pow10_S.
    pose proof (pow10_pos (length s)). nia.
Qed.

Lemma digits_val_lower c s :
  isdigit c = true -> is_zero_char c = false -> forallb isdigit s = true ->
  10 ^ Z.of_nat (length s) <= digits_val (c :: s).
Proof.
  intros Hc Hz Hs. simpl digits_val.
  pose proof (digits_val_bounds s Hs). pose proof (isdigit_val c Hc).
  assert (digit_val c <> 0).
  { intros E. apply (digit_val_zero_iff c Hc) in E. congruence. }
  pose proof (pow10_pos (length s)). nia.
Qed.

Lemma forallb_repeat_zero k : forallb isdigit (repeat "0"%char k) = true.
Proof. induction k; simpl; auto. Qed.

Lemma forallb_pad_right s k :
  forallb isdigit s = true -> forallb isdigit (pad_right s k) = true.
Proof.
  intros H. unfold pad_right. now rewrite forallb_app, H, forallb_repeat_zero.
Qed.

Lemma forallb_pad_left s k :
  forallb isdigit s = true -> forallb isdigit (pad_left s k) = true.
Proof.
  intros H. unfold pad_left. now rewrite forallb_app, H, forallb_repeat_zero.
Qed.

(** ** Trimming *)

Lemma trim_leading_zeros_val s : digits_val (trim_leading_zeros s) = digits_val s.
Proof.
  induction s as [| c s IH]; [reflexivity |].
  destruct s as [| c' s']; [reflexivity |].
  change (trim_leading_zeros (c :: c' :: s'))
    with (if is_zero_char c then trim_leading_zeros (c' :: s') else c :: c' :: s').
  destruct (is_zero_char c) eqn:Z0; [| reflexivity].
  rewrite IH. change (digits_val (c :: c' :: s'))
    with (digit_val c * 10 ^ Z.of_nat (length (c' :: s')) + digits_val (c' :: s')).
  rewrite (is_zero_char_val _ Z0). ring.
Qed.

Lemma trim_leading_zeros_cons c c' s' :
  trim_leading_zeros (c :: c' :: s') =
  if is_zero_char c then trim_leading_zeros (c' :: s') else c :: c' :: s'.
Proof. reflexivity. Qed.

Lemma trim_leading_zeros_digits s :
  forallb isdigit s = true -> forallb isdigit (trim_leading_zeros s) = true.
Proof.
  induction s as [| c s IH]; [auto |].
  destruct s as [| c' s']; [auto |].
  rewrite trim_leading_zeros_cons. intros H.
  destruct (is_zero_char c); [| exact H].
  apply IH. simpl in H. apply andb_true_iff in H. apply H.
Qed.

Lemma trim_leading_zeros_nonempty s :
  empty s = false -> empty (trim_leading_zeros s) = false.
Proof.
  induction s as [| c s IH]; [auto |].
  destruct s as [| c' s']; [auto |].
  rewrite trim_leading_zeros_cons. intros _.
  destruct (is_zero_char c); [| reflexivity]. now apply IH.
Qed.

Lemma trim_leading_zeros_normal s :
  no_leading_zero (trim_leading_zeros s) = true.
Proof.
  induction s as [| c s IH]; [reflexivity |].
  destruct s as [| c' s']; [reflexivity |].
  rewrite trim_leading_zeros_cons.
  destruct (is_zero_char c) eqn:Z0; [exact IH |]. simpl. now rewrite Z0.
Qed.

Lemma trim_leading_zeros_id s :
  no_leading_zero s = true -> trim_leading_zeros s = s.
Proof.
  destruct s as [| c [| c' s']]; try reflexivity.
  rewrite trim_leading_zeros_cons. simpl. now destruct (is_zero_char c).
Qed.

Lemma trim_leading_zeros_length s :
  (length (trim_leading_zeros s) <= length s)%nat.
Proof.
  induction s as [| c s IH]; [auto |].
  destruct s as [| c' s']; [auto |].
  rewrite trim_leading_zeros_cons.
  destruct (is_zero_char c); [| lia]. simpl in *. lia.
Qed.

Lemma trim_leading_zeros_unique k : forall t,
  t <> [] -> no_leading_zero t = true ->
  trim_leading_zeros (repeat "0"%char k ++ t) = t.
Proof.
  induction k as [| k IH]; intros t Ht Nt.
  - now apply trim_leading_zeros_id.
  - cbn [repeat app]. destruct (repeat "0"%char k ++ t) as [| c' r'] eqn:E.
    + apply app_eq_nil in E. now destruct E.
    + rewrite trim_leading_zeros_cons. cbn [is_zero_char Ascii.eqb].
      change (is_zero_char "0") with true. cbv iota. rewrite <- E. now apply IH.
Qed.

Lemma drop_zeros_spec r :
  exists k, r = repeat "0"%char k ++ drop_zeros r.
Proof.
  induction r as [| c r [k E]]; simpl.
  - exists 0%nat. reflexivity.
  - destruct (is_zero_char c) eqn:Z0.
    + exists (S k). unfold is_zero_char in Z0. apply Ascii.eqb_eq in Z0.
      subst c. simpl. now f_equal.
    + exists 0%nat. reflexivity.
Qed.

Lemma drop_zeros_head r :
  match drop_zeros r with c :: _ => is_zero_char c = false | [] => True end.
Proof.
  induction r as [| c r IH]; simpl; [exact I |].
  destruct (is_zero_char c) eqn:Z0; [exact IH | exact Z0].
Qed.

Lemma rev_repeat_zero k : rev (repeat "0"%char k) = repeat "0"%char k.
Proof.
  induction k as [| k IH]; [reflexivity |].
  simpl. rewrite IH. change ["0"%char] with (repeat "0"%char 1).
  rewrite <- repeat_app. now rewrite Nat.add_1_r.
Qed.

Lemma trim_trailing_zeros_spec s :
  exists k, s = pad_right (trim_trailing_zeros s) k.
Proof.
  unfold trim_trailing_zeros, pad_right.
  destruct (drop_zeros_spec (rev s)) as [k E]. exists k.
  rewrite <- (rev_involutive s) at 1. rewrite E at 1.
  now rewrite rev_app_distr, rev_repeat_zero.
Qed.

Lemma trim_trailing_zeros_normal s :
  no_trailing_zero (trim_trailing_zeros s) = true.
Proof.
  unfold no_trailing_zero, trim_trailing_zeros. rewrite rev_involutive.
  pose proof (drop_zeros_head (rev s)) as H.
  destruct (drop_zeros (rev s)); [reflexivity |]. now rewrite H.
Qed.

Lemma trim_trailing_zeros_id s :
  no_trailing_zero s = true -> trim_trailing_zeros s = s.
Proof.
  unfold no_trailing_zero, trim_trailing_zeros. intros H.
  destruct (rev s) as [| c r] eqn:E.
  - simpl. apply (f_equal (@rev ascii)) in E. now rewrite rev_involutive in E.
  - simpl. apply negb_true_iff in H. rewrite H.
    rewrite <- E. apply rev_involutive.
Qed.

Lemma trim_trailing_zeros_digits s :
  forallb isdigit s = true -> forallb isdigit (trim_trailing_zeros s) = true.
Proof.
  destruct (trim_trailing_zeros_spec s) as [k E]. intros H.
  rewrite E in H. unfold pad_right in H. rewrite forallb_app in H.
  apply andb_true_iff in H. apply H.
Qed.

Lemma trim_trailing_zeros_val s :
  digits_val s =
  digits_val (trim_trailing_zeros s)
  * 10 ^ Z.of_nat (length s - length (trim_trailing_zeros s)).
Proof.
  destruct (trim_trailing_zeros_spec s) as [k E].
  rewrite E at 1. rewrite digits_val_pad_right. do 2 f_equal.
  apply (f_equal (@length ascii)) in E. unfold pad_right in E.
  rewrite length_app, repeat_length in E. lia.
Qed.

Lemma trim_trailing_zeros_length s :
  (length (trim_trailing_zeros s) <= length s)%nat.
Proof.
  destruct (trim_trailing_zeros_spec s) as [k E].
  apply (f_equal (@length ascii)) in E. unfold pad_right in E.
  rewrite length_app, repeat_length in E. lia.
Qed.

(** ** The digit loops *)

Lemma add_run_cons x a y b cin :
  add_run (x :: a) (y :: b) cin = add_step (x, y) (add_run a b cin).
Proof. reflexivity. Qed.

Lemma sub_run_cons x a y b bin :
  sub_run (x :: a) (y :: b) bin = sub_step (x, y) (sub_run a b bin).
Proof. reflexivity. Qed.

Lemma add_run_spec a : forall b cin,
  length a = length b ->
  forallb isdigit a = true -> forallb isdigit b = true -> 0 <= cin <= 1 ->
  length (fst (add_run a b cin)) = length a
  /\ forallb isdigit (fst (add_run a b cin)) = true
  /\ 0 <= snd (add_run a b cin) <= 1
  /\ digits_val (fst (add_run a b cin))
     + snd (add_run a b cin) * 10 ^ Z.of_nat (length a)
     = digits_val a + digits_val b + cin.
Proof.
  induction a as [| x a IH]; intros [| y b] cin Hlen Ha Hb Hc; try discriminate Hlen.
  - simpl. repeat split; lia.
  - rewrite add_run_cons.
    simpl in Ha, Hb, Hlen. apply andb_true_iff in Ha, Hb.
    destruct Ha as [Hx Ha], Hb as [Hy Hb]. injection Hlen as Hlen.
    destruct (IH b cin Hlen Ha Hb Hc) as [L [D [C V]]].
    destruct (add_run a b cin) as [r c]. simpl in L, D, C, V.
    unfold add_step. cbn [fst snd].
    pose proof (isdigit_val x Hx) as Bx. pose proof (isdigit_val y Hy) as By.
    fold (digit_val x). fold (digit_val y).
    set (s := digit_val x + digit_val y + c).
    assert (Hs : 0 <= s <= 19) by (unfold s; lia).
    rewrite Z.rem_mod_nonneg, Z.quot_div_nonneg by lia.
    assert (Hm : 0 <= s mod 10 <= 9) by (pose proof (Z.mod_pos_bound s 10); lia).
    destruct (char_of_digit _ Hm) as [Dg Vg].
    cbn [length forallb digits_val].
    rewrite Dg, D, Vg, L, pow10_S.
    assert (Hq : 0 <= s / 10 <= 1).
    { split; [apply Z.div_pos; lia |]. apply Z.lt_succ_r.
      apply Z.div_lt_upper_bound; lia. }
    repeat split; try lia.
    pose proof (Z.div_mod s 10 ltac:(lia)) as E.
    rewrite <- Hlen. set (P := 10 ^ Z.of_nat (length a)) in *.
    replace (s mod 10) with (s - 10 * (s / 10)) by lia.
    generalize (s / 10). intros q. unfold s. lia.
Qed.

Lemma sub_run_spec a : forall b bin,
  length a = length b ->
  forallb isdigit a = true -> forallb isdigit b = true -> 0 <= bin <= 1 ->
  length (fst (sub_run a b bin)) = length a
  /\ forallb isdigit (fst (sub_run a b bin)) = true
  /\ 0 <= snd (sub_run a b bin) <= 1
  /\ digits_val (fst (sub_run a b bin))
     - snd (sub_run a b bin) * 10 ^ Z.of_nat (length a)
     = digits_val a - digits_val b - bin.
Proof.
  induction a as [| x a IH]; intros [| y b] bin Hlen Ha Hb Hc; try discriminate Hlen.
  - simpl. repeat split; lia.
  - rewrite sub_run_cons.
    simpl in Ha, Hb, Hlen. apply andb_true_iff in Ha, Hb.
    destruct Ha as [Hx Ha], Hb as [Hy Hb]. injection Hlen as Hlen.
    destruct (IH b bin Hlen Ha Hb Hc) as [L [D [C V]]].
    destruct (sub_run a b bin) as [r c]. simpl in L, D, C, V.
    unfold sub_step. cbn [fst snd].
    pose proof (isdigit_val x Hx) as Bx. pose proof (isdigit_val y Hy) as By.
    fold (digit_val x). fold (digit_val y).
    destruct (Z.ltb_spec (digit_val x - c) (digit_val y)) as [Lt | Ge].
    + assert (Hm : 0 <= digit_val x - c + 10 - digit_val y <= 9) by lia.
      destruct (char_of_digit _ Hm) as [Dg Vg].
      cbn [length forallb digits_val fst snd].
      rewrite Dg, D, Vg, L, pow10_S, <- Hlen. repeat split; try lia.
    + assert (Hm : 0 <= digit_val x - c - digit_val y <= 9) by lia.
      destruct (char_of_digit _ Hm) as [Dg Vg].
      cbn [length forallb digits_val fst snd].
      rewrite Dg, D, Vg, L, pow10_S, <- Hlen. repeat split; try lia.
Qed.

(** Both digit loops are symmetric in what they read of the operands'
    sum. *)
Lemma add_run_comm a : forall b cin, add_run a b cin = add_run b a cin.
Proof.
  induction a as [| x a IH]; intros [| y b] cin; try reflexivity.
  rewrite !add_run_cons, IH. destruct (add_run b a cin) as [r c].
  unfold add_step. simpl fst. simpl snd.
  now rewrite (Z.add_comm (int_of_char y - 48)).
Qed.

(** ** The [int] loop index *)

Lemma int_of_size_small n : Z.of_nat n <= int_max -> int_of_size n = Z.of_nat n.
Proof.
  unfold int_of_size, int_wrap, int_max. intros H.
  rewrite Z.mod_small by lia.
  destruct (Z.leb_spec (Z.of_nat n) 2147483647); [reflexivity | lia].
Qed.

Lemma loop_count_small n : Z.of_nat n <= int_max -> loop_count n = n.
Proof. intros H. unfold loop_count. rewrite (int_of_size_small n H). lia. Qed.

Lemma int_of_size_le n : int_of_size n <= Z.of_nat n.
Proof.
  unfold int_of_size, int_wrap, int_max.
  pose proof (Z.mod_le (Z.of_nat n) (2 ^ 32) ltac:(lia) ltac:(lia)).
  pose proof (Z.mod_pos_bound (Z.of_nat n) (2 ^ 32) ltac:(lia)).
  destruct (Z.leb_spec (Z.of_nat n mod 2 ^ 32) 2147483647); lia.
Qed.

Lemma loop_count_le n : (loop_count n <= n)%nat.
Proof. unfold loop_count. pose proof (int_of_size_le n). lia. Qed.

Lemma add_digits_short fill a b c :
  Z.of_nat (length a) <= int_max -> length a = length b ->
  add_digits fill a b c = add_run a b c.
Proof.
  intros H E. unfold add_digits. rewrite (loop_count_small _ H).
  rewrite firstn_all, E, firstn_all, Nat.sub_diag.
  destruct (add_run a b c) as [r c']. cbn [repeat]. now rewrite app_nil_r.
Qed.

Lemma sub_digits_short fill a b c :
  Z.of_nat (length a) <= int_max -> length a = length b ->
  sub_digits fill a b c = sub_run a b c.
Proof.
  intros H E. unfold sub_digits. rewrite (loop_count_small _ H).
  rewrite firstn_all, E, firstn_all, Nat.sub_diag.
  destruct (sub_run a b c) as [r c']. cbn [repeat]. now rewrite app_nil_r.
Qed.

Lemma add_digits_comm fill a b c :
  length a = length b -> add_digits fill a b c = add_digits fill b a c.
Proof.
  intros E. unfold add_digits. rewrite <- E.
  now rewrite (add_run_comm (firstn _ a)).
Qed.

Lemma forallb_firstn k s : forallb isdigit s = true -> forallb isdigit (firstn k s) = true.
Proof.
  revert k. induction s as [| c s IH]; intros [| k] H; try reflexivity.
  cbn [firstn forallb] in *. apply andb_true_iff in H. destruct H as [-> H]. now apply IH.
Qed.

(** What the loops leave in the result whatever the size: digits at the
    visited positions, the fill character at the others, and a carry or
    borrow of 0 or 1. *)
Lemma add_digits_shape fill a b c :
  length a = length b ->
  forallb isdigit a = true -> forallb isdigit b = true -> 0 <= c <= 1 ->
  exists r,
    fst (add_digits fill a b c) = r ++ repeat fill (length a - loop_count (length a))
    /\ forallb isdigit r = true
    /\ length r = loop_count (length a)
    /\ 0 <= snd (add_digits fill a b c) <= 1.
Proof.
  intros E Da Db Hc. unfold add_digits.
  pose proof (loop_count_le (length a)) as Le.
  set (k := loop_count (length a)) in *.
  destruct (add_run_spec (firstn k a) (firstn k b) c) as [Lr [Dr [Cr _]]];
    [rewrite !length_firstn; lia | now apply forallb_firstn
     | now apply forallb_firstn | assumption |].
  destruct (add_run (firstn k a) (firstn k b) c) as [r c']. cbn [fst snd] in *.
  exists r. rewrite length_firstn in Lr. repeat split; try assumption; lia.
Qed.

Lemma sub_digits_shape fill a b c :
  length a = length b ->
  forallb isdigit a = true -> forallb isdigit b = true -> 0 <= c <= 1 ->
  exists r,
    fst (sub_digits fill a b c) = r ++ repeat fill (length a - loop_count (length a))
    /\ forallb isdigit r = true
    /\ length r = loop_count (length a)
    /\ 0 <= snd (sub_digits fill a b c) <= 1.
Proof.
  intros E Da Db Hc. unfold sub_digits.
  pose proof (loop_count_le (length a)) as Le.
  set (k := loop_count (length a)) in *.
  destruct (sub_run_spec (firstn k a) (firstn k b) c) as [Lr [Dr [Cr _]]];
    [rewrite !length_firstn; lia | now apply forallb_firstn
     | now apply forallb_firstn | assumption |].
  destruct (sub_run (firstn k a) (firstn k b) c) as [r c']. cbn [fst snd] in *.
  exists r. rewrite length_firstn in Lr. repeat split; try assumption; lia.
Qed.

(** ** Lexicographic order on digit strings of equal length *)

Lemma str_cmp_digits a : forall b,
  length a = length b ->
  forallb isdigit a = true -> forallb isdigit b = true ->
  (str_eqb a b = true <-> digits_val a = digits_val b)
  /\ (str_ltb a b = true <-> digits_val a < digits_val b).
Proof.
  induction a as [| x a IH]; intros [| y b] Hlen Ha Hb; try discriminate Hlen.
  - simpl. split; split; intros H; try reflexivity; try discriminate H; lia.
  - simpl in Ha, Hb, Hlen. apply andb_true_iff in Ha, Hb.
    destruct Ha as [Hx Ha], Hb as [Hy Hb]. injection Hlen as Hlen.
    destruct (IH b Hlen Ha Hb) as [IHe IHl].
    pose proof (isdigit_val x Hx) as Bx. pose proof (isdigit_val y Hy) as By.
    pose proof (digits_val_bounds a Ha) as Ba.
    pose proof (digits_val_bounds b Hb) as Bb.
    pose proof (pow10_pos (length a)) as P.
    simpl str_eqb. simpl str_ltb. simpl digits_val.
    rewrite (isdigit_code x Hx), (isdigit_code y Hy). rewrite <- Hlen in *.
    split.
    + rewrite andb_true_iff, IHe, Ascii.eqb_eq. split.
      * intros [-> E]. lia.
      * intros E. assert (digit_val x = digit_val y) by nia.
        split; [| nia].
        pose proof (isdigit_code x Hx) as Cx. pose proof (isdigit_code y Hy) as Cy.
        unfold code in Cx, Cy.
        assert (N_of_ascii x = N_of_ascii y) by lia.
        rewrite <- (ascii_N_embedding x), <- (ascii_N_embedding y). congruence.
    + destruct (Z.ltb_spec (48 + digit_val x) (48 + digit_val y)) as [Lt | Ge].
      * split; [intros _; nia | reflexivity].
      * destruct (Z.ltb_spec (48 + digit_val y) (48 + digit_val x)) as [Lt' | Ge'].
        -- split; [discriminate | intros E; nia].
        -- rewrite IHl. assert (digit_val x = digit_val y) by lia.
           split; intros E; nia.
Qed.

(** ** Alignment *)

Lemma pad_right_length s k : length (pad_right s k) = (length s + k)%nat.
Proof. unfold pad_right. now rewrite length_app, repeat_length. Qed.

Lemma pad_left_length s k : length (pad_left s k) = (k + length s)%nat.
Proof. unfold pad_left. now rewrite length_app, repeat_length. Qed.

Lemma mag_at_aligned k v :
  mag_at k v =
  digits_val (intPart v) * 10 ^ Z.of_nat k
  + digits_val (pad_right (fracPart v) (k - length (fracPart v))).
Proof. unfold mag_at. now rewrite digits_val_pad_right. Qed.

Lemma pad_ints_spec a b :
  length (fst (pad_ints a b)) = Nat.max (length (intPart a)) (length (intPart b))
  /\ length (snd (pad_ints a b)) = Nat.max (length (intPart a)) (length (intPart b))
  /\ digits_val (fst (pad_ints a b)) = digits_val (intPart a)
  /\ digits_val (snd (pad_ints a b)) = digits_val (intPart b)
  /\ (forallb isdigit (intPart a) = true -> forallb isdigit (fst (pad_ints a b)) = true)
  /\ (forallb isdigit (intPart b) = true -> forallb isdigit (snd (pad_ints a b)) = true).
Proof.
  unfold pad_ints. cbn [fst snd].
  destruct (Nat.ltb_spec (length (intPart a)) (length (intPart b))) as [Lt | Ge].
  - rewrite pad_left_length.
    destruct (Nat.ltb_spec (length (intPart b))
                (length (intPart b) - length (intPart a) + length (intPart a))); [lia |].
    rewrite digits_val_pad_left.
    repeat split; try lia; auto using forallb_pad_left.
  - destruct (Nat.ltb_spec (length (intPart b)) (length (intPart a))) as [Lt' | Ge'].
    + rewrite pad_left_length, digits_val_pad_left.
      repeat split; try lia; auto using forallb_pad_left.
    + repeat split; try lia; auto.
Qed.

Lemma pad_ints_comm a b : pad_ints b a = (snd (pad_ints a b), fst (pad_ints a b)).
Proof.
  unfold pad_ints. cbn [fst snd].
  destruct (Nat.ltb_spec (length (intPart a)) (length (intPart b))) as [Lt | Ge];
    destruct (Nat.ltb_spec (length (intPart b)) (length (intPart a))) as [Lt' | Ge'];
    try lia; rewrite ?pad_left_length.
  - destruct (Nat.ltb_spec (length (intPart b))
                (length (intPart b) - length (intPart a) + length (intPart a))); [lia |].
    destruct (Nat.ltb_spec (length (intPart a)) (length (intPart b))); [| lia].
    reflexivity.
  - destruct (Nat.ltb_spec (length (intPart a))
                (length (intPart a) - length (intPart b) + length (intPart b))); [lia |].
    destruct (Nat.ltb_spec (length (intPart b)) (length (intPart a))); [| lia].
    reflexivity.
  - destruct (Nat.ltb_spec (length (intPart b)) (length (intPart a))); [lia |].
    destruct (Nat.ltb_spec (length (intPart a)) (length (intPart b))); [lia |].
    reflexivity.
Qed.

(** ** Invariants, field by field *)

Lemma normalized_inv v :
  normalized v = true ->
  (sign v = 1 \/ sign v = -1)
  /\ forallb isdigit (intPart v) = true
  /\ empty (intPart v) = false
  /\ no_leading_zero (intPart v) = true
  /\ forallb isdigit (fracPart v) = true
  /\ no_trailing_zero (fracPart v) = true
  /\ (isZero v = true -> sign v = 1).
Proof.
  unfold normalized, is_all_digits. intros H.
  repeat (apply andb_true_iff in H; destruct H as [H ?]).
  apply orb_true_iff in H.
  match goal with
  | D : _ && negb _ = true |- _ =>
      apply andb_true_iff in D; destruct D as [D1 D2]; apply negb_true_iff in D2
  end.
  repeat split; try assumption.
  - destruct H as [H | H]; apply Z.eqb_eq in H; auto.
  - intros E. rewrite E in *. now apply Z.eqb_eq.
Qed.

Lemma normalized_intro v :
  (sign v = 1 \/ sign v = -1) ->
  forallb isdigit (intPart v) = true ->
  empty (intPart v) = false ->
  no_leading_zero (intPart v) = true ->
  forallb isdigit (fracPart v) = true ->
  no_trailing_zero (fracPart v) = true ->
  (isZero v = true -> sign v = 1) ->
  normalized v = true.
Proof.
  intros Hs Hi He Hl Hf Ht Hz. unfold normalized, is_all_digits.
  rewrite Hi, He, Hl, Hf, Ht. cbn [negb andb].
  assert (E : (sign v =? 1) || (sign v =? -1) = true).
  { apply orb_true_iff. destruct Hs as [-> | ->]; auto. }
  rewrite E. cbn [andb]. destruct (isZero v); [| reflexivity].
  apply Z.eqb_eq. auto.
Qed.

Lemma isZero_iff v : isZero v = true <-> intPart v = lit "0" /\ fracPart v = [].
Proof.
  unfold isZero. rewrite andb_true_iff, str_eqb_eq.
  destruct (fracPart v); simpl; intuition congruence.
Qed.

Lemma is_zero_char_iff c : is_zero_char c = true <-> c = "0"%char.
Proof. unfold is_zero_char. apply Ascii.eqb_eq. Qed.

Lemma no_leading_zero_iff s :
  no_leading_zero s = true <-> (forall c r, s = c :: r -> c = "0"%char -> r = []).
Proof.
  destruct s as [| c [| c' r]]; cbn [no_leading_zero]; split; intros H;
    try reflexivity.
  - intros c0 r0 E. discriminate E.
  - intros c0 r0 E _. now injection E as _ <-.
  - intros c0 r0 E E0. injection E as <- <-. subst c.
    discriminate H.
  - apply negb_true_iff. destruct (is_zero_char c) eqn:Z0; [| reflexivity].
    apply is_zero_char_iff in Z0. discriminate (H c (c' :: r) eq_refl Z0).
Qed.

Lemma no_trailing_zero_iff s :
  no_trailing_zero s = true <-> (forall p c, s = p ++ [c] -> c <> "0"%char).
Proof.
  unfold no_trailing_zero. split.
  - intros H p c E. subst s. rewrite rev_app_distr in H. cbn [rev app] in H.
    apply negb_true_iff in H. intros E. apply is_zero_char_iff in E. congruence.
  - intros H. destruct (rev s) as [| c r] eqn:E; [reflexivity |].
    apply negb_true_iff. destruct (is_zero_char c) eqn:Z0; [| reflexivity].
    apply is_zero_char_iff in Z0. exfalso. apply (H (rev r) c); [| assumption].
    rewrite <- (rev_involutive s), E. reflexivity.
Qed.

Lemma normalized_iff v : normalized v = true <-> Invariants v.
Proof.
  unfold Invariants. split.
  - intros N. destruct (normalized_inv v N) as [Sv [Iv [Ev [Lv [Fv [Tv Zv]]]]]].
    repeat split.
    + assumption.
    + intros E. rewrite E in Ev. discriminate Ev.
    + now apply no_leading_zero_iff.
    + now apply forallb_isdigit_Forall.
    + now apply forallb_isdigit_Forall.
    + now apply no_trailing_zero_iff.
    + intros Ei Ef. apply Zv. now apply isZero_iff.
  - intros [Sv [Ev [Lv [Iv [Fv [Tv Zv]]]]]]. apply normalized_intro.
    + assumption.
    + now apply forallb_isdigit_Forall.
    + destruct (intPart v); [now contradiction Ev | reflexivity].
    + now apply no_leading_zero_iff.
    + now apply forallb_isdigit_Forall.
    + now apply no_trailing_zero_iff.
    + intros Z0. apply isZero_iff in Z0. now apply Zv.
Qed.

(** ** Magnitude addition and subtraction *)

Section Magnitudes.

Variables a b : BigDecimal.
Hypothesis Hia : forallb isdigit (intPart a) = true.
Hypothesis Hna : empty (intPart a) = false.
Hypothesis Hfa : forallb isdigit (fracPart a) = true.
Hypothesis Hib : forallb isdigit (intPart b) = true.
Hypothesis Hfb : forallb isdigit (fracPart b) = true.

Let L := Nat.max (length (fracPart a)) (length (fracPart b)).
Let fa := pad_right (fracPart a) (L - length (fracPart a)).
Let fb := pad_right (fracPart b) (L - length (fracPart b)).

Lemma aligned_lengths : length fa = L /\ length fb = L.
Proof. unfold fa, fb. rewrite !pad_right_length. unfold L. lia. Qed.

Lemma aligned_digits : forallb isdigit fa = true /\ forallb isdigit fb = true.
Proof. unfold fa, fb. split; now apply forallb_pad_right. Qed.

Hypothesis HLi :
  Z.of_nat (Nat.max (length (intPart a)) (length (intPart b))) <= int_max.
Hypothesis HLf : Z.of_nat L <= int_max.

Lemma add_abs_spec :
  sign (add_abs a b) = 1
  /\ forallb isdigit (intPart (add_abs a b)) = true
  /\ empty (intPart (add_abs a b)) = false
  /\ no_leading_zero (intPart (add_abs a b)) = true
  /\ forallb isdigit (fracPart (add_abs a b)) = true
  /\ no_trailing_zero (fracPart (add_abs a b)) = true
  /\ (length (fracPart (add_abs a b)) <= L)%nat
  /\ mag_at L (add_abs a b) = mag_at L a + mag_at L b.
Proof.
  destruct aligned_lengths as [La Lb]. destruct aligned_digits as [Da Db].
  rewrite !mag_at_aligned. fold fa fb.
  unfold add_abs, align_frac. cbn [fracPart intPart]. fold L. fold fa fb.
  rewrite (add_digits_short nul fa fb 0); [| rewrite La; exact HLf | congruence].
  destruct (add_run_spec fa fb 0) as [Lr [Dr [Cr Vr]]];
    [congruence | assumption | assumption | lia |].
  destruct (add_run fa fb 0) as [rf cf]. cbn [fst snd] in Lr, Dr, Cr, Vr.
  rewrite La in Lr, Vr.
  set (a' := mkBigDecimal (sign a) (intPart a) fa).
  set (b' := mkBigDecimal (sign b) (intPart b) fb).
  destruct (pad_ints_spec a' b') as [LA [LB [VA [VB [DA DB]]]]].
  cbn [intPart a' b'] in LA, LB, VA, VB, DA, DB.
  destruct (pad_ints a' b') as [A B]. cbn [fst snd] in LA, LB, VA, VB, DA, DB.
  rewrite (add_digits_short "0"%char A B cf); [| rewrite LA; exact HLi | congruence].
  destruct (add_run_spec A B cf) as [Ls [Ds [Cs Vs]]];
    [congruence | auto | auto | lia |].
  destruct (add_run A B cf) as [s c]. cbn [fst snd] in Ls, Ds, Cs, Vs.
  cbn [sign intPart fracPart].
  set (s' := if negb (c =? 0) then char_of_int (48 + c) :: s else s).
  assert (Hs' : forallb isdigit s' = true /\ empty s' = false
                /\ digits_val s' = digits_val A + digits_val B + cf).
  { unfold s'. destruct (Z.eqb_spec c 0) as [E | N]; cbn [negb].
    - subst c. repeat split; [assumption | | lia].
      destruct s; [| reflexivity]. destruct A; [| discriminate Ls].
      destruct (intPart a); [discriminate Hna |].
      cbn [length] in LA. lia.
    - assert (c = 1) by lia. subst c. cbn [forallb digits_val].
      rewrite Ds. repeat split. rewrite Ls.
      change (digit_val (char_of_int (48 + 1))) with 1. lia. }
  destruct Hs' as [Ds' [Ns' Vs']].
  repeat split.
  - now apply trim_leading_zeros_digits.
  - now apply trim_leading_zeros_nonempty.
  - apply trim_leading_zeros_normal.
  - now apply trim_trailing_zeros_digits.
  - apply trim_trailing_zeros_normal.
  - rewrite <- Lr. apply trim_trailing_zeros_length.
  - rewrite trim_leading_zeros_val, Vs', VA, VB.
    rewrite digits_val_pad_right.
    pose proof (trim_trailing_zeros_val rf) as T. rewrite Lr in T.
    rewrite <- T. lia.
Qed.

Lemma sub_abs_spec :
  mag_at L b <= mag_at L a ->
  sign (sub_abs a b) = 1
  /\ forallb isdigit (intPart (sub_abs a b)) = true
  /\ empty (intPart (sub_abs a b)) = false
  /\ no_leading_zero (intPart (sub_abs a b)) = true
  /\ forallb isdigit (fracPart (sub_abs a b)) = true
  /\ no_trailing_zero (fracPart (sub_abs a b)) = true
  /\ (length (fracPart (sub_abs a b)) <= L)%nat
  /\ mag_at L (sub_abs a b) = mag_at L a - mag_at L b.
Proof.
  destruct aligned_lengths as [La Lb]. destruct aligned_digits as [Da Db].
  rewrite !mag_at_aligned. fold fa fb. intros Hge.
  unfold sub_abs, align_frac. cbn [fracPart intPart]. fold L. fold fa fb.
  rewrite (sub_digits_short nul fa fb 0); [| rewrite La; exact HLf | congruence].
  destruct (sub_run_spec fa fb 0) as [Lr [Dr [Cr Vr]]];
    [congruence | assumption | assumption | lia |].
  destruct (sub_run fa fb 0) as [rf cf]. cbn [fst snd] in Lr, Dr, Cr, Vr.
  rewrite La in Lr, Vr.
  set (a' := mkBigDecimal (sign a) (intPart a) fa).
  set (b' := mkBigDecimal (sign b) (intPart b) fb).
  destruct (pad_ints_spec a' b') as [LA [LB [VA [VB [DA DB]]]]].
  cbn [intPart a' b'] in LA, LB, VA, VB, DA, DB.
  destruct (pad_ints a' b') as [A B]. cbn [fst snd] in LA, LB, VA, VB, DA, DB.
  rewrite (sub_digits_short "0"%char A B cf); [| rewrite LA; exact HLi | congruence].
  destruct (sub_run_spec A B cf) as [Ls [Ds [Cs Vs]]];
    [congruence | auto | auto | lia |].
  destruct (sub_run A B cf) as [s c]. cbn [fst snd] in Ls, Ds, Cs, Vs.
  assert (Ns : empty s = false).
  { destruct s; [| reflexivity]. destruct A; [| discriminate Ls].
    destruct (intPart a); [discriminate Hna |]. cbn [length] in LA. lia. }
  pose proof (digits_val_bounds s Ds) as Bs.
  pose proof (digits_val_bounds rf Dr) as Br.
  pose proof (digits_val_bounds fa Da) as Bfa.
  pose proof (digits_val_bounds fb Db) as Bfb.
  rewrite Lr in Br. rewrite La in Bfa. rewrite Lb in Bfb. rewrite Ls in Bs.
  pose proof (pow10_pos L) as PL.
  pose proof (pow10_pos (length A)) as PA.
  assert (c = 0).
  { assert (c = 0 \/ c = 1) as [E | E] by lia; [assumption | exfalso].
    subst c. rewrite VA, VB in Vs. nia. }
  subst c.
  assert (Vres : digits_val (trim_leading_zeros s) * 10 ^ Z.of_nat L
                 + digits_val (pad_right (trim_trailing_zeros rf)
                                 (L - length (trim_trailing_zeros rf)))
                 = digits_val (intPart a) * 10 ^ Z.of_nat L + digits_val fa
                   - (digits_val (intPart b) * 10 ^ Z.of_nat L + digits_val fb)).
  { rewrite trim_leading_zeros_val, digits_val_pad_right.
    pose proof (trim_trailing_zeros_val rf) as T. rewrite Lr in T.
    rewrite <- T. rewrite VA, VB in Vs. nia. }
  destruct (str_eqb (trim_leading_zeros s) (lit "0")
            && empty (trim_trailing_zeros rf)) eqn:Z0.
  - apply andb_true_iff in Z0. destruct Z0 as [Z1 Z2]. apply str_eqb_eq in Z1.
    cbn [sign intPart fracPart]. rewrite <- Z1.
    repeat split; try assumption.
    + now apply trim_leading_zeros_digits.
    + now apply trim_leading_zeros_nonempty.
    + apply trim_leading_zeros_normal.
    + now apply trim_trailing_zeros_digits.
    + apply trim_trailing_zeros_normal.
    + rewrite <- Lr. apply trim_trailing_zeros_length.
  - cbn [sign intPart fracPart].
    repeat split; try assumption.
    + now apply trim_leading_zeros_digits.
    + now apply trim_leading_zeros_nonempty.
    + apply trim_leading_zeros_normal.
    + now apply trim_trailing_zeros_digits.
    + apply trim_trailing_zeros_normal.
    + rewrite <- Lr. apply trim_trailing_zeros_length.
Qed.

End Magnitudes.

(** ** Magnitude comparison *)

Lemma longer_is_greater s t :
  forallb isdigit s = true -> forallb isdigit t = true ->
  no_leading_zero t = true ->
  empty s = false -> (length s < length t)%nat ->
  digits_val s < digits_val t.
Proof.
  intros Ds Dt Nt Ns Hlen.
  destruct s as [| x s]; [discriminate Ns |].
  destruct t as [| c [| c' t]]; cbn [length] in Hlen; try lia.
  cbn [no_leading_zero] in Nt. apply negb_true_iff in Nt.
  cbn [forallb] in Dt. apply andb_true_iff in Dt. destruct Dt as [Dc Dt].
  pose proof (digits_val_lower c (c' :: t) Dc Nt Dt) as Lo.
  pose proof (digits_val_bounds (x :: s) Ds) as Up.
  assert (10 ^ Z.of_nat (length (x :: s)) <= 10 ^ Z.of_nat (length (c' :: t))).
  { apply Z.pow_le_mono_r; cbn [length]; lia. }
  lia.
Qed.

Section Comparison.

Variables a b : BigDecimal.
Hypothesis Hia : forallb isdigit (intPart a) = true.
Hypothesis Hna : empty (intPart a) = false.
Hypothesis Hla : no_leading_zero (intPart a) = true.
Hypothesis Hfa : forallb isdigit (fracPart a) = true.
Hypothesis Hib : forallb isdigit (intPart b) = true.
Hypothesis Hnb : empty (intPart b) = false.
Hypothesis Hlb : no_leading_zero (intPart b) = true.
Hypothesis Hfb : forallb isdigit (fracPart b) = true.

Let L := Nat.max (length (fracPart a)) (length (fracPart b)).

Lemma cmp_abs_spec :
  cmp_abs a b = int_of_comparison (mag_at L a ?= mag_at L b).
Proof.
  destruct (aligned_lengths a b) as [La Lb].
  destruct (aligned_digits a b Hfa Hfb) as [Da Db].
  rewrite !mag_at_aligned. fold L in La, Lb |- *.
  unfold cmp_abs, align_frac. cbn [fracPart intPart]. fold L.
  set (fa := pad_right (fracPart a) (L - length (fracPart a))) in *.
  set (fb := pad_right (fracPart b) (L - length (fracPart b))) in *.
  pose proof (digits_val_bounds fa Da) as Bfa. rewrite La in Bfa.
  pose proof (digits_val_bounds fb Db) as Bfb. rewrite Lb in Bfb.
  pose proof (pow10_pos L) as PL.
  assert (Lt_case : digits_val (intPart a) < digits_val (intPart b) ->
            (digits_val (intPart a) * 10 ^ Z.of_nat L + digits_val fa
             ?= digits_val (intPart b) * 10 ^ Z.of_nat L + digits_val fb) = Lt).
  { intros H. apply Z.compare_lt_iff. nia. }
  assert (Gt_case : digits_val (intPart b) < digits_val (intPart a) ->
            (digits_val (intPart a) * 10 ^ Z.of_nat L + digits_val fa
             ?= digits_val (intPart b) * 10 ^ Z.of_nat L + digits_val fb) = Gt).
  { intros H. apply Z.compare_gt_iff. nia. }
  destruct (Nat.eqb_spec (length (intPart a)) (length (intPart b))) as [El | Nl];
    cbn [negb].
  - destruct (str_cmp_digits _ _ El Hia Hib) as [Ie Il].
    destruct (str_eqb (intPart a) (intPart b)) eqn:Ei; cbn [negb].
    + assert (Ev : digits_val (intPart a) = digits_val (intPart b)) by now apply Ie.
      rewrite Ev.
      destruct (str_cmp_digits fa fb) as [Fe Fl]; [congruence | assumption | assumption |].
      destruct (str_eqb fa fb) eqn:Ef; cbn [negb].
      * assert (Fv : digits_val fa = digits_val fb) by now apply Fe.
        rewrite Fv, Z.compare_refl. reflexivity.
      * destruct (str_ltb fa fb) eqn:Lf.
        -- assert (digits_val fa < digits_val fb) by now apply Fl.
           replace (_ ?= _) with Lt; [reflexivity |].
           symmetry. apply Z.compare_lt_iff. lia.
        -- assert (digits_val fa <> digits_val fb).
           { intros E. apply Fe in E. discriminate E. }
           assert (~ digits_val fa < digits_val fb).
           { intros E. apply Fl in E. discriminate E. }
           replace (_ ?= _) with Gt; [reflexivity |].
           symmetry. apply Z.compare_gt_iff. lia.
    + destruct (str_ltb (intPart a) (intPart b)) eqn:Li.
      * rewrite Lt_case; [reflexivity | now apply Il].
      * assert (digits_val (intPart a) <> digits_val (intPart b)).
        { intros E. apply Ie in E. discriminate E. }
        assert (~ digits_val (intPart a) < digits_val (intPart b)).
        { intros E. apply Il in E. discriminate E. }
        rewrite Gt_case; [reflexivity | lia].
  - destruct (Nat.ltb_spec (length (intPart a)) (length (intPart b))) as [Lt' | Ge'].
    + rewrite Lt_case; [reflexivity |]. now apply longer_is_greater.
    + rewrite Gt_case; [reflexivity |]. apply longer_is_greater; auto. lia.
Qed.

End Comparison.

Lemma str_ltb_antisym a : forall b,
  str_eqb a b = false -> str_ltb b a = negb (str_ltb a b).
Proof.
  induction a as [| x a IH]; intros [| y b] H; try reflexivity; try discriminate H.
  cbn [str_ltb str_eqb] in *.
  destruct (Z.ltb_spec (code x) (code y)) as [Lt1 | Ge1];
    destruct (Z.ltb_spec (code y) (code x)) as [Lt2 | Ge2]; try reflexivity; try lia.
  apply IH. assert (x = y) as ->.
  { unfold code in *. assert (N_of_ascii x = N_of_ascii y) by lia.
    rewrite <- (ascii_N_embedding x), <- (ascii_N_embedding y). congruence. }
  now rewrite Ascii.eqb_refl in H.
Qed.

Lemma cmp_abs_antisym a b : cmp_abs b a = - cmp_abs a b.
Proof.
  unfold cmp_abs, align_frac. cbn [intPart fracPart].
  rewrite (Nat.max_comm (length (fracPart b))).
  set (fa := pad_right (fracPart a) _). set (fb := pad_right (fracPart b) _).
  rewrite (Nat.eqb_sym (length (intPart b))).
  destruct (Nat.eqb_spec (length (intPart a)) (length (intPart b))) as [El | Nl];
    cbn [negb].
  - rewrite (str_eqb_sym (intPart b)).
    destruct (str_eqb (intPart a) (intPart b)) eqn:Ei; cbn [negb].
    + rewrite (str_eqb_sym fb).
      destruct (str_eqb fa fb) eqn:Ef; cbn [negb]; [reflexivity |].
      rewrite (str_ltb_antisym _ _ Ef). now destruct (str_ltb fa fb).
    + rewrite (str_ltb_antisym _ _ Ei). now destruct (str_ltb (intPart a) (intPart b)).
  - destruct (Nat.ltb_spec (length (intPart a)) (length (intPart b)));
      destruct (Nat.ltb_spec (length (intPart b)) (length (intPart a)));
      try reflexivity; lia.
Qed.

(** ** Symmetry of the magnitude adder *)

Lemma add_abs_comm a b : add_abs a b = add_abs b a.
Proof.
  unfold add_abs, align_frac. cbn [intPart fracPart].
  rewrite (Nat.max_comm (length (fracPart b))).
  set (L := Nat.max (length (fracPart a)) (length (fracPart b))).
  set (fa := pad_right (fracPart a) _). set (fb := pad_right (fracPart b) _).
  assert (El : length fb = length fa).
  { unfold fa, fb. rewrite !pad_right_length. unfold L. lia. }
  rewrite (add_digits_comm nul fb fa 0 El).
  destruct (add_digits nul fa fb 0) as [rf cf].
  rewrite (pad_ints_comm (mkBigDecimal (sign a) (intPart a) fa)
             (mkBigDecimal (sign b) (intPart b) fb)).
  destruct (pad_ints_spec (mkBigDecimal (sign a) (intPart a) fa)
              (mkBigDecimal (sign b) (intPart b) fb)) as [LA [LB _]].
  destruct (pad_ints (mkBigDecimal (sign a) (intPart a) fa)
              (mkBigDecimal (sign b) (intPart b) fb)) as [A B].
  cbn [fst snd] in *. rewrite (add_digits_comm "0"%char B A cf); [reflexivity | congruence].
Qed.

(** ** Signed addition *)

Lemma isZero_mag k v : isZero v = true -> mag_at k v = 0.
Proof.
  intros H. apply isZero_iff in H. destruct H as [Hi Hf].
  unfold mag_at. rewrite Hi, Hf. reflexivity.
Qed.

Lemma with_sign_parts sg r :
  intPart (with_sign sg r) = intPart r
  /\ fracPart (with_sign sg r) = fracPart r
  /\ sign (with_sign sg r) = (if isZero r then 1 else sg).
Proof.
  unfold with_sign, isZero. cbn [intPart fracPart].
  destruct (str_eqb (intPart r) (lit "0") && empty (fracPart r)); auto.
Qed.

Lemma with_sign_sval k sg r : sval_at k (with_sign sg r) = sg * mag_at k r.
Proof.
  destruct (with_sign_parts sg r) as [Hi [Hf Hs]].
  unfold sval_at. rewrite Hs. unfold mag_at at 1. rewrite Hi, Hf.
  fold (mag_at k r). destruct (isZero r) eqn:Z0; [| reflexivity].
  rewrite (isZero_mag k r Z0). ring.
Qed.

Lemma with_sign_normalized sg r :
  sg = 1 \/ sg = -1 ->
  forallb isdigit (intPart r) = true ->
  empty (intPart r) = false ->
  no_leading_zero (intPart r) = true ->
  forallb isdigit (fracPart r) = true ->
  no_trailing_zero (fracPart r) = true ->
  normalized (with_sign sg r) = true.
Proof.
  intros Hs Hi He Hl Hf Ht.
  destruct (with_sign_parts sg r) as [Ei [Ef Es]].
  apply normalized_intro; rewrite ?Ei, ?Ef, ?Es; auto.
  - destruct (isZero r); auto.
  - unfold isZero. rewrite Ei, Ef. fold (isZero r). now intros ->.
Qed.

Lemma zero_normalized : normalized zero = true.
Proof. reflexivity. Qed.

Lemma in_int_range_inv v :
  in_int_range v = true ->
  Z.of_nat (length (intPart v)) <= int_max /\ Z.of_nat (length (fracPart v)) <= int_max.
Proof.
  unfold in_int_range. intros H. apply andb_true_iff in H. destruct H as [H1 H2].
  apply Z.leb_le in H1, H2. auto.
Qed.

Lemma carry_room_inv v :
  carry_room v = true ->
  Z.of_nat (length (intPart v)) < int_max /\ Z.of_nat (length (fracPart v)) <= int_max.
Proof.
  unfold carry_room. intros H. apply andb_true_iff in H. destruct H as [H1 H2].
  apply Z.ltb_lt in H1. apply Z.leb_le in H2. auto.
Qed.

Lemma carry_room_in_int_range v : carry_room v = true -> in_int_range v = true.
Proof.
  intros H. destruct (carry_room_inv v H) as [H1 H2]. unfold in_int_range.
  apply andb_true_iff. split; apply Z.leb_le; lia.
Qed.

Section SignedAddition.

Variables a b : BigDecimal.
Hypothesis Na : normalized a = true.
Hypothesis Nb : normalized b = true.

Let L := Nat.max (length (fracPart a)) (length (fracPart b)).

Lemma add_signed_comm : add_signed a b = add_signed b a.
Proof.
  destruct (normalized_inv a Na) as [_ [_ [_ [_ [_ [_ Za]]]]]].
  destruct (normalized_inv b Nb) as [_ [_ [_ [_ [_ [_ Zb]]]]]].
  unfold add_signed.
  destruct (isZero a) eqn:Z1; destruct (isZero b) eqn:Z2; try reflexivity.
  - apply isZero_iff in Z1, Z2. destruct Z1 as [I1 F1], Z2 as [I2 F2].
    specialize (Za eq_refl). specialize (Zb eq_refl).
    destruct a, b. cbn in *. congruence.
  - rewrite (Z.eqb_sym (sign b)).
    destruct (Z.eqb_spec (sign a) (sign b)) as [Es | Ns].
    + now rewrite Es, add_abs_comm.
    + rewrite (cmp_abs_antisym a b).
      destruct (cmp_abs a b) as [| p | p]; reflexivity.
Qed.

Hypothesis Ra : in_int_range a = true.
Hypothesis Rb : in_int_range b = true.

Lemma add_signed_sound :
  normalized (add_signed a b) = true
  /\ (length (fracPart (add_signed a b)) <= L)%nat
  /\ sval_at L (add_signed a b) = sval_at L a + sval_at L b.
Proof.
  destruct (normalized_inv a Na) as [Sa [Ia [Ea [La [Fa [Ta Za]]]]]].
  destruct (normalized_inv b Nb) as [Sb [Ib [Eb [Lb [Fb [Tb Zb]]]]]].
  destruct (in_int_range_inv a Ra) as [Ria Rfa].
  destruct (in_int_range_inv b Rb) as [Rib Rfb].
  assert (HLi : Z.of_nat (Nat.max (length (intPart a)) (length (intPart b))) <= int_max)
    by lia.
  assert (HLi' : Z.of_nat (Nat.max (length (intPart b)) (length (intPart a))) <= int_max)
    by lia.
  assert (HLf : Z.of_nat L <= int_max) by (unfold L; lia).
  assert (HLf' : Z.of_nat (Nat.max (length (fracPart b)) (length (fracPart a))) <= int_max)
    by lia.
  unfold add_signed.
  destruct (isZero a) eqn:Z1.
  { split; [assumption |]. split; [unfold L; lia |].
    unfold sval_at. rewrite (isZero_mag L a Z1). ring. }
  destruct (isZero b) eqn:Z2.
  { split; [assumption |]. split; [unfold L; lia |].
    unfold sval_at. rewrite (isZero_mag L b Z2). ring. }
  destruct (Z.eqb_spec (sign a) (sign b)) as [Es | Ns].
  - destruct (add_abs_spec a b Ia Ea Fa Ib Fb HLi HLf) as [_ [Di [Ei [Li [Df [Tf [Lf Vf]]]]]]].
    fold L in Lf, Vf.
    destruct (with_sign_parts (sign a) (add_abs a b)) as [_ [Ef _]].
    split; [now apply with_sign_normalized |].
    split; [now rewrite Ef |].
    rewrite with_sign_sval, Vf. unfold sval_at. rewrite <- Es. ring.
  - assert (Sab : sign b = - sign a) by lia.
    rewrite (cmp_abs_spec a b Ia Ea La Fa Ib Eb Lb Fb). fold L.
    destruct (Z.compare_spec (mag_at L a) (mag_at L b)) as [Eq | Lt | Gt];
      cbn [int_of_comparison Z.eqb Z.gtb Z.compare].
    + split; [reflexivity |]. split; [cbn; lia |].
      unfold sval_at. rewrite Sab, Eq. cbn. ring.
    + pose proof (sub_abs_spec b a Ib Eb Fb Ia Fa HLi' HLf') as Sp.
      rewrite (Nat.max_comm (length (fracPart b))) in Sp. fold L in Sp.
      destruct Sp as [_ [Di [Ei [Li [Df [Tf [Lf Vf]]]]]]]; [lia |].
      destruct (with_sign_parts (sign b) (sub_abs b a)) as [_ [Ef _]].
      split; [now apply with_sign_normalized |].
      split; [now rewrite Ef |].
      rewrite with_sign_sval, Vf. unfold sval_at. rewrite Sab. ring.
    + pose proof (sub_abs_spec a b Ia Ea Fa Ib Fb HLi HLf) as Sp. fold L in Sp.
      destruct Sp as [_ [Di [Ei [Li [Df [Tf [Lf Vf]]]]]]]; [lia |].
      destruct (with_sign_parts (sign a) (sub_abs a b)) as [_ [Ef _]].
      split; [now apply with_sign_normalized |].
      split; [now rewrite Ef |].
      rewrite with_sign_sval, Vf. unfold sval_at. rewrite Sab. ring.
Qed.



End SignedAddition.

(** ** Parsing *)

Lemma parse_normalize_unfold x :
  parse_normalize x =
  match x with
  | c :: r =>
      if Ascii.eqb c "+" then parse_parts 1 r
      else if Ascii.eqb c "-" then parse_parts (-1) r
      else parse_parts 1 x
  | [] => parse_parts 1 x
  end.
Proof.
  unfold parse_normalize, parse_parts. destruct x as [| c r]; [reflexivity |].
  destruct (Ascii.eqb c "+"); [reflexivity |].
  destruct (Ascii.eqb c "-"); reflexivity.
Qed.

Lemma digit_head_not_sign d :
  isdigit d = true ->
  Ascii.eqb d "+" = false /\ Ascii.eqb d "-" = false /\ Ascii.eqb d "." = false.
Proof.
  destruct d as [[] [] [] [] [] [] [] []]; vm_compute; intros H;
    try discriminate H; auto.
Qed.

Lemma parse_normalize_signed sg body :
  opt_sign sg -> (exists d r, body = d :: r /\ isdigit d = true) ->
  parse_normalize (sg ++ body) = parse_parts (sign_of sg) body.
Proof.
  intros Hs [d [r [E Hd]]]. rewrite parse_normalize_unfold.
  destruct Hs as [-> | [-> | ->]]; try reflexivity.
  subst body. cbn [app].
  destruct (digit_head_not_sign d Hd) as [-> [-> _]]. reflexivity.
Qed.

Lemma split_dot_digits ds : forallb isdigit ds = true -> split_dot ds = None.
Proof.
  induction ds as [| c ds IH]; [reflexivity |].
  cbn [forallb split_dot]. intros H. apply andb_true_iff in H.
  destruct H as [Hc Hs].
  destruct (digit_head_not_sign c Hc) as [_ [_ ->]]. now rewrite IH.
Qed.

Lemma split_dot_app ds fs :
  forallb isdigit ds = true -> split_dot (ds ++ lit "." ++ fs) = Some (ds, fs).
Proof.
  induction ds as [| c ds IH]; [reflexivity |].
  cbn [forallb]. intros H. apply andb_true_iff in H. destruct H as [Hc Hs].
  rewrite <- app_comm_cons. cbn [split_dot].
  destruct (digit_head_not_sign c Hc) as [_ [_ ->]]. now rewrite IH.
Qed.

Lemma digits1_inv s : digits1 s -> forallb isdigit s = true /\ empty s = false.
Proof.
  intros H. apply is_all_digits_digits1 in H. unfold is_all_digits in H.
  apply andb_true_iff in H. destruct H as [H1 H2].
  apply negb_true_iff in H2. auto.
Qed.

Lemma parse_parts_integer sg ds :
  digits1 ds ->
  parse_parts sg ds =
  mkBigDecimal (if str_eqb (trim_leading_zeros ds) (lit "0") then 1 else sg)
    (trim_leading_zeros ds) [].
Proof.
  intros H. apply digits1_inv in H. destruct H as [H _].
  unfold parse_parts. rewrite (split_dot_digits _ H).
  change (trim_trailing_zeros []) with (@nil ascii). cbn [empty].
  now rewrite andb_true_r.
Qed.

Lemma parse_parts_fraction sg ds fs :
  digits1 ds ->
  parse_parts sg (ds ++ lit "." ++ fs) =
  mkBigDecimal
    (if str_eqb (trim_leading_zeros ds) (lit "0") && empty (trim_trailing_zeros fs)
     then 1 else sg)
    (trim_leading_zeros ds) (trim_trailing_zeros fs).
Proof.
  intros H. apply digits1_inv in H. destruct H as [H _].
  unfold parse_parts. now rewrite (split_dot_app _ _ H).
Qed.

Lemma sign_of_cases sg : opt_sign sg -> sign_of sg = 1 \/ sign_of sg = -1.
Proof. intros [-> | [-> | ->]]; cbn; auto. Qed.

Lemma parse_parts_normalized sg ip fp :
  sg = 1 \/ sg = -1 -> digits1 ip -> forallb isdigit fp = true ->
  normalized
    (mkBigDecimal
       (if str_eqb (trim_leading_zeros ip) (lit "0") && empty (trim_trailing_zeros fp)
        then 1 else sg)
       (trim_leading_zeros ip) (trim_trailing_zeros fp)) = true.
Proof.
  intros Hs Hi Hf. apply digits1_inv in Hi. destruct Hi as [Hi He].
  apply normalized_intro; cbn [sign intPart fracPart].
  - destruct (_ && _); auto.
  - now apply trim_leading_zeros_digits.
  - now apply trim_leading_zeros_nonempty.
  - apply trim_leading_zeros_normal.
  - now apply trim_trailing_zeros_digits.
  - apply trim_trailing_zeros_normal.
  - unfold isZero. cbn [intPart fracPart]. now intros ->.
Qed.

Lemma parse_normalize_normalized x :
  valid_literal x -> normalized (parse_normalize x) = true.
Proof.
  intros [sg ds Hs Hd | sg ds fs Hs Hd Hf].
  - rewrite parse_normalize_signed; [| assumption | now apply digits1_head].
    rewrite parse_parts_integer by assumption.
    pose proof (parse_parts_normalized (sign_of sg) ds [] (sign_of_cases _ Hs) Hd eq_refl) as N.
    change (trim_trailing_zeros []) with (@nil ascii) in N. cbn [empty] in N.
    now rewrite andb_true_r in N.
  - rewrite parse_normalize_signed; [| assumption |].
    + rewrite parse_parts_fraction by assumption.
      apply parse_parts_normalized; [now apply sign_of_cases | assumption |].
      now apply digits1_inv in Hf.
    + destruct (digits1_head _ Hd) as [d [r [E Dd]]]. exists d, (r ++ lit "." ++ fs).
      split; [now rewrite E | assumption].
Qed.

(** ** Formatting *)

Lemma to_string_nonzero v :
  isZero v = false ->
  to_string v =
  (if sign v <? 0 then lit "-" else []) ++ intPart v ++
  (if negb (empty (fracPart v)) then lit "." ++ fracPart v else []).
Proof. unfold to_string. now intros ->. Qed.

Lemma parse_to_string v : normalized v = true -> parse_normalize (to_string v) = v.
Proof.
  intros N. destruct (normalized_inv v N) as [Sv [Iv [Ev [Lv [Fv [Tv Zv]]]]]].
  destruct (isZero v) eqn:Z0.
  - unfold to_string. rewrite Z0. specialize (Zv eq_refl).
    apply isZero_iff in Z0. destruct Z0 as [Ei Ef].
    destruct v as [s i f]. cbn in *. subst. reflexivity.
  - rewrite (to_string_nonzero v Z0).
    assert (Hd : digits1 (intPart v)).
    { apply is_all_digits_digits1. unfold is_all_digits. now rewrite Iv, Ev. }
    set (sg := if sign v <? 0 then _ else _).
    assert (Hsg : opt_sign sg /\ sign_of sg = sign v).
    { unfold sg. destruct Sv as [-> | ->]; cbn; unfold opt_sign; auto. }
    destruct Hsg as [Hsg Es].
    rewrite parse_normalize_signed; [| assumption |].
    + rewrite Es. clear Hsg Es. clear sg.
      destruct (fracPart v) as [| f fs] eqn:Ef; cbn [empty negb].
      * rewrite app_nil_r, parse_parts_integer by assumption.
        rewrite (trim_leading_zeros_id _ Lv).
        unfold isZero in Z0. rewrite Ef in Z0. cbn [empty] in Z0.
        rewrite andb_true_r in Z0. rewrite Z0.
        destruct v as [s i f']. cbn in *. now subst.
      * rewrite parse_parts_fraction by assumption.
        rewrite (trim_leading_zeros_id _ Lv).
        rewrite <- Ef in *. rewrite (trim_trailing_zeros_id _ Tv).
        unfold isZero in Z0. rewrite Z0.
        destruct v as [s i f']. reflexivity.
    + destruct (digits1_head _ Hd) as [d [r [E Dd]]]. rewrite E.
      eexists d, _. split; [rewrite <- app_comm_cons; reflexivity | assumption].
Qed.

(** ** Rational values *)

Lemma pow10_Z n : Z.pos (pow10 n) = 10 ^ Z.of_nat n.
Proof. unfold pow10. apply Z2Pos.id. apply pow10_pos. Qed.

Lemma mag_at_scale k v :
  (length (fracPart v) <= k)%nat ->
  mag_at k v =
  digits_val (intPart v ++ fracPart v) * 10 ^ Z.of_nat (k - length (fracPart v)).
Proof.
  intros H. unfold mag_at. rewrite digits_val_app.
  replace k with (length (fracPart v) + (k - length (fracPart v)))%nat at 1 by lia.
  rewrite pow10_add. ring.
Qed.

Lemma magnitude_at k v :
  (length (fracPart v) <= k)%nat ->
  (magnitude v == Qmake (mag_at k v) (pow10 k))%Q.
Proof.
  intros H. unfold magnitude, Qeq. cbn [Qnum Qden]. rewrite !pow10_Z.
  rewrite (mag_at_scale k v H).
  replace k with (length (fracPart v) + (k - length (fracPart v)))%nat at 1 by lia.
  rewrite pow10_add. ring.
Qed.

Lemma value_at k v :
  (length (fracPart v) <= k)%nat ->
  (value v == Qmake (sval_at k v) (pow10 k))%Q.
Proof.
  intros H. unfold value, sval_at, Qeq. cbn [Qnum Qden]. rewrite !pow10_Z.
  rewrite (mag_at_scale k v H).
  replace k with (length (fracPart v) + (k - length (fracPart v)))%nat at 1 by lia.
  rewrite pow10_add. ring.
Qed.

Lemma Qmake_plus x y p : (Qmake x p + Qmake y p == Qmake (x + y) p)%Q.
Proof. unfold Qeq, Qplus. cbn [Qnum Qden]. rewrite Pos2Z.inj_mul. ring. Qed.

Lemma Qmake_minus x y p : (Qmake x p - Qmake y p == Qmake (x - y) p)%Q.
Proof.
  unfold Qeq, Qminus, Qplus, Qopp. cbn [Qnum Qden]. rewrite Pos2Z.inj_mul. ring.
Qed.

Lemma Qmake_compare x y p : (Qmake x p ?= Qmake y p)%Q = (x ?= y).
Proof.
  unfold Qcompare. cbn [Qnum Qden].
  destruct (Z.compare_spec x y) as [E | Lt | Gt].
  - subst. apply Z.compare_refl.
  - apply Z.compare_lt_iff. nia.
  - apply Z.compare_gt_iff. nia.
Qed.

Lemma Qmake_zero x p : (Qmake x p == 0)%Q <-> x = 0.
Proof. unfold Qeq. cbn [Qnum Qden]. lia. Qed.

Lemma literal_value_signed sg body :
  opt_sign sg -> (exists d r, body = d :: r /\ isdigit d = true) ->
  literal_value (sg ++ body) = literal_parts (sign_of sg) body.
Proof.
  intros Hs [d [r [E Hd]]]. unfold literal_value, literal_parts.
  destruct Hs as [-> | [-> | ->]]; try reflexivity.
  subst body. cbn [app].
  destruct (digit_head_not_sign d Hd) as [-> [-> _]]. reflexivity.
Qed.

Lemma str_zero_val s : str_eqb s (lit "0") = true -> digits_val s = 0.
Proof. intros H. apply str_eqb_eq in H. now subst s. Qed.

Lemma empty_nil s : empty s = true -> s = [].
Proof. destruct s; [reflexivity | discriminate]. Qed.

Lemma parse_value x :
  valid_literal x -> (value (parse_normalize x) == literal_value x)%Q.
Proof.
  intros [sg ds Hs Hd | sg ds fs Hs Hd Hf].
  - rewrite parse_normalize_signed, literal_value_signed;
      try assumption; try now apply digits1_head.
    rewrite parse_parts_integer by assumption.
    destruct (digits1_inv _ Hd) as [Dd _].
    unfold literal_parts. rewrite (split_dot_digits _ Dd).
    unfold value, inject_Z, Qeq. cbn [Qnum Qden sign intPart fracPart length].
    rewrite app_nil_r, trim_leading_zeros_val.
    change (Z.pos (pow10 0)) with 1.
    destruct (str_eqb (trim_leading_zeros ds) (lit "0")) eqn:Z0; [| ring].
    apply str_zero_val in Z0. rewrite trim_leading_zeros_val in Z0.
    rewrite Z0. ring.
  - assert (Hb : exists d r, ds ++ lit "." ++ fs = d :: r /\ isdigit d = true).
    { destruct (digits1_head _ Hd) as [d [r [E Dd]]]. exists d, (r ++ lit "." ++ fs).
      split; [now rewrite E | assumption]. }
    rewrite parse_normalize_signed, literal_value_signed by assumption.
    rewrite parse_parts_fraction by assumption.
    destruct (digits1_inv _ Hd) as [Dd _].
    unfold literal_parts. rewrite (split_dot_app _ _ Dd).
    set (v := mkBigDecimal _ _ _).
    rewrite (value_at (length fs) v);
      [| unfold v; cbn [fracPart]; apply trim_trailing_zeros_length].
    unfold Qeq. cbn [Qnum Qden]. f_equal.
    unfold sval_at, mag_at, v. cbn [sign intPart fracPart].
    rewrite trim_leading_zeros_val, <- trim_trailing_zeros_val, digits_val_app.
    destruct (str_eqb (trim_leading_zeros ds) (lit "0")
              && empty (trim_trailing_zeros fs)) eqn:Z0; [| reflexivity].
    apply andb_true_iff in Z0. destruct Z0 as [Z1 Z2].
    apply str_zero_val in Z1. rewrite trim_leading_zeros_val in Z1.
    apply empty_nil in Z2. rewrite (trim_trailing_zeros_val fs), Z2, Z1.
    cbn [digits_val]. ring.
Qed.

(** ** Zero and uniqueness of normalized representations *)

Lemma mag_at_nonneg k v :
  forallb isdigit (intPart v) = true -> forallb isdigit (fracPart v) = true ->
  0 <= mag_at k v.
Proof.
  intros Hi Hf. unfold mag_at.
  pose proof (digits_val_bounds _ Hi). pose proof (digits_val_bounds _ Hf).
  pose proof (pow10_pos k). pose proof (pow10_pos (k - length (fracPart v))).
  nia.
Qed.

Lemma no_leading_zero_val_zero s :
  forallb isdigit s = true -> empty s = false -> no_leading_zero s = true ->
  digits_val s = 0 -> s = lit "0".
Proof.
  intros Ds Ns Nl V. destruct s as [| c [| c' r]]; [discriminate Ns | |].
  - cbn [digits_val length] in V. cbn [forallb] in Ds.
    apply andb_true_iff in Ds. destruct Ds as [Dc _].
    assert (Z0 : is_zero_char c = true).
    { apply (digit_val_zero_iff c Dc). change (10 ^ Z.of_nat 0) with 1 in V. lia. }
    unfold is_zero_char in Z0. apply Ascii.eqb_eq in Z0. now subst c.
  - cbn [no_leading_zero] in Nl. apply negb_true_iff in Nl.
    cbn [forallb] in Ds. apply andb_true_iff in Ds. destruct Ds as [Dc Dr].
    pose proof (digits_val_lower c (c' :: r) Dc Nl Dr).
    pose proof (pow10_pos (length (c' :: r))). lia.
Qed.

Lemma no_trailing_zero_val_zero s :
  forallb isdigit s = true -> no_trailing_zero s = true ->
  digits_val s = 0 -> s = [].
Proof.
  intros Ds Nt V. unfold no_trailing_zero in Nt.
  rewrite <- (rev_involutive s) in Ds, V |- *.
  destruct (rev s) as [| c r]; [reflexivity | exfalso].
  cbn [rev] in Ds, V. rewrite forallb_app in Ds.
  apply andb_true_iff in Ds. destruct Ds as [Dr Dc].
  cbn [forallb] in Dc. rewrite andb_true_r in Dc.
  rewrite digits_val_app in V. cbn [digits_val length] in V.
  apply negb_true_iff in Nt.
  assert (digit_val c <> 0).
  { intros E. apply (digit_val_zero_iff c Dc) in E. congruence. }
  pose proof (isdigit_val c Dc). pose proof (digits_val_bounds _ Dr).
  change (10 ^ Z.of_nat 0) with 1 in V. change (10 ^ Z.of_nat 1) with 10 in V. lia.
Qed.

Lemma normalized_mag_zero k v :
  normalized v = true -> mag_at k v = 0 -> v = zero.
Proof.
  intros N M. destruct (normalized_inv v N) as [Sv [Iv [Ev [Lv [Fv [Tv Zv]]]]]].
  pose proof (digits_val_bounds _ Iv). pose proof (digits_val_bounds _ Fv).
  pose proof (pow10_pos k). pose proof (pow10_pos (k - length (fracPart v))).
  unfold mag_at in M.
  assert (Vi : digits_val (intPart v) = 0) by nia.
  assert (Vf : digits_val (fracPart v) = 0) by nia.
  apply no_leading_zero_val_zero in Vi; try assumption.
  apply no_trailing_zero_val_zero in Vf; try assumption.
  assert (Z0 : isZero v = true) by (apply isZero_iff; auto).
  specialize (Zv Z0). destruct v as [s i f]. cbn in *. now subst.
Qed.

Lemma drop_zeros_repeat k r : drop_zeros (repeat "0"%char k ++ r) = drop_zeros r.
Proof. induction k as [| k IH]; [reflexivity |]. cbn. exact IH. Qed.

Lemma trim_trailing_zeros_pad s k :
  trim_trailing_zeros (pad_right s k) = trim_trailing_zeros s.
Proof.
  unfold trim_trailing_zeros, pad_right.
  now rewrite rev_app_distr, rev_repeat_zero, drop_zeros_repeat.
Qed.

Lemma cmp_abs_zero a b :
  cmp_abs a b = 0 ->
  intPart a = intPart b
  /\ pad_right (fracPart a)
       (Nat.max (length (fracPart a)) (length (fracPart b)) - length (fracPart a))
     = pad_right (fracPart b)
         (Nat.max (length (fracPart a)) (length (fracPart b)) - length (fracPart b)).
Proof.
  unfold cmp_abs, align_frac. cbn [intPart fracPart].
  destruct (length (intPart a) =? length (intPart b))%nat; cbn [negb];
    [| destruct (_ <? _)%nat; discriminate].
  destruct (str_eqb (intPart a) (intPart b)) eqn:Ei; cbn [negb];
    [| destruct (str_ltb _ _); discriminate].
  destruct (str_eqb (pad_right _ _) (pad_right _ _)) eqn:Ef; cbn [negb];
    [| destruct (str_ltb _ _); discriminate].
  intros _. apply str_eqb_eq in Ei, Ef. auto.
Qed.

Lemma value_injective v w :
  normalized v = true -> normalized w = true ->
  (value v == value w)%Q -> v = w.
Proof.
  intros Nv Nw E.
  destruct (normalized_inv v Nv) as [Sv [Iv [Ev [Lv [Fv [Tv Zv]]]]]].
  destruct (normalized_inv w Nw) as [Sw [Iw [Ew [Lw [Fw [Tw Zw]]]]]].
  set (L := Nat.max (length (fracPart v)) (length (fracPart w))).
  rewrite (value_at L v), (value_at L w) in E by (unfold L; lia).
  unfold Qeq in E. cbn [Qnum Qden] in E.
  assert (E' : sval_at L v = sval_at L w).
  { pose proof (pow10_Z L). pose proof (pow10_pos L). nia. }
  clear E. unfold sval_at in E'.
  pose proof (mag_at_nonneg L v Iv Fv) as Pv.
  pose proof (mag_at_nonneg L w Iw Fw) as Pw.
  assert (M : mag_at L v = mag_at L w)
    by (destruct Sv as [S1 | S1], Sw as [S2 | S2]; rewrite S1, S2 in E'; lia).
  assert (Z0 : mag_at L v = 0 \/ 0 < mag_at L v) by lia.
  destruct Z0 as [Z0 | Pos].
  - rewrite (normalized_mag_zero L v Nv Z0).
    rewrite Z0 in M. symmetry in M. now rewrite (normalized_mag_zero L w Nw M).
  - assert (Es : sign v = sign w)
      by (destruct Sv as [S1 | S1], Sw as [S2 | S2]; rewrite S1, S2 in E' |- *; lia).
    pose proof (cmp_abs_spec v w Iv Ev Lv Fv Iw Ew Lw Fw) as C. fold L in C.
    rewrite M, Z.compare_refl in C. cbn in C.
    apply cmp_abs_zero in C. destruct C as [Ei Ef].
    apply (f_equal trim_trailing_zeros) in Ef.
    rewrite !trim_trailing_zeros_pad in Ef.
    rewrite (trim_trailing_zeros_id _ Tv), (trim_trailing_zeros_id _ Tw) in Ef.
    destruct v, w. cbn in *. congruence.
Qed.

(** ** Formatted values are valid literals *)

Lemma to_string_valid v : normalized v = true -> valid_literal (to_string v).
Proof.
  intros N. destruct (normalized_inv v N) as [Sv [Iv [Ev [Lv [Fv [Tv Zv]]]]]].
  destruct (isZero v) eqn:Z0.
  - unfold to_string. rewrite Z0.
    apply (valid_integer [] (lit "0")); [left; reflexivity |].
    now apply is_all_digits_digits1.
  - rewrite (to_string_nonzero v Z0).
    assert (Hs : opt_sign (if sign v <? 0 then lit "-" else [])).
    { destruct (sign v <? 0); unfold opt_sign; auto. }
    assert (Hd : digits1 (intPart v)).
    { apply is_all_digits_digits1. unfold is_all_digits. now rewrite Iv, Ev. }
    destruct (fracPart v) as [| f fs] eqn:Ef; cbn [empty negb].
    + rewrite app_nil_r. now apply valid_integer.
    + apply valid_fraction; try assumption.
      apply is_all_digits_digits1. unfold is_all_digits. now rewrite Fv.
Qed.

(** ** The comparator as the specification words it *)

Lemma code_injective x y : code x = code y -> x = y.
Proof.
  unfold code. intros H. assert (N_of_ascii x = N_of_ascii y) by lia.
  rewrite <- (ascii_N_embedding x), <- (ascii_N_embedding y). congruence.
Qed.

Lemma lex_compare_str s : forall t,
  lex_compare s t =
  if str_eqb s t then EQUAL else if str_ltb s t then LESS else GREATER.
Proof.
  induction s as [| x s IH]; intros [| y t]; try reflexivity.
  cbn [lex_compare str_eqb str_ltb].
  destruct (Z.compare_spec (code x) (code y)) as [E | Lt | Gt].
  - apply code_injective in E. subst y. rewrite Ascii.eqb_refl, Z.ltb_irrefl.
    cbn [andb]. apply IH.
  - assert (Ne : Ascii.eqb x y = false).
    { apply Ascii.eqb_neq. intros ->. lia. }
    rewrite Ne. cbn [andb]. destruct (Z.ltb_spec (code x) (code y)); [reflexivity | lia].
  - assert (Ne : Ascii.eqb x y = false).
    { apply Ascii.eqb_neq. intros ->. lia. }
    rewrite Ne. cbn [andb]. destruct (Z.ltb_spec (code x) (code y)); [lia |].
    destruct (Z.ltb_spec (code y) (code x)); [reflexivity | lia].
Qed.

Lemma cmp_abs_refines a b : cmp_abs a b = int_of_ordering (compareAbs_spec a b).
Proof.
  unfold cmp_abs, compareAbs_spec, align_frac, pad_right. cbn [intPart fracPart].
  destruct (Nat.compare_spec (length (intPart a)) (length (intPart b))) as [E | Lt | Gt].
  - rewrite E, Nat.eqb_refl. cbn [negb]. rewrite !lex_compare_str.
    destruct (str_eqb (intPart a) (intPart b)); cbn [negb].
    + destruct (str_eqb _ _); cbn [negb]; [reflexivity |].
      destruct (str_ltb _ _); reflexivity.
    + destruct (str_ltb _ _); reflexivity.
  - destruct (Nat.eqb_spec (length (intPart a)) (length (intPart b))); [lia |].
    cbn [negb]. destruct (Nat.ltb_spec (length (intPart a)) (length (intPart b)));
      [reflexivity | lia].
  - destruct (Nat.eqb_spec (length (intPart a)) (length (intPart b))); [lia |].
    cbn [negb]. destruct (Nat.ltb_spec (length (intPart a)) (length (intPart b)));
      [lia | reflexivity].
Qed.

Lemma cmp_abs_numeric a b :
  normalized a = true -> normalized b = true ->
  cmp_abs a b = int_of_comparison (magnitude a ?= magnitude b)%Q.
Proof.
  intros Na Nb.
  destruct (normalized_inv a Na) as [Sa [Ia [Ea [La [Fa [Ta Za]]]]]].
  destruct (normalized_inv b Nb) as [Sb [Ib [Eb [Lb [Fb [Tb Zb]]]]]].
  rewrite (cmp_abs_spec a b Ia Ea La Fa Ib Eb Lb Fb).
  set (L := Nat.max (length (fracPart a)) (length (fracPart b))).
  rewrite (magnitude_at L a), (magnitude_at L b) by (unfold L; lia).
  now rewrite Qmake_compare.
Qed.

(** ** Exactness of the signed adder in rational terms *)

Lemma add_signed_value a b :
  normalized a = true -> normalized b = true ->
  in_int_range a = true -> in_int_range b = true ->
  (value (add_signed a b) == value a + value b)%Q.
Proof.
  intros Na Nb Ra Rb. destruct (add_signed_sound a b Na Nb Ra Rb) as [_ [Lf V]].
  set (L := Nat.max (length (fracPart a)) (length (fracPart b))) in *.
  rewrite (value_at L (add_signed a b) Lf).
  rewrite (value_at L a), (value_at L b) by (unfold L; lia).
  now rewrite Qmake_plus, V.
Qed.

Lemma valid_normalized x :
  is_valid_double_literal x = true -> normalized (parse_normalize x) = true.
Proof. intros H. apply parse_normalize_normalized. now apply is_valid_iff_grammar. Qed.

Lemma to_string_value v :
  normalized v = true -> (literal_value (to_string v) == value v)%Q.
Proof.
  intros N. rewrite <- (parse_value (to_string v) (to_string_valid v N)).
  now rewrite (parse_to_string v N).
Qed.

Lemma parse_integer a :
  is_all_digits a = true -> no_leading_zero a = true ->
  parse_normalize a = mkBigDecimal 1 a [].
Proof.
  intros Da Na. apply is_all_digits_digits1 in Da.
  change a with ([] ++ a) at 1.
  rewrite parse_normalize_signed;
    [| left; reflexivity | now apply digits1_head].
  rewrite parse_parts_integer by assumption.
  rewrite (trim_leading_zeros_id _ Na). cbn [sign_of].
  now destruct (str_eqb a (lit "0")).
Qed.

(** The sum of two [n]-digit numbers is written with [n] or [n + 1]
    digits. *)
Lemma integer_sum_digits a b :
  is_all_digits a = true -> is_all_digits b = true ->
  no_leading_zero a = true -> no_leading_zero b = true ->
  length a = length b -> Z.of_nat (length a) <= int_max ->
  let r := to_string (add_signed (parse_normalize a) (parse_normalize b)) in
  is_all_digits r = true
  /\ (length r = length a \/ length r = S (length a))
  /\ digits_val r = digits_val a + digits_val b.
Proof.
  intros Da Db Na Nb Hlen Hmax.
  assert (NA : normalized (parse_normalize a) = true).
  { apply parse_normalize_normalized.
    apply (valid_integer [] a); [left; reflexivity | now apply is_all_digits_digits1]. }
  assert (NB : normalized (parse_normalize b) = true).
  { apply parse_normalize_normalized.
    apply (valid_integer [] b); [left; reflexivity | now apply is_all_digits_digits1]. }
  rewrite (parse_integer a Da Na), (parse_integer b Db Nb) in *.
  assert (RA : in_int_range (mkBigDecimal 1 a []) = true).
  { unfold in_int_range. cbn [intPart fracPart length]. apply andb_true_iff.
    split; apply Z.leb_le; [assumption | unfold int_max; lia]. }
  assert (RB : in_int_range (mkBigDecimal 1 b []) = true).
  { unfold in_int_range. cbn [intPart fracPart length]. apply andb_true_iff.
    split; apply Z.leb_le; [lia | unfold int_max; lia]. }
  destruct (add_signed_sound _ _ NA NB RA RB) as [NS [Lf V]].
  set (s := add_signed _ _) in *. cbn [fracPart length Nat.max] in Lf, V.
  destruct (normalized_inv s NS) as [Ss [Is [Es [Ls [Fs [Ts Zs]]]]]].
  assert (Ef : fracPart s = []) by (destruct (fracPart s); [reflexivity | cbn in Lf; lia]).
  unfold sval_at, mag_at in V. cbn [sign intPart fracPart length digits_val] in V.
  rewrite Ef in V. cbn [digits_val length] in V.
  change (10 ^ Z.of_nat (0 - 0)) with 1 in V. change (10 ^ Z.of_nat 0) with 1 in V.
  unfold is_all_digits in Da, Db. apply andb_true_iff in Da, Db.
  destruct Da as [Da Ea], Db as [Db Eb]. apply negb_true_iff in Ea, Eb.
  pose proof (digits_val_bounds a Da) as Ba. pose proof (digits_val_bounds b Db) as Bb.
  pose proof (digits_val_bounds _ Is) as Bs.
  assert (Vs : digits_val (intPart s) = digits_val a + digits_val b)
    by (destruct Ss as [S1 | S1]; rewrite S1 in V; lia).
  assert (Er : to_string s = intPart s).
  { destruct (isZero s) eqn:Z0.
    - unfold to_string. rewrite Z0. apply isZero_iff in Z0. symmetry. apply Z0.
    - rewrite (to_string_nonzero s Z0), Ef. cbn [empty negb]. rewrite app_nil_r.
      assert (sign s = 1) as ->; [| reflexivity].
      destruct Ss as [S1 | S1]; [assumption | exfalso].
      rewrite S1 in V. assert (V0 : digits_val (intPart s) = 0) by lia.
      apply no_leading_zero_val_zero in V0; try assumption.
      unfold isZero in Z0. rewrite V0, Ef in Z0. discriminate Z0. }
  cbv zeta. rewrite Er. split; [unfold is_all_digits; now rewrite Is, Es |].
  split; [| assumption].
  assert (Lo : forall t, forallb isdigit t = true -> no_leading_zero t = true ->
                 (2 <= length t)%nat -> 10 ^ Z.of_nat (length t - 1) <= digits_val t).
  { intros [| c [| c' t]] Dt Nt Ht; cbn [length] in Ht; try lia.
    cbn [no_leading_zero] in Nt. apply negb_true_iff in Nt.
    cbn [forallb] in Dt. apply andb_true_iff in Dt. destruct Dt as [Dc Dt].
    pose proof (digits_val_lower c (c' :: t) Dc Nt Dt) as H.
    replace (length (c :: c' :: t) - 1)%nat with (length (c' :: t)) by (cbn [length]; lia).
    exact H. }
  rewrite <- Hlen in Bb.
  set (n := length a) in *. set (m := length (intPart s)) in *.
  assert (1 <= n)%nat by (unfold n; destruct a; [discriminate Ea | cbn [length]; lia]).
  assert (1 <= m)%nat by (unfold m; destruct (intPart s); [discriminate Es | cbn [length]; lia]).
  assert (Hm1 : (n <= m)%nat).
  { destruct (Nat.le_gt_cases n m) as [Le | Gt]; [assumption | exfalso].
    assert (2 <= n)%nat by lia.
    pose proof (Lo a Da Na ltac:(fold n; lia)) as LA. fold n in LA.
    assert (10 ^ Z.of_nat m <= 10 ^ Z.of_nat (n - 1)) by (apply Z.pow_le_mono_r; lia).
    lia. }
  assert (Hm2 : (m <= S n)%nat).
  { destruct (Nat.le_gt_cases m (S n)) as [Le | Gt]; [assumption | exfalso].
    pose proof (Lo _ Is Ls ltac:(fold m; lia)) as LS. fold m in LS.
    assert (10 ^ Z.of_nat (S n) <= 10 ^ Z.of_nat (m - 1)) by (apply Z.pow_le_mono_r; lia).
    rewrite pow10_S in *. lia. }
  lia.
Qed.

(** ** Results of the adder whatever the sizes *)

Lemma trim_trailing_zeros_nul p : trim_trailing_zeros (p ++ [nul]) = p ++ [nul].
Proof.
  apply trim_trailing_zeros_id. unfold no_trailing_zero.
  now rewrite rev_app_distr.
Qed.

Lemma fill_tail (r : str) fill m :
  r ++ repeat fill (S m) = (r ++ repeat fill m) ++ [fill].
Proof. now rewrite <- app_assoc, <- repeat_cons. Qed.

Lemma fraction_shape r m :
  forallb isdigit r = true ->
  (forallb isdigit (trim_trailing_zeros (r ++ repeat nul m)) = true
   /\ no_trailing_zero (trim_trailing_zeros (r ++ repeat nul m)) = true)
  \/ exists p, trim_trailing_zeros (r ++ repeat nul m) = p ++ [nul].
Proof.
  intros Dr. destruct m as [| m].
  - left. cbn [repeat]. rewrite app_nil_r.
    split; [now apply trim_trailing_zeros_digits | apply trim_trailing_zeros_normal].
  - right. exists (r ++ repeat nul m). now rewrite fill_tail, trim_trailing_zeros_nul.
Qed.

Lemma integer_shape (r : str) m :
  forallb isdigit r = true ->
  forallb isdigit (r ++ repeat "0"%char m) = true.
Proof. intros Dr. now rewrite forallb_app, Dr, forallb_repeat_zero. Qed.

Section Shapes.

Variables a b : BigDecimal.
Hypothesis Hia : forallb isdigit (intPart a) = true.
Hypothesis Hna : empty (intPart a) = false.
Hypothesis Hfa : forallb isdigit (fracPart a) = true.
Hypothesis Hib : forallb isdigit (intPart b) = true.
Hypothesis Hfb : forallb isdigit (fracPart b) = true.

Lemma add_abs_shape :
  sign (add_abs a b) = 1
  /\ forallb isdigit (intPart (add_abs a b)) = true
  /\ empty (intPart (add_abs a b)) = false
  /\ no_leading_zero (intPart (add_abs a b)) = true
  /\ ((forallb isdigit (fracPart (add_abs a b)) = true
       /\ no_trailing_zero (fracPart (add_abs a b)) = true)
      \/ exists p, fracPart (add_abs a b) = p ++ [nul]).
Proof.
  destruct (aligned_lengths a b) as [La Lb].
  destruct (aligned_digits a b Hfa Hfb) as [Da Db].
  unfold add_abs, align_frac. cbn [fracPart intPart].
  set (L := Nat.max (length (fracPart a)) (length (fracPart b))) in *.
  set (fa := pad_right (fracPart a) (L - length (fracPart a))) in *.
  set (fb := pad_right (fracPart b) (L - length (fracPart b))) in *.
  destruct (add_digits_shape nul fa fb 0) as [r [Er [Dr [_ Cr]]]];
    [congruence | assumption | assumption | lia |].
  destruct (add_digits nul fa fb 0) as [rf cf]. cbn [fst snd] in Er, Cr. subst rf.
  set (a' := mkBigDecimal (sign a) (intPart a) fa).
  set (b' := mkBigDecimal (sign b) (intPart b) fb).
  destruct (pad_ints_spec a' b') as [LA [LB [_ [_ [DA DB]]]]].
  cbn [intPart a' b'] in LA, LB, DA, DB.
  destruct (pad_ints a' b') as [A B]. cbn [fst snd] in LA, LB, DA, DB.
  destruct (add_digits_shape "0"%char A B cf) as [r2 [Es [Ds [Ls Cs]]]];
    [congruence | auto | auto | lia |].
  destruct (add_digits "0"%char A B cf) as [s c]. cbn [fst snd] in Es, Cs. subst s.
  cbn [sign intPart fracPart].
  set (s := r2 ++ repeat "0"%char (length A - loop_count (length A))).
  assert (Dsum : forallb isdigit s = true) by now apply integer_shape.
  assert (Nsum : empty s = false).
  { assert (Len : length s = length A).
    { unfold s. rewrite length_app, repeat_length, Ls.
      pose proof (loop_count_le (length A)). lia. }
    destruct s; [| reflexivity]. cbn [length] in Len.
    destruct (intPart a); [discriminate Hna |]. cbn [length] in LA. lia. }
  set (s' := if negb (c =? 0) then char_of_int (48 + c) :: s else s).
  assert (Hs' : forallb isdigit s' = true /\ empty s' = false).
  { unfold s'. destruct (Z.eqb_spec c 0) as [E | N]; cbn [negb]; [auto |].
    assert (c = 1) by lia. subst c. cbn [forallb]. now rewrite Dsum. }
  destruct Hs' as [Ds' Ns'].
  split; [reflexivity |].
  split; [now apply trim_leading_zeros_digits |].
  split; [now apply trim_leading_zeros_nonempty |].
  split; [apply trim_leading_zeros_normal |].
  now apply fraction_shape.
Qed.

Lemma sub_abs_shape :
  sign (sub_abs a b) = 1
  /\ forallb isdigit (intPart (sub_abs a b)) = true
  /\ empty (intPart (sub_abs a b)) = false
  /\ no_leading_zero (intPart (sub_abs a b)) = true
  /\ ((forallb isdigit (fracPart (sub_abs a b)) = true
       /\ no_trailing_zero (fracPart (sub_abs a b)) = true)
      \/ exists p, fracPart (sub_abs a b) = p ++ [nul]).
Proof.
  destruct (aligned_lengths a b) as [La Lb].
  destruct (aligned_digits a b Hfa Hfb) as [Da Db].
  unfold sub_abs, align_frac. cbn [fracPart intPart].
  set (L := Nat.max (length (fracPart a)) (length (fracPart b))) in *.
  set (fa := pad_right (fracPart a) (L - length (fracPart a))) in *.
  set (fb := pad_right (fracPart b) (L - length (fracPart b))) in *.
  destruct (sub_digits_shape nul fa fb 0) as [r [Er [Dr [_ Cr]]]];
    [congruence | assumption | assumption | lia |].
  destruct (sub_digits nul fa fb 0) as [rf cf]. cbn [fst snd] in Er, Cr. subst rf.
  set (a' := mkBigDecimal (sign a) (intPart a) fa).
  set (b' := mkBigDecimal (sign b) (intPart b) fb).
  destruct (pad_ints_spec a' b') as [LA [LB [_ [_ [DA DB]]]]].
  cbn [intPart a' b'] in LA, LB, DA, DB.
  destruct (pad_ints a' b') as [A B]. cbn [fst snd] in LA, LB, DA, DB.
  destruct (sub_digits_shape "0"%char A B cf) as [r2 [Es [Ds [Ls Cs]]]];
    [congruence | auto | auto | lia |].
  destruct (sub_digits "0"%char A B cf) as [s c]. cbn [fst snd] in Es, Cs. subst s.
  set (s := r2 ++ repeat "0"%char (length A - loop_count (length A))).
  assert (Dsum : forallb isdigit s = true) by now apply integer_shape.
  assert (Nsum : empty s = false).
  { assert (Len : length s = length A).
    { unfold s. rewrite length_app, repeat_length, Ls.
      pose proof (loop_count_le (length A)). lia. }
    destruct s; [| reflexivity]. cbn [length] in Len.
    destruct (intPart a); [discriminate Hna |]. cbn [length] in LA. lia. }
  pose proof (fraction_shape r (length fa - loop_count (length fa)) Dr) as Fs.
  set (rf := trim_trailing_zeros (r ++ repeat nul (length fa - loop_count (length fa)))) in *.
  destruct (str_eqb (trim_leading_zeros s) (lit "0") && empty rf) eqn:Z0;
    cbn [sign intPart fracPart].
  - apply andb_true_iff in Z0. destruct Z0 as [Z1 _]. apply str_eqb_eq in Z1.
    rewrite <- Z1.
    split; [reflexivity |].
    split; [now apply trim_leading_zeros_digits |].
    split; [now apply trim_leading_zeros_nonempty |].
    split; [apply trim_leading_zeros_normal | assumption].
  - split; [reflexivity |].
    split; [now apply trim_leading_zeros_digits |].
    split; [now apply trim_leading_zeros_nonempty |].
    split; [apply trim_leading_zeros_normal | assumption].
Qed.

End Shapes.

(** The sum of normalized operands is normalized, or else its fractional
    part ends in a character that [resize] left there. *)
Lemma add_signed_shape a b :
  normalized a = true -> normalized b = true ->
  normalized (add_signed a b) = true
  \/ (exists p, fracPart (add_signed a b) = p ++ [nul])
     /\ forallb isdigit (intPart (add_signed a b)) = true
     /\ empty (intPart (add_signed a b)) = false
     /\ (sign (add_signed a b) = 1 \/ sign (add_signed a b) = -1).
Proof.
  intros Na Nb.
  destruct (normalized_inv a Na) as [Sa [Ia [Ea [La [Fa [Ta Za]]]]]].
  destruct (normalized_inv b Nb) as [Sb [Ib [Eb [Lb [Fb [Tb Zb]]]]]].
  assert (W : forall sg r,
             sg = 1 \/ sg = -1 ->
             forallb isdigit (intPart r) = true /\ empty (intPart r) = false
             /\ no_leading_zero (intPart r) = true
             /\ ((forallb isdigit (fracPart r) = true
                  /\ no_trailing_zero (fracPart r) = true)
                 \/ exists p, fracPart r = p ++ [nul]) ->
             normalized (with_sign sg r) = true
             \/ (exists p, fracPart (with_sign sg r) = p ++ [nul])
                /\ forallb isdigit (intPart (with_sign sg r)) = true
                /\ empty (intPart (with_sign sg r)) = false
                /\ (sign (with_sign sg r) = 1 \/ sign (with_sign sg r) = -1)).
  { intros sg r Hs [Di [Ei [Li [[Df Tf] | Fn]]]].
    - left. now apply with_sign_normalized.
    - right. destruct (with_sign_parts sg r) as [-> [-> ->]].
      repeat split; try assumption. destruct (isZero r); auto. }
  unfold add_signed.
  destruct (isZero a); [now left |].
  destruct (isZero b); [now left |].
  destruct (sign a =? sign b).
  - apply W; [assumption |].
    destruct (add_abs_shape a b Ia Ea Fa Ib Fb) as [_ H]. exact H.
  - destruct (cmp_abs a b =? 0); [now left |].
    destruct (cmp_abs a b >? 0).
    + apply W; [assumption |].
      destruct (sub_abs_shape a b Ia Ea Fa Ib Fb) as [_ H]. exact H.
    + apply W; [assumption |].
      destruct (sub_abs_shape b a Ib Eb Fb Ia Fa) as [_ H]. exact H.
Qed.

Lemma nul_tail_nonzero ip p : digits_val (ip ++ p ++ [nul]) <> 0.
Proof.
  rewrite app_assoc, digits_val_app. cbn [digits_val length].
  change (digit_val nul) with (-48). change (10 ^ Z.of_nat 0) with 1.
  change (10 ^ Z.of_nat 1) with 10. lia.
Qed.

(** ** Operands longer than [INT_MAX] *)

(** The conversion of the size 2^31 + 1 to [int] is negative, so a loop over
    a string of that size visits no position. *)
Lemma loop_count_long : loop_count (Z.to_nat 2147483649) = 0%nat.
Proof.
  unfold loop_count, int_of_size. rewrite Z2Nat.id by lia. reflexivity.
Qed.

Lemma forallb_repeat_digit c n :
  isdigit c = true -> forallb isdigit (repeat c n) = true.
Proof. intros H. induction n; cbn [repeat forallb]; [reflexivity | now rewrite H]. Qed.

Lemma rev_repeat (c : ascii) n : rev (repeat c n) = repeat c n.
Proof.
  induction n as [| n IH]; [reflexivity |].
  cbn [repeat rev]. rewrite IH. symmetry. apply repeat_cons.
Qed.

Lemma trim_leading_zeros_zeros n :
  (1 <= n)%nat -> trim_leading_zeros (repeat "0"%char n) = lit "0".
Proof.
  intros H. replace n with ((n - 1) + 1)%nat by lia. rewrite repeat_app.
  apply trim_leading_zeros_unique; [discriminate | reflexivity].
Qed.

Lemma ones_digits n :
  (1 <= n)%nat ->
  is_all_digits (repeat "1"%char n) = true
  /\ no_leading_zero (repeat "1"%char n) = true
  /\ no_trailing_zero (repeat "1"%char n) = true
  /\ str_eqb (repeat "1"%char n) (lit "0") = false.
Proof.
  intros H. unfold is_all_digits, no_trailing_zero.
  rewrite (forallb_repeat_digit "1"%char n eq_refl), rev_repeat.
  destruct n as [| [| m]]; [lia | |]; repeat split; reflexivity.
Qed.

Lemma pad_ints_long n sa sb fa fb :
  (2 <= n)%nat ->
  pad_ints (mkBigDecimal sa (repeat "1"%char n) fa) (mkBigDecimal sb (lit "1") fb)
  = (repeat "1"%char n, pad_left (lit "1") (n - 1)).
Proof.
  intros H. unfold pad_ints. cbn [intPart]. cbv zeta.
  change (length (lit "1")) with 1%nat. rewrite repeat_length.
  destruct (Nat.ltb_spec n 1); [lia |]. rewrite repeat_length.
  destruct (Nat.ltb_spec 1 n); [reflexivity | lia].
Qed.

(** With an integer part of 2^31 + 1 ones, the integer loops of [add_abs]
    and [sub_abs] are skipped and the result keeps its initial zeros. *)
Lemma add_abs_long_integer n :
  (2 <= n)%nat -> loop_count n = 0%nat ->
  add_abs (mkBigDecimal 1 (repeat "1"%char n) []) (mkBigDecimal 1 (lit "1") [])
  = mkBigDecimal 1 (lit "0") [].
Proof.
  intros H K. unfold add_abs, align_frac.
  cbn [fracPart intPart sign length Nat.max Nat.sub].
  change (pad_right [] 0) with (@nil ascii).
  change (add_digits nul [] [] 0) with (@nil ascii, 0). cbv iota beta.
  rewrite (pad_ints_long n 1 1 [] [] H).
  unfold add_digits. rewrite repeat_length, K. cbn [firstn].
  change (add_run [] [] 0) with (@nil ascii, 0). cbv iota beta. cbn [app negb Z.eqb].
  rewrite Nat.sub_0_r, trim_leading_zeros_zeros by lia. reflexivity.
Qed.

Lemma sub_abs_long_integer n :
  (2 <= n)%nat -> loop_count n = 0%nat ->
  sub_abs (mkBigDecimal 1 (repeat "1"%char n) []) (mkBigDecimal 1 (lit "1") [])
  = mkBigDecimal 1 (lit "0") [].
Proof.
  intros H K. unfold sub_abs, align_frac.
  cbn [fracPart intPart sign length Nat.max Nat.sub].
  change (pad_right [] 0) with (@nil ascii).
  change (sub_digits nul [] [] 0) with (@nil ascii, 0). cbv iota beta.
  rewrite (pad_ints_long n 1 1 [] [] H).
  unfold sub_digits. rewrite repeat_length, K. cbn [firstn].
  change (sub_run [] [] 0) with (@nil ascii, 0). cbv iota beta. cbn [app].
  rewrite Nat.sub_0_r, trim_leading_zeros_zeros by lia. reflexivity.
Qed.

Lemma ones_value n : (2 <= n)%nat -> 10 <= digits_val (repeat "1"%char n).
Proof.
  intros H. destruct n as [| [| m]]; try lia.
  pose proof (digits_val_lower "1"%char (repeat "1"%char (S m)) eq_refl eq_refl
                (forallb_repeat_digit "1"%char (S m) eq_refl)) as Lo.
  rewrite repeat_length in Lo.
  change (repeat "1"%char (S (S m))) with ("1"%char :: repeat "1"%char (S m)).
  assert (10 ^ 1 <= 10 ^ Z.of_nat (S m)) by (apply Z.pow_le_mono_r; lia).
  change (10 ^ 1) with 10 in *. lia.
Qed.

Lemma long_integer_sum n :
  (2 <= n)%nat -> loop_count n = 0%nat ->
  let x := repeat "1"%char n in
  is_valid_double_literal x = true
  /\ to_string (add_signed (parse_normalize x) (parse_normalize (lit "1"))) = lit "0"
  /\ ~ (literal_value (lit "0") == literal_value x + literal_value (lit "1"))%Q.
Proof.
  intros H K x. destruct (ones_digits n ltac:(lia)) as [Dx [Lx [_ Zx]]]. fold x in Dx, Lx, Zx.
  assert (Gx : valid_literal x).
  { apply (valid_integer [] x); [left; reflexivity | now apply is_all_digits_digits1]. }
  split; [now apply is_valid_iff_grammar |]. split.
  - rewrite (parse_integer x Dx Lx).
    change (parse_normalize (lit "1")) with (mkBigDecimal 1 (lit "1") []).
    unfold add_signed, isZero at 1. cbn [intPart fracPart sign]. rewrite Zx. cbn [andb].
    change (isZero (mkBigDecimal 1 (lit "1") [])) with false. cbn [Z.eqb Pos.eqb].
    unfold x. rewrite (add_abs_long_integer n H K). reflexivity.
  - pose proof (parse_value x Gx) as V. rewrite (parse_integer x Dx Lx) in V.
    unfold value in V. cbn [sign intPart fracPart length] in V. rewrite app_nil_r in V.
    intros E. rewrite <- V in E.
    change (literal_value (lit "0")) with (0 # 1)%Q in E.
    change (literal_value (lit "1")) with (1 # 1)%Q in E.
    unfold Qeq, Qplus in E. cbn [Qnum Qden] in E. change (Z.pos (pow10 0)) with 1 in E.
    pose proof (ones_value n H). fold x in H0. lia.
Qed.

Lemma long_integer_difference n :
  (2 <= n)%nat -> loop_count n = 0%nat ->
  let a := mkBigDecimal 1 (repeat "1"%char n) [] in
  let b := mkBigDecimal 1 (lit "1") [] in
  normalized a = true /\ normalized b = true /\ cmp_abs a b = 1
  /\ sub_abs a b = zero
  /\ ~ (magnitude (sub_abs a b) == magnitude a - magnitude b)%Q.
Proof.
  intros H K a b. destruct (ones_digits n ltac:(lia)) as [Dx [Lx [_ Zx]]].
  apply is_all_digits_inv in Dx. destruct Dx as [Dx Ex].
  assert (E : sub_abs a b = zero) by (unfold a, b; now apply sub_abs_long_integer).
  split; [apply normalized_intro; cbn [a sign intPart fracPart]; auto; discriminate |].
  split; [reflexivity |]. split.
  - unfold cmp_abs, align_frac. cbn [a b intPart fracPart]. rewrite repeat_length.
    change (length (lit "1")) with 1%nat.
    destruct (Nat.eqb_spec n 1); [lia |]. cbn [negb].
    destruct (Nat.ltb_spec n 1); [lia | reflexivity].
  - split; [exact E |]. rewrite E. unfold magnitude, a, b, zero.
    cbn [intPart fracPart length]. rewrite !app_nil_r.
    unfold Qeq, Qminus, Qplus, Qopp. cbn [Qnum Qden].
    change (length (lit "")) with 0%nat. change (pow10 0) with 1%positive.
    change (digits_val (lit "0")) with 0. change (digits_val (lit "1")) with 1.
    pose proof (ones_value n H). lia.
Qed.

Lemma long_fraction_sum n :
  (1 <= n)%nat -> loop_count n = 0%nat ->
  let x := lit "1." ++ repeat "1"%char n in
  is_valid_double_literal x = true
  /\ add_signed (parse_normalize x) (parse_normalize (lit "1"))
     = mkBigDecimal 1 (lit "2") (repeat nul n)
  /\ ~ Invariants (add_signed (parse_normalize x) (parse_normalize (lit "1"))).
Proof.
  intros H K x. destruct (ones_digits n H) as [Dx [_ [Tx _]]].
  assert (D1 : digits1 (lit "1")) by now apply is_all_digits_digits1.
  assert (Gx : valid_literal x).
  { apply (valid_fraction [] (lit "1") (repeat "1"%char n));
      [left; reflexivity | assumption | now apply is_all_digits_digits1]. }
  assert (Px : parse_normalize x = mkBigDecimal 1 (lit "1") (repeat "1"%char n)).
  { unfold x. change (lit "1." ++ repeat "1"%char n)
      with ([] ++ lit "1" ++ lit "." ++ repeat "1"%char n).
    rewrite parse_normalize_signed; [| left; reflexivity | eexists _, _; split; reflexivity].
    rewrite parse_parts_fraction by assumption.
    rewrite (trim_trailing_zeros_id _ Tx).
    change (trim_leading_zeros (lit "1")) with (lit "1").
    change (str_eqb (lit "1") (lit "0")) with false. reflexivity. }
  assert (S : add_signed (parse_normalize x) (parse_normalize (lit "1"))
              = mkBigDecimal 1 (lit "2") (repeat nul n)).
  { rewrite Px. change (parse_normalize (lit "1")) with (mkBigDecimal 1 (lit "1") []).
    unfold add_signed, isZero. cbn [intPart fracPart sign].
    change (str_eqb (lit "1") (lit "0")) with false. cbn [andb Z.eqb Pos.eqb].
    unfold add_abs, align_frac. cbn [intPart fracPart sign length].
    rewrite repeat_length, Nat.max_0_r, Nat.sub_diag, Nat.sub_0_r.
    unfold pad_right at 1. cbn [repeat]. rewrite app_nil_r.
    unfold add_digits at 1. rewrite repeat_length, K. cbn [firstn].
    change (add_run [] [] 0) with (@nil ascii, 0). cbv iota beta.
    cbn [app]. rewrite ?Nat.sub_0_r.
    change (pad_ints _ _) with (lit "1", lit "1"). cbv iota beta.
    change (add_digits "0"%char (lit "1") (lit "1") 0) with (lit "2", 0). cbv iota beta.
    cbn [negb Z.eqb]. change (trim_leading_zeros (lit "2")) with (lit "2").
    assert (T : trim_trailing_zeros (repeat nul n) = repeat nul n).
    { apply trim_trailing_zeros_id. unfold no_trailing_zero. rewrite rev_repeat.
      destruct n; [lia | reflexivity]. }
    rewrite T. unfold with_sign, isZero. cbn [intPart fracPart sign].
    change (str_eqb (lit "2") (lit "0")) with false. reflexivity. }
  split; [now apply is_valid_iff_grammar |]. split; [exact S |].
  rewrite S. intros I. apply normalized_iff in I.
  destruct (normalized_inv _ I) as [_ [_ [_ [_ [F _]]]]]. cbn [fracPart] in F.
  destruct n; [lia |]. discriminate F.
Qed.

(** * The properties of the specification *)

(** C3. For every input string [x], the validator returns true if and only
    if [x] is an optional single ['+'] or ['-'], then one or more decimal
    digits, then optionally a single ['.'] and one or more decimal digits.
    The literals "1", "1.0", "+1.0", "+0001.0" and "-0001.005" are accepted;
    "A", "+-1", "-5.", "-.5", "-5.-5", the empty string, "+" and "1..2" are
    rejected. *)
Theorem is_valid_double_literal_grammar :
  (forall x, is_valid_double_literal x = true <-> valid_literal x)
  /\ is_valid_double_literal (lit "1") = true
  /\ is_valid_double_literal (lit "1.0") = true
  /\ is_valid_double_literal (lit "+1.0") = true
  /\ is_valid_double_literal (lit "+0001.0") = true
  /\ is_valid_double_literal (lit "-0001.005") = true
  /\ is_valid_double_literal (lit "A") = false
  /\ is_valid_double_literal (lit "+-1") = false
  /\ is_valid_double_literal (lit "-5.") = false
  /\ is_valid_double_literal (lit "-.5") = false
  /\ is_valid_double_literal (lit "-5.-5") = false
  /\ is_valid_double_literal (lit "") = false
  /\ is_valid_double_literal (lit "+") = false
  /\ is_valid_double_literal (lit "1..2") = false.
Proof.
  split; [exact is_valid_iff_grammar |].
  repeat split; reflexivity.
Qed.

(** C2, as the specification states it, fails: for the token pair "+0001.0"
    and "-0001.005" the formatted sum is not "-1.005". *)
Lemma end_to_end_sum_is_not_minus_1_005 :
  to_string (add_signed (parse_normalize (lit "+0001.0"))
               (parse_normalize (lit "-0001.005"))) <> lit "-1.005".
Proof. vm_compute. discriminate. Qed.

(** C2, amended. For the token pair "+0001.0" and "-0001.005", both tokens
    pass the validator, they normalize to 1 and -1.005, and the formatted
    sum is "-0.005", the exact value of 1 + (-1.005). *)
Theorem end_to_end_scenario :
  is_valid_double_literal (lit "+0001.0") = true
  /\ is_valid_double_literal (lit "-0001.005") = true
  /\ parse_normalize (lit "+0001.0") = mkBigDecimal 1 (lit "1") (lit "")
  /\ parse_normalize (lit "-0001.005") = mkBigDecimal (-1) (lit "1") (lit "005")
  /\ to_string (parse_normalize (lit "+0001.0")) = lit "1"
  /\ to_string (parse_normalize (lit "-0001.005")) = lit "-1.005"
  /\ to_string (add_signed (parse_normalize (lit "+0001.0"))
                  (parse_normalize (lit "-0001.005"))) = lit "-0.005".
Proof. repeat split; reflexivity. Qed.

(** C4. For all valid literals [x] and [y], adding the parsed values in
    either order gives the same value. *)
Theorem add_signed_commutative (x y : str) :
  is_valid_double_literal x = true -> is_valid_double_literal y = true ->
  add_signed (parse_normalize x) (parse_normalize y)
  = add_signed (parse_normalize y) (parse_normalize x).
Proof.
  intros Hx Hy. apply add_signed_comm; now apply valid_normalized.
Qed.

Lemma add_signed_commutative_witness :
  add_signed (parse_normalize (lit "12.75")) (parse_normalize (lit "-0003.8"))
  = add_signed (parse_normalize (lit "-0003.8")) (parse_normalize (lit "12.75")).
Proof.
  apply (add_signed_commutative (lit "12.75") (lit "-0003.8")); reflexivity.
Defined.

(** C5. For every valid literal [x], adding the parsed "0" to the parsed [x]
    gives the parsed [x]; and whenever one operand of [add_signed] is
    canonical zero, the other operand (any value of the data model, that is,
    any value that is not a negative zero) is returned unchanged. *)
Theorem add_signed_identity (x : str) (a b : BigDecimal) :
  (is_valid_double_literal x = true ->
   add_signed (parse_normalize x) (parse_normalize (lit "0")) = parse_normalize x)
  /\ add_signed zero b = b
  /\ (negative_zero a = false -> add_signed a zero = a)
  /\ (normalized a = true -> add_signed a zero = a).
Proof.
  assert (R : negative_zero a = false -> add_signed a zero = a).
  { unfold negative_zero, add_signed. intros H.
    destruct (isZero a) eqn:Z0; [| reflexivity].
    cbn [andb] in H. apply negb_false_iff in H. apply Z.eqb_eq in H.
    apply isZero_iff in Z0. destruct Z0 as [Ei Ef].
    destruct a as [s i f]. cbn in *. now subst. }
  assert (N : normalized a = true -> negative_zero a = false).
  { intros Na. destruct (normalized_inv a Na) as [_ [_ [_ [_ [_ [_ Za]]]]]].
    unfold negative_zero. destruct (isZero a); [| reflexivity].
    rewrite (Za eq_refl). reflexivity. }
  repeat split; auto.
  intros Hx. apply valid_normalized in Hx.
  destruct (normalized_inv _ Hx) as [_ [_ [_ [_ [_ [_ Zx]]]]]].
  change (parse_normalize (lit "0")) with zero.
  unfold add_signed. destruct (isZero (parse_normalize x)) eqn:Z0; [| reflexivity].
  specialize (Zx eq_refl). apply isZero_iff in Z0. destruct Z0 as [Ei Ef].
  destruct (parse_normalize x) as [s i f]. cbn in *. now subst.
Qed.

Lemma add_signed_identity_witness :
  add_signed (parse_normalize (lit "-0001.005")) (parse_normalize (lit "0"))
  = parse_normalize (lit "-0001.005")
  /\ add_signed (mkBigDecimal (-1) (lit "7") (lit "25")) zero
     = mkBigDecimal (-1) (lit "7") (lit "25").
Proof.
  pose proof (add_signed_identity (lit "-0001.005")
                (mkBigDecimal (-1) (lit "7") (lit "25")) zero) as [H1 [_ [H3 _]]].
  split; [apply H1 | apply H3]; reflexivity.
Defined.

(** C9, at an operand longer than [INT_MAX].  The literal "1." followed by
    2^31 + 1 ones and the literal "1" are valid and parse to normalized
    values, but [add_signed] returns a value that breaks the normalization
    invariants: the fractional loop of [add_abs] converts the size to [int],
    starts at a negative index and visits no position, so the fractional part
    of the result is the 2^31 + 1 NUL characters [resize] left there, which
    are no decimal digits. *)
Theorem add_signed_long_fraction :
  let x := lit "1." ++ repeat "1"%char (Z.to_nat 2147483649) in
  is_valid_double_literal x = true
  /\ add_signed (parse_normalize x) (parse_normalize (lit "1"))
     = mkBigDecimal 1 (lit "2") (repeat nul (Z.to_nat 2147483649))
  /\ ~ Invariants (add_signed (parse_normalize x) (parse_normalize (lit "1"))).
Proof.
  apply long_fraction_sum; [| exact loop_count_long].
  change 1%nat with (Z.to_nat 1). apply Z2Nat.inj_le; lia.
Qed.

(** C10. For every normalized value [v], parsing the formatted text gives
    [v] back; hence formatting is injective on normalized values, and
    formatting the parse of a valid literal is idempotent. *)
Theorem parse_to_string_inverse (v w : BigDecimal) (x : str) :
  normalized v = true ->
  parse_normalize (to_string v) = v
  /\ (normalized w = true -> to_string v = to_string w -> v = w)
  /\ (is_valid_double_literal x = true ->
      to_string (parse_normalize (to_string (parse_normalize x)))
      = to_string (parse_normalize x)).
Proof.
  intros Nv. split; [now apply parse_to_string |]. split.
  - intros Nw E. rewrite <- (parse_to_string v Nv), <- (parse_to_string w Nw).
    now rewrite E.
  - intros Hx. now rewrite (parse_to_string _ (valid_normalized x Hx)).
Qed.

Lemma parse_to_string_inverse_witness :
  parse_normalize (to_string (mkBigDecimal (-1) (lit "0") (lit "005")))
  = mkBigDecimal (-1) (lit "0") (lit "005")
  /\ to_string (parse_normalize (to_string (parse_normalize (lit "+0001.0"))))
     = to_string (parse_normalize (lit "+0001.0")).
Proof.
  destruct (parse_to_string_inverse (mkBigDecimal (-1) (lit "0") (lit "005")) zero
              (lit "+0001.0") eq_refl) as [H1 [_ H3]].
  split; [exact H1 | apply H3; reflexivity].
Defined.

(** C1, at an operand longer than [INT_MAX].  The literal made of 2^31 + 1
    ones and the literal "1" are valid, but the formatted sum of their parsed
    values is "0", which is not the sum of the two values: the integer loop
    of [add_abs] converts the size to [int], starts at a negative index and
    visits no position, so the result keeps the zeros it was created
    with. *)
Theorem add_signed_long_operand :
  let x := repeat "1"%char (Z.to_nat 2147483649) in
  is_valid_double_literal x = true
  /\ to_string (add_signed (parse_normalize x) (parse_normalize (lit "1"))) = lit "0"
  /\ ~ (literal_value (lit "0") == literal_value x + literal_value (lit "1"))%Q.
Proof.
  apply long_integer_sum; [| exact loop_count_long].
  change 2%nat with (Z.to_nat 2). apply Z2Nat.inj_le; lia.
Qed.

(** C6. For all normalized operands, a sum of zero magnitude is canonical
    zero and is formatted as "0"; no sum is formatted as "-0"; and the
    formatter emits no sign for zero: a normalized value of zero magnitude,
    and any value that [isZero] recognizes whatever its sign field holds, is
    formatted as "0". *)
Theorem add_signed_no_negative_zero (a b x : BigDecimal) :
  normalized a = true -> normalized b = true ->
  ((magnitude (add_signed a b) == 0)%Q ->
   add_signed a b = zero /\ to_string (add_signed a b) = lit "0")
  /\ to_string (add_signed a b) <> lit "-0"
  /\ (normalized x = true -> (magnitude x == 0)%Q -> to_string x = lit "0")
  /\ (isZero x = true -> to_string x = lit "0").
Proof.
  intros Na Nb.
  assert (Z : forall v, normalized v = true -> (magnitude v == 0)%Q -> v = zero).
  { intros v N M. unfold magnitude in M. apply Qmake_zero in M.
    apply (normalized_mag_zero (length (fracPart v))); [assumption |].
    rewrite mag_at_scale by lia. rewrite M. ring. }
  assert (T : (normalized x = true -> (magnitude x == 0)%Q -> to_string x = lit "0")
              /\ (isZero x = true -> to_string x = lit "0")).
  { split.
    - intros Nx M. now rewrite (Z _ Nx M).
    - intros Z0. unfold to_string. now rewrite Z0. }
  destruct (add_signed_shape a b Na Nb) as [Ns | [[p Ep] [Di [Ei Ss]]]].
  - split; [| split; [| exact T]].
    + intros M. now rewrite (Z _ Ns M).
    + intros E. pose proof (parse_to_string _ Ns) as P. rewrite E in P.
      change (parse_normalize (lit "-0")) with zero in P.
      rewrite <- P in E. discriminate E.
  - split; [| split; [| exact T]].
    + intros M. exfalso. unfold magnitude in M. apply Qmake_zero in M.
      rewrite Ep in M. exact (nul_tail_nonzero _ _ M).
    + assert (Z0 : isZero (add_signed a b) = false).
      { unfold isZero. rewrite Ep. destruct p; cbn [app empty]; apply andb_false_r. }
      rewrite (to_string_nonzero _ Z0). intros E.
      destruct (intPart (add_signed a b)) as [| d ds]; [discriminate Ei |].
      cbn [forallb] in Di. apply andb_true_iff in Di. destruct Di as [Dd _].
      destruct (digit_head_not_sign d Dd) as [_ [Nm _]].
      destruct Ss as [S1 | S1]; rewrite S1 in E.
      * change (1 <? 0) with false in E. cbv iota in E. cbn [app] in E.
        injection E as -> _. discriminate Nm.
      * change (-1 <? 0) with true in E. cbv iota in E.
        change (lit "-" ++ (d :: ds) ++ ?r) with ("-"%char :: d :: ds ++ r) in E.
        rewrite Ep in E. injection E as _ Etl. apply app_eq_nil in Etl.
        destruct Etl as [_ Etl]. destruct p; cbn [app empty negb] in Etl; discriminate Etl.
Qed.

Lemma add_signed_no_negative_zero_witness :
  add_signed (parse_normalize (lit "-2.50")) (parse_normalize (lit "+02.5")) = zero
  /\ to_string (add_signed (parse_normalize (lit "-2.50")) (parse_normalize (lit "+02.5")))
     = lit "0"
  /\ to_string (mkBigDecimal (-1) (lit "0") (lit "")) = lit "0".
Proof.
  destruct (add_signed_no_negative_zero (parse_normalize (lit "-2.50"))
              (parse_normalize (lit "+02.5")) (mkBigDecimal (-1) (lit "0") (lit ""))
              eq_refl eq_refl) as [H1 [_ [_ H3]]].
  destruct H1 as [E1 E2]; [reflexivity |].
  split; [exact E1 |]. split; [exact E2 | apply H3; reflexivity].
Defined.

(** C7, at an operand longer than [INT_MAX].  For the normalized values
    [a], whose integer part is 2^31 + 1 ones, and [b] = 1, [cmp_abs] decides
    [|a| > |b|], but [sub_abs a b] is canonical zero and not [|a| - |b|]: the
    integer loop of [sub_abs] converts the size to [int], starts at a
    negative index and visits no position. *)
Theorem sub_abs_long_operand :
  let a := mkBigDecimal 1 (repeat "1"%char (Z.to_nat 2147483649)) [] in
  let b := mkBigDecimal 1 (lit "1") [] in
  normalized a = true /\ normalized b = true /\ cmp_abs a b = 1
  /\ sub_abs a b = zero
  /\ ~ (magnitude (sub_abs a b) == magnitude a - magnitude b)%Q.
Proof.
  apply long_integer_difference; [| exact loop_count_long].
  change 2%nat with (Z.to_nat 2). apply Z2Nat.inj_le; lia.
Qed.

(** C8. For all normalized [a] and [b], [cmp_abs a b] is [-1], [0] or [+1]
    exactly as [|a|] is less than, equal to or greater than [|b|]; and it is
    computed as the specification describes: fractional parts right-padded to
    equal length, a longer integer part is greater, integer parts of equal
    length are compared lexicographically, and ties are broken by the
    lexicographic comparison of the padded fractional parts. *)
Theorem cmp_abs_correct (a b : BigDecimal) :
  normalized a = true -> normalized b = true ->
  (cmp_abs a b = -1 <-> (magnitude a < magnitude b)%Q)
  /\ (cmp_abs a b = 0 <-> (magnitude a == magnitude b)%Q)
  /\ (cmp_abs a b = 1 <-> (magnitude b < magnitude a)%Q)
  /\ cmp_abs a b = int_of_ordering (compareAbs_spec a b).
Proof.
  intros Na Nb. rewrite (cmp_abs_numeric a b Na Nb).
  rewrite Qlt_alt, Qeq_alt, Qgt_alt.
  rewrite <- (cmp_abs_numeric a b Na Nb) at 4.
  split; [| split; [| split; [| apply cmp_abs_refines]]];
    destruct (magnitude a ?= magnitude b)%Q; cbn; split; intros H;
      try reflexivity; try discriminate H.
Qed.

Lemma cmp_abs_correct_witness :
  cmp_abs (parse_normalize (lit "9.99")) (parse_normalize (lit "-10")) = -1
  /\ (magnitude (parse_normalize (lit "9.99")) < magnitude (parse_normalize (lit "-10")))%Q.
Proof.
  split; [reflexivity |].
  apply (cmp_abs_correct (parse_normalize (lit "9.99")) (parse_normalize (lit "-10")));
    reflexivity.
Defined.

(** * Further properties of the code *)

(** ** The trimming utilities *)

Lemma trim_leading_zeros_prefix s :
  exists k, s = repeat "0"%char k ++ trim_leading_zeros s.
Proof.
  induction s as [| c s IH]; [exists 0%nat; reflexivity |].
  destruct s as [| c' s']; [exists 0%nat; reflexivity |].
  rewrite trim_leading_zeros_cons. destruct (is_zero_char c) eqn:Z0.
  - destruct IH as [k E]. exists (S k). apply is_zero_char_iff in Z0. subst c.
    cbn [repeat app]. now rewrite <- E.
  - exists 0%nat. reflexivity.
Qed.

(** X1. [trim_leading_zeros] removes leading ['0'] characters and nothing
    else, always leaves a non-empty string non-empty, leaves no leading zero
    in front of another character, keeps the number the digits stand for, and
    its result is the only string with these properties. *)
Theorem trim_leading_zeros_characterized (s : str) :
  (exists k, s = repeat "0"%char k ++ trim_leading_zeros s)
  /\ no_leading_zero (trim_leading_zeros s) = true
  /\ (s <> [] -> trim_leading_zeros s <> [])
  /\ digits_val (trim_leading_zeros s) = digits_val s
  /\ (forall k t, s = repeat "0"%char k ++ t -> t <> [] ->
        no_leading_zero t = true -> trim_leading_zeros s = t).
Proof.
  split; [apply trim_leading_zeros_prefix |].
  split; [apply trim_leading_zeros_normal |].
  split.
  { intros Hs E. pose proof (trim_leading_zeros_nonempty s) as H.
    rewrite E in H. destruct s; [now contradiction Hs | discriminate (H eq_refl)]. }
  split; [apply trim_leading_zeros_val |].
  intros k t -> Ht Nt. now apply trim_leading_zeros_unique.
Qed.

Lemma trim_leading_zeros_characterized_witness :
  trim_leading_zeros (lit "000120") = lit "120"
  /\ trim_leading_zeros (lit "0000") <> [].
Proof.
  destruct (trim_leading_zeros_characterized (lit "000120")) as [_ [_ [_ [_ U]]]].
  destruct (trim_leading_zeros_characterized (lit "0000")) as [_ [_ [N _]]].
  split.
  - apply (U 3%nat (lit "120")); [reflexivity | discriminate | reflexivity].
  - apply N. discriminate.
Defined.

(** X2. [trim_trailing_zeros] removes trailing ['0'] characters and nothing
    else, its result does not end in ['0'], it is the only such string, and
    the fraction the digits stand for is unchanged. *)
Theorem trim_trailing_zeros_characterized (s : str) :
  (exists k, s = trim_trailing_zeros s ++ repeat "0"%char k)
  /\ no_trailing_zero (trim_trailing_zeros s) = true
  /\ (forall k t, s = t ++ repeat "0"%char k -> no_trailing_zero t = true ->
        trim_trailing_zeros s = t)
  /\ (Qmake (digits_val (trim_trailing_zeros s)) (pow10 (length (trim_trailing_zeros s)))
      == Qmake (digits_val s) (pow10 (length s)))%Q.
Proof.
  split; [apply trim_trailing_zeros_spec |].
  split; [apply trim_trailing_zeros_normal |].
  split.
  - intros k t -> Nt. fold (pad_right t k).
    now rewrite trim_trailing_zeros_pad, trim_trailing_zeros_id.
  - unfold Qeq. cbn [Qnum Qden]. rewrite !pow10_Z.
    pose proof (trim_trailing_zeros_val s) as T.
    pose proof (trim_trailing_zeros_length s) as Le.
    assert (E : 10 ^ Z.of_nat (length s)
                = 10 ^ Z.of_nat (length (trim_trailing_zeros s))
                  * 10 ^ Z.of_nat (length s - length (trim_trailing_zeros s))).
    { rewrite <- pow10_add. do 2 f_equal. lia. }
    rewrite E, T. ring.
Qed.

Lemma trim_trailing_zeros_characterized_witness :
  trim_trailing_zeros (lit "0050100") = lit "00501".
Proof.
  destruct (trim_trailing_zeros_characterized (lit "0050100")) as [_ [_ [U _]]].
  apply (U 2%nat (lit "00501")); reflexivity.
Defined.

(** ** Digit strings as literals *)

(** X3. [is_all_digits] accepts exactly the non-empty strings of decimal
    digits (the empty string is rejected); every string it accepts is a valid
    literal that parses to the non-negative integer its digits stand for,
    with the leading zeros removed and no fractional part. *)
Theorem is_all_digits_integer_literal (s : str) :
  (is_all_digits s = true <-> s <> [] /\ Forall decimal_digit s)
  /\ (is_all_digits s = true ->
      is_valid_double_literal s = true
      /\ parse_normalize s = mkBigDecimal 1 (trim_leading_zeros s) []
      /\ (value (parse_normalize s) == inject_Z (digits_val s))%Q).
Proof.
  split; [apply is_all_digits_digits1 |].
  intros D. apply is_all_digits_digits1 in D.
  assert (P : parse_normalize s = mkBigDecimal 1 (trim_leading_zeros s) []).
  { change s with ([] ++ s) at 1.
    rewrite parse_normalize_signed; [| left; reflexivity | now apply digits1_head].
    rewrite parse_parts_integer by assumption. cbn [sign_of].
    now destruct (str_eqb (trim_leading_zeros s) (lit "0")). }
  split; [apply is_valid_iff_grammar; now apply (valid_integer [] s); [left |] |].
  split; [exact P |].
  rewrite P. unfold value, inject_Z, Qeq. cbn [Qnum Qden sign intPart fracPart length].
  rewrite app_nil_r, trim_leading_zeros_val. change (Z.pos (pow10 0)) with 1. ring.
Qed.

Lemma is_all_digits_integer_literal_witness :
  parse_normalize (lit "007") = mkBigDecimal 1 (lit "7") [].
Proof.
  destruct (is_all_digits_integer_literal (lit "007")) as [_ H].
  destruct (H eq_refl) as [_ [P _]]. exact P.
Defined.

(** ** The zero test *)

Lemma value_zero_mag v :
  sign v = 1 \/ sign v = -1 ->
  (value v == 0)%Q -> mag_at (length (fracPart v)) v = 0.
Proof.
  intros Sv E. unfold value in E. apply Qmake_zero in E.
  rewrite mag_at_scale by lia. rewrite Nat.sub_diag.
  change (10 ^ Z.of_nat 0) with 1. destruct Sv as [S1 | S1]; rewrite S1 in E; lia.
Qed.

(** X4. On normalized values [isZero] is an exact test for the number zero:
    it holds if and only if the value is 0. *)
Theorem isZero_exact (v : BigDecimal) :
  normalized v = true -> (isZero v = true <-> (value v == 0)%Q).
Proof.
  intros N. destruct (normalized_inv v N) as [Sv _]. split.
  - intros Z0. apply isZero_iff in Z0. destruct Z0 as [Ei Ef].
    unfold value. rewrite Ei, Ef. apply Qmake_zero. cbn. ring.
  - intros E. apply (value_zero_mag v Sv) in E.
    now rewrite (normalized_mag_zero _ v N E).
Qed.

Lemma isZero_exact_witness :
  isZero (add_signed (parse_normalize (lit "2.50")) (parse_normalize (lit "-02.5"))) = true.
Proof.
  apply (isZero_exact (add_signed (parse_normalize (lit "2.50"))
                         (parse_normalize (lit "-02.5")))); reflexivity.
Defined.

(** ** Parsing *)

(** X5. Parsing keeps the number: for every valid literal, the value of the
    parsed [BigDecimal] is the rational number the text of the literal
    stands for. *)
Theorem parse_normalize_value (x : str) :
  is_valid_double_literal x = true ->
  (value (parse_normalize x) == literal_value x)%Q.
Proof. intros H. apply parse_value. now apply is_valid_iff_grammar. Qed.

Lemma parse_normalize_value_witness :
  (value (parse_normalize (lit "-0001.0050")) == literal_value (lit "-0001.0050"))%Q.
Proof. apply (parse_normalize_value (lit "-0001.0050")). reflexivity. Defined.

(** X6. Parsing is canonical: two valid literals parse to the same
    [BigDecimal] exactly when they stand for the same number, whatever
    redundant sign, leading zeros or trailing zeros they carry. *)
Theorem parse_normalize_canonical (x y : str) :
  is_valid_double_literal x = true -> is_valid_double_literal y = true ->
  (parse_normalize x = parse_normalize y <-> (literal_value x == literal_value y)%Q).
Proof.
  intros Hx Hy.
  pose proof (valid_normalized x Hx) as Nx. pose proof (valid_normalized y Hy) as Ny.
  apply is_valid_iff_grammar in Hx, Hy.
  rewrite <- (parse_value x Hx), <- (parse_value y Hy). split.
  - intros ->. reflexivity.
  - now apply value_injective.
Qed.

Lemma parse_normalize_canonical_witness :
  parse_normalize (lit "+007.2500") = parse_normalize (lit "7.25").
Proof.
  apply (parse_normalize_canonical (lit "+007.2500") (lit "7.25")); reflexivity.
Defined.

Lemma parse_parts_shape sg body :
  sg = 1 \/ sg = -1 ->
  no_leading_zero (intPart (parse_parts sg body)) = true
  /\ no_trailing_zero (fracPart (parse_parts sg body)) = true
  /\ (sign (parse_parts sg body) = 1 \/ sign (parse_parts sg body) = -1)
  /\ negative_zero (parse_parts sg body) = false.
Proof.
  intros Hs. unfold parse_parts.
  destruct (split_dot body) as [[p q] |]; cbn [sign intPart fracPart];
    (split; [apply trim_leading_zeros_normal |];
     split; [apply trim_trailing_zeros_normal |];
     unfold negative_zero, isZero; cbn [sign intPart fracPart];
     destruct (str_eqb _ _ && empty _); cbn; auto;
     destruct Hs as [-> | ->]; auto).
Qed.

(** X7. Whatever string it is given, valid or not, [parse_normalize] returns
    an integer part without a leading zero in front of another character, a
    fractional part that does not end in a zero, a sign that is [+1] or [-1],
    and never a negative zero. *)
Theorem parse_normalize_any_input (x : str) :
  no_leading_zero (intPart (parse_normalize x)) = true
  /\ no_trailing_zero (fracPart (parse_normalize x)) = true
  /\ (sign (parse_normalize x) = 1 \/ sign (parse_normalize x) = -1)
  /\ negative_zero (parse_normalize x) = false.
Proof.
  rewrite parse_normalize_unfold. destruct x as [| c r].
  - apply parse_parts_shape. auto.
  - destruct (Ascii.eqb c "+"); [apply parse_parts_shape; auto |].
    destruct (Ascii.eqb c "-"); apply parse_parts_shape; auto.
Qed.

(** ** Alignment of the fractional parts *)

Lemma pad_right_value sg ip fp k :
  (Qmake (sg * digits_val (ip ++ pad_right fp k)) (pow10 (length (pad_right fp k)))
   == Qmake (sg * digits_val (ip ++ fp)) (pow10 (length fp)))%Q.
Proof.
  unfold Qeq. cbn [Qnum Qden]. rewrite !pow10_Z, pad_right_length, pow10_add.
  rewrite !digits_val_app, digits_val_pad_right, pad_right_length, pow10_add. ring.
Qed.

(** X8. [align_frac] gives both values fractional parts of the same length,
    the longer of the two; it changes neither signs nor integer parts nor
    the numbers the values stand for, and trimming the trailing zeros undoes
    it. *)
Theorem align_frac_spec (a b : BigDecimal) :
  let a' := fst (align_frac a b) in
  let b' := snd (align_frac a b) in
  let L := Nat.max (length (fracPart a)) (length (fracPart b)) in
  length (fracPart a') = L /\ length (fracPart b') = L
  /\ sign a' = sign a /\ sign b' = sign b
  /\ intPart a' = intPart a /\ intPart b' = intPart b
  /\ (value a' == value a)%Q /\ (value b' == value b)%Q
  /\ trim_trailing_zeros (fracPart a') = trim_trailing_zeros (fracPart a)
  /\ trim_trailing_zeros (fracPart b') = trim_trailing_zeros (fracPart b).
Proof.
  unfold align_frac. cbn [fst snd sign intPart fracPart].
  rewrite !pad_right_length, !trim_trailing_zeros_pad.
  unfold value. cbn [sign intPart fracPart].
  repeat split; try lia; apply pad_right_value.
Qed.

(** ** The comparator on arbitrary values *)

Lemma cmp_abs_refl a : cmp_abs a a = 0.
Proof.
  unfold cmp_abs, align_frac. cbn [intPart fracPart].
  now rewrite Nat.eqb_refl, !str_eqb_refl.
Qed.

(** X9. [cmp_abs] is antisymmetric and reflexive on all values, normalized or
    not: exchanging the operands negates the result, and a value compares
    equal to itself. *)
Theorem cmp_abs_antisymmetric (a b : BigDecimal) :
  cmp_abs b a = - cmp_abs a b /\ cmp_abs a a = 0.
Proof. split; [apply cmp_abs_antisym | apply cmp_abs_refl]. Qed.

Lemma pad_right_pad_right s i j : pad_right (pad_right s i) j = pad_right s (i + j).
Proof. unfold pad_right. now rewrite <- app_assoc, <- repeat_app. Qed.

Lemma pad_to_width s L :
  (length s <= L)%nat ->
  pad_right s (L - length s)
  = pad_right (trim_trailing_zeros s) (L - length (trim_trailing_zeros s)).
Proof.
  intros Le. destruct (trim_trailing_zeros_spec s) as [k E].
  pose proof (f_equal (@length ascii) E) as El. rewrite pad_right_length in El.
  rewrite E at 1. rewrite pad_right_pad_right. f_equal. lia.
Qed.

(** X10. [cmp_abs] returns [0] exactly when the integer parts are the same
    string and the fractional parts differ at most by trailing zeros. *)
Theorem cmp_abs_equal_iff (a b : BigDecimal) :
  cmp_abs a b = 0 <->
  intPart a = intPart b
  /\ trim_trailing_zeros (fracPart a) = trim_trailing_zeros (fracPart b).
Proof.
  split.
  - intros C. apply cmp_abs_zero in C. destruct C as [Ei Ef]. split; [assumption |].
    apply (f_equal trim_trailing_zeros) in Ef.
    now rewrite !trim_trailing_zeros_pad in Ef.
  - intros [Ei Ef]. unfold cmp_abs, align_frac. cbn [intPart fracPart].
    rewrite Ei, Nat.eqb_refl, str_eqb_refl. cbn [negb].
    set (L := Nat.max (length (fracPart a)) (length (fracPart b))).
    rewrite (pad_to_width (fracPart a) L), (pad_to_width (fracPart b) L)
      by (unfold L; lia).
    now rewrite Ef, str_eqb_refl.
Qed.

(** ** Sizes of the results *)

Lemma add_run_length a : forall b c,
  length (fst (add_run a b c)) = Nat.min (length a) (length b).
Proof.
  induction a as [| x a IH]; intros [| y b] c; try reflexivity.
  rewrite add_run_cons. specialize (IH b c).
  destruct (add_run a b c) as [r c']. cbn [fst] in IH.
  unfold add_step. cbn [fst length]. rewrite IH. reflexivity.
Qed.

Lemma sub_run_length a : forall b c,
  length (fst (sub_run a b c)) = Nat.min (length a) (length b).
Proof.
  induction a as [| x a IH]; intros [| y b] c; try reflexivity.
  rewrite sub_run_cons. specialize (IH b c).
  destruct (sub_run a b c) as [r c']. cbn [fst] in IH.
  unfold sub_step. destruct (_ <? _); cbn [fst length]; rewrite IH; reflexivity.
Qed.

Lemma add_digits_length fill a b c :
  length a = length b -> length (fst (add_digits fill a b c)) = length a.
Proof.
  intros E. unfold add_digits. pose proof (loop_count_le (length a)) as Le.
  set (k := loop_count (length a)) in *.
  pose proof (add_run_length (firstn k a) (firstn k b) c) as Lr.
  destruct (add_run (firstn k a) (firstn k b) c) as [r c']. cbn [fst] in *.
  rewrite length_app, repeat_length, Lr, !length_firstn. lia.
Qed.

Lemma sub_digits_length fill a b c :
  length a = length b -> length (fst (sub_digits fill a b c)) = length a.
Proof.
  intros E. unfold sub_digits. pose proof (loop_count_le (length a)) as Le.
  set (k := loop_count (length a)) in *.
  pose proof (sub_run_length (firstn k a) (firstn k b) c) as Lr.
  destruct (sub_run (firstn k a) (firstn k b) c) as [r c']. cbn [fst] in *.
  rewrite length_app, repeat_length, Lr, !length_firstn. lia.
Qed.

Lemma add_abs_lengths a b :
  (length (intPart (add_abs a b))
   <= S (Nat.max (length (intPart a)) (length (intPart b))))%nat
  /\ (length (fracPart (add_abs a b))
      <= Nat.max (length (fracPart a)) (length (fracPart b)))%nat.
Proof.
  destruct (aligned_lengths a b) as [La Lb].
  unfold add_abs, align_frac. cbn [intPart fracPart].
  set (L := Nat.max (length (fracPart a)) (length (fracPart b))) in *.
  set (fa := pad_right (fracPart a) _) in *. set (fb := pad_right (fracPart b) _) in *.
  pose proof (add_digits_length nul fa fb 0 ltac:(congruence)) as Lr.
  destruct (add_digits nul fa fb 0) as [rf cf]. cbn [fst] in Lr.
  set (a' := mkBigDecimal (sign a) (intPart a) fa).
  set (b' := mkBigDecimal (sign b) (intPart b) fb).
  destruct (pad_ints_spec a' b') as [LA [LB _]]. cbn [intPart a' b'] in LA, LB.
  destruct (pad_ints a' b') as [A B]. cbn [fst snd] in LA, LB.
  pose proof (add_digits_length "0"%char A B cf ltac:(congruence)) as Ls.
  destruct (add_digits "0"%char A B cf) as [s c]. cbn [fst] in Ls.
  cbn [intPart fracPart].
  pose proof (trim_trailing_zeros_length rf).
  pose proof (trim_leading_zeros_length
                (if negb (c =? 0) then char_of_int (48 + c) :: s else s)) as T.
  split; [| lia].
  destruct (negb (c =? 0)); cbn [length] in T; lia.
Qed.

Lemma sub_abs_lengths a b :
  (length (intPart (sub_abs a b))
   <= Nat.max (length (intPart a)) (length (intPart b)))%nat
  /\ (length (fracPart (sub_abs a b))
      <= Nat.max (length (fracPart a)) (length (fracPart b)))%nat.
Proof.
  destruct (aligned_lengths a b) as [La Lb].
  unfold sub_abs, align_frac. cbn [intPart fracPart].
  set (L := Nat.max (length (fracPart a)) (length (fracPart b))) in *.
  set (fa := pad_right (fracPart a) _) in *. set (fb := pad_right (fracPart b) _) in *.
  pose proof (sub_digits_length nul fa fb 0 ltac:(congruence)) as Lr.
  destruct (sub_digits nul fa fb 0) as [rf cf]. cbn [fst] in Lr.
  set (a' := mkBigDecimal (sign a) (intPart a) fa).
  set (b' := mkBigDecimal (sign b) (intPart b) fb).
  destruct (pad_ints_spec a' b') as [LA [LB _]]. cbn [intPart a' b'] in LA, LB.
  destruct (pad_ints a' b') as [A B]. cbn [fst snd] in LA, LB.
  pose proof (sub_digits_length "0"%char A B cf ltac:(congruence)) as Ls.
  destruct (sub_digits "0"%char A B cf) as [s c]. cbn [fst] in Ls.
  pose proof (trim_trailing_zeros_length rf).
  pose proof (trim_leading_zeros_length s) as T.
  destruct (str_eqb (trim_leading_zeros s) (lit "0")) eqn:Z0;
    cbn [andb]; [destruct (empty (trim_trailing_zeros rf)) |];
    cbn [intPart fracPart]; (split; [| lia]); try lia.
  apply str_eqb_eq in Z0. rewrite <- Z0. lia.
Qed.

Lemma add_signed_lengths a b :
  (length (intPart (add_signed a b))
   <= S (Nat.max (length (intPart a)) (length (intPart b))))%nat
  /\ (length (fracPart (add_signed a b))
      <= Nat.max (length (fracPart a)) (length (fracPart b)))%nat.
Proof.
  pose proof (add_abs_lengths a b) as Ha.
  pose proof (sub_abs_lengths a b) as Hs.
  pose proof (sub_abs_lengths b a) as Hs'.
  unfold add_signed.
  destruct (isZero a); [lia |].
  destruct (isZero b); [lia |].
  destruct (sign a =? sign b).
  - destruct (with_sign_parts (sign a) (add_abs a b)) as [-> [-> _]]. assumption.
  - destruct (cmp_abs a b =? 0); [cbn; lia |].
    destruct (cmp_abs a b >? 0).
    + destruct (with_sign_parts (sign a) (sub_abs a b)) as [-> [-> _]]. lia.
    + destruct (with_sign_parts (sign b) (sub_abs b a)) as [-> [-> _]]. lia.
Qed.

Lemma add_abs_in_int_range a b :
  carry_room a = true -> carry_room b = true -> in_int_range (add_abs a b) = true.
Proof.
  intros Ca Cb. destruct (carry_room_inv a Ca), (carry_room_inv b Cb).
  destruct (add_abs_lengths a b). unfold in_int_range.
  apply andb_true_iff. split; apply Z.leb_le; lia.
Qed.

Lemma add_signed_in_int_range a b :
  carry_room a = true -> carry_room b = true -> in_int_range (add_signed a b) = true.
Proof.
  intros Ca Cb. destruct (carry_room_inv a Ca), (carry_room_inv b Cb).
  destruct (add_signed_lengths a b). unfold in_int_range.
  apply andb_true_iff. split; apply Z.leb_le; lia.
Qed.

(** ** The magnitude adder and subtractor on digit strings *)

Lemma Qmake_lt x y p : (Qmake x p < Qmake y p)%Q <-> x < y.
Proof. unfold Qlt. cbn [Qnum Qden]. nia. Qed.

Lemma Qmake_le x y p : (Qmake x p <= Qmake y p)%Q <-> x <= y.
Proof. unfold Qle. cbn [Qnum Qden]. nia. Qed.

Lemma Qmake_shift x y n :
  (Qmake (x + y * 10 ^ Z.of_nat n) (pow10 n) == Qmake x (pow10 n) + inject_Z y)%Q.
Proof.
  unfold Qeq, Qplus, inject_Z. cbn [Qnum Qden].
  rewrite Pos2Z.inj_mul, !pow10_Z. change (Z.pos 1) with 1. ring.
Qed.

Lemma normalized_digits v :
  normalized v = true ->
  is_all_digits (intPart v) = true /\ forallb isdigit (fracPart v) = true.
Proof.
  intros N. destruct (normalized_inv v N) as [_ [Iv [Ev [_ [Fv _]]]]].
  unfold is_all_digits. now rewrite Iv, Ev.
Qed.

Lemma value_of_positive v : sign v = 1 -> value v = magnitude v.
Proof. intros S1. unfold value, magnitude. rewrite S1. now rewrite Z.mul_1_l. Qed.

Lemma range_bounds a b :
  in_int_range a = true -> in_int_range b = true ->
  Z.of_nat (Nat.max (length (intPart a)) (length (intPart b))) <= int_max
  /\ Z.of_nat (Nat.max (length (fracPart a)) (length (fracPart b))) <= int_max.
Proof.
  intros Ra Rb. destruct (in_int_range_inv a Ra), (in_int_range_inv b Rb). lia.
Qed.

Lemma add_abs_magnitude a b :
  is_all_digits (intPart a) = true -> forallb isdigit (fracPart a) = true ->
  is_all_digits (intPart b) = true -> forallb isdigit (fracPart b) = true ->
  in_int_range a = true -> in_int_range b = true ->
  normalized (add_abs a b) = true
  /\ sign (add_abs a b) = 1
  /\ (magnitude (add_abs a b) == magnitude a + magnitude b)%Q.
Proof.
  intros Ia Fa Ib Fb Ra Rb. destruct (range_bounds a b Ra Rb) as [HLi HLf].
  apply is_all_digits_inv in Ia, Ib. destruct Ia as [Ia Ea], Ib as [Ib Eb].
  destruct (add_abs_spec a b Ia Ea Fa Ib Fb HLi HLf) as [Sr [Di [Ei [Li [Df [Tf [Lf Vf]]]]]]].
  set (L := Nat.max (length (fracPart a)) (length (fracPart b))) in *.
  split; [apply normalized_intro; auto |]. split; [assumption |].
  rewrite (magnitude_at L _ Lf).
  rewrite (magnitude_at L a), (magnitude_at L b) by (unfold L; lia).
  now rewrite Qmake_plus, Vf.
Qed.

Lemma sub_abs_magnitude a b :
  is_all_digits (intPart a) = true -> forallb isdigit (fracPart a) = true ->
  is_all_digits (intPart b) = true -> forallb isdigit (fracPart b) = true ->
  in_int_range a = true -> in_int_range b = true ->
  (magnitude b <= magnitude a)%Q ->
  normalized (sub_abs a b) = true
  /\ sign (sub_abs a b) = 1
  /\ (magnitude (sub_abs a b) == magnitude a - magnitude b)%Q.
Proof.
  intros Ia Fa Ib Fb Ra Rb Le. destruct (range_bounds a b Ra Rb) as [HLi HLf].
  apply is_all_digits_inv in Ia, Ib. destruct Ia as [Ia Ea], Ib as [Ib Eb].
  set (L := Nat.max (length (fracPart a)) (length (fracPart b))).
  rewrite (magnitude_at L a), (magnitude_at L b) in Le by (unfold L; lia).
  apply Qmake_le in Le.
  destruct (sub_abs_spec a b Ia Ea Fa Ib Fb HLi HLf Le)
    as [Sr [Di [Ei [Li [Df [Tf [Lf Vf]]]]]]].
  fold L in Lf, Vf.
  split; [apply normalized_intro; auto |]. split; [assumption |].
  rewrite (magnitude_at L _ Lf).
  rewrite (magnitude_at L a), (magnitude_at L b) by (unfold L; lia).
  now rewrite Qmake_minus, Vf.
Qed.

(** X11. On operands made of decimal digits, normalized or not (leading
    zeros in the integer parts and trailing zeros in the fractional parts
    are allowed), whose parts have at most [INT_MAX] characters, [add_abs]
    returns a normalized value of sign [+1] whose magnitude is exactly the
    sum of the two magnitudes; the signs of the operands play no part. *)
Theorem add_abs_exact (a b : BigDecimal) :
  is_all_digits (intPart a) = true -> forallb isdigit (fracPart a) = true ->
  is_all_digits (intPart b) = true -> forallb isdigit (fracPart b) = true ->
  in_int_range a = true -> in_int_range b = true ->
  normalized (add_abs a b) = true
  /\ sign (add_abs a b) = 1
  /\ (magnitude (add_abs a b) == magnitude a + magnitude b)%Q.
Proof. apply add_abs_magnitude. Qed.

Lemma add_abs_exact_witness :
  add_abs (mkBigDecimal (-1) (lit "0099") (lit "950")) (mkBigDecimal 1 (lit "1") (lit "05"))
  = mkBigDecimal 1 (lit "101") (lit "")
  /\ (magnitude (add_abs (mkBigDecimal (-1) (lit "0099") (lit "950"))
                   (mkBigDecimal 1 (lit "1") (lit "05")))
      == magnitude (mkBigDecimal (-1) (lit "0099") (lit "950"))
         + magnitude (mkBigDecimal 1 (lit "1") (lit "05")))%Q.
Proof.
  split; [reflexivity |].
  apply (add_abs_exact (mkBigDecimal (-1) (lit "0099") (lit "950"))
           (mkBigDecimal 1 (lit "1") (lit "05"))); reflexivity.
Defined.

(** X12. [add_abs] is commutative on all values, whatever their strings
    hold. *)
Theorem add_abs_commutative (a b : BigDecimal) : add_abs a b = add_abs b a.
Proof. apply add_abs_comm. Qed.

(** X13. [add_abs] is associative on operands made of decimal digits whose
    fractional parts have at most [INT_MAX] characters and whose integer
    parts have fewer, so that a carry digit still fits. *)
Theorem add_abs_associative (a b c : BigDecimal) :
  is_all_digits (intPart a) = true -> forallb isdigit (fracPart a) = true ->
  is_all_digits (intPart b) = true -> forallb isdigit (fracPart b) = true ->
  is_all_digits (intPart c) = true -> forallb isdigit (fracPart c) = true ->
  carry_room a = true -> carry_room b = true -> carry_room c = true ->
  add_abs (add_abs a b) c = add_abs a (add_abs b c).
Proof.
  intros Ia Fa Ib Fb Ic Fc Ca Cb Cc.
  pose proof (carry_room_in_int_range a Ca) as Ra.
  pose proof (carry_room_in_int_range b Cb) as Rb.
  pose proof (carry_room_in_int_range c Cc) as Rc.
  pose proof (add_abs_in_int_range a b Ca Cb) as Rab.
  pose proof (add_abs_in_int_range b c Cb Cc) as Rbc.
  destruct (add_abs_magnitude a b Ia Fa Ib Fb Ra Rb) as [Nab [_ Mab]].
  destruct (add_abs_magnitude b c Ib Fb Ic Fc Rb Rc) as [Nbc [_ Mbc]].
  destruct (normalized_digits _ Nab) as [Iab Fab].
  destruct (normalized_digits _ Nbc) as [Ibc Fbc].
  destruct (add_abs_magnitude _ c Iab Fab Ic Fc Rab Rc) as [N1 [S1 M1]].
  destruct (add_abs_magnitude a _ Ia Fa Ibc Fbc Ra Rbc) as [N2 [S2 M2]].
  apply value_injective; try assumption.
  rewrite (value_of_positive _ S1), (value_of_positive _ S2).
  rewrite M1, M2, Mab, Mbc. ring.
Qed.

Lemma add_abs_associative_witness :
  add_abs (add_abs (parse_normalize (lit "9.99")) (parse_normalize (lit "0.01")))
    (parse_normalize (lit "90"))
  = add_abs (parse_normalize (lit "9.99"))
      (add_abs (parse_normalize (lit "0.01")) (parse_normalize (lit "90"))).
Proof.
  apply (add_abs_associative (parse_normalize (lit "9.99")) (parse_normalize (lit "0.01"))
           (parse_normalize (lit "90"))); reflexivity.
Defined.

(** X14. [sub_abs] undoes [add_abs]: for a normalized [a] and an operand [b]
    made of decimal digits, both with fractional parts of at most [INT_MAX]
    characters and shorter integer parts, subtracting [b] from [add_abs a b]
    gives back the digits of [a], with sign [+1]. *)
Theorem sub_abs_add_abs (a b : BigDecimal) :
  normalized a = true ->
  is_all_digits (intPart b) = true -> forallb isdigit (fracPart b) = true ->
  carry_room a = true -> carry_room b = true ->
  sub_abs (add_abs a b) b = set_sign 1 a.
Proof.
  intros Na Ib Fb Ca Cb. destruct (normalized_digits a Na) as [Ia Fa].
  pose proof (carry_room_in_int_range a Ca) as Ra.
  pose proof (carry_room_in_int_range b Cb) as Rb.
  pose proof (add_abs_in_int_range a b Ca Cb) as Rs.
  destruct (add_abs_magnitude a b Ia Fa Ib Fb Ra Rb) as [Ns [_ Ms]].
  destruct (normalized_digits _ Ns) as [Is Fs].
  assert (Pa : (0 <= magnitude a)%Q).
  { unfold magnitude, Qle. cbn [Qnum Qden]. rewrite digits_val_app.
    apply is_all_digits_inv in Ia. destruct Ia as [Ia _].
    pose proof (digits_val_bounds _ Ia). pose proof (digits_val_bounds _ Fa).
    pose proof (pow10_pos (length (fracPart a))). nia. }
  assert (Le : (magnitude b <= magnitude (add_abs a b))%Q).
  { rewrite Ms. rewrite <- (Qplus_0_l (magnitude b)) at 1.
    apply Qplus_le_compat; [assumption | apply Qle_refl]. }
  destruct (sub_abs_magnitude _ b Is Fs Ib Fb Rs Rb Le) as [Nr [Sr Mr]].
  assert (Np : normalized (set_sign 1 a) = true).
  { destruct (normalized_inv a Na) as [_ [I' [E' [L' [F' [T' _]]]]]].
    apply normalized_intro; cbn [set_sign sign intPart fracPart]; auto. }
  apply value_injective; try assumption.
  rewrite (value_of_positive _ Sr), (value_of_positive (set_sign 1 a) eq_refl).
  change (magnitude (set_sign 1 a)) with (magnitude a).
  rewrite Mr, Ms. ring.
Qed.

Lemma sub_abs_add_abs_witness :
  sub_abs (add_abs (parse_normalize (lit "-12.5")) (mkBigDecimal 1 (lit "007") (lit "50")))
    (mkBigDecimal 1 (lit "007") (lit "50"))
  = mkBigDecimal 1 (lit "12") (lit "5").
Proof.
  apply (sub_abs_add_abs (parse_normalize (lit "-12.5"))
           (mkBigDecimal 1 (lit "007") (lit "50"))); reflexivity.
Defined.

Lemma sub_abs_wraps a b :
  forallb isdigit (intPart a) = true -> empty (intPart a) = false ->
  forallb isdigit (fracPart a) = true ->
  forallb isdigit (intPart b) = true -> forallb isdigit (fracPart b) = true ->
  let L := Nat.max (length (fracPart a)) (length (fracPart b)) in
  let n := Nat.max (length (intPart a)) (length (intPart b)) in
  Z.of_nat n <= int_max -> Z.of_nat L <= int_max ->
  mag_at L a < mag_at L b ->
  forallb isdigit (intPart (sub_abs a b)) = true
  /\ empty (intPart (sub_abs a b)) = false
  /\ no_leading_zero (intPart (sub_abs a b)) = true
  /\ forallb isdigit (fracPart (sub_abs a b)) = true
  /\ no_trailing_zero (fracPart (sub_abs a b)) = true
  /\ (length (fracPart (sub_abs a b)) <= L)%nat
  /\ mag_at L (sub_abs a b) = mag_at L a - mag_at L b + 10 ^ Z.of_nat (n + L).
Proof.
  intros Hia Hna Hfa Hib Hfb L n HLi HLf.
  destruct (aligned_lengths a b) as [La Lb]. destruct (aligned_digits a b Hfa Hfb) as [Da Db].
  fold L in La, Lb, Da, Db.
  rewrite !mag_at_aligned.
  set (fa := pad_right (fracPart a) (L - length (fracPart a))) in *.
  set (fb := pad_right (fracPart b) (L - length (fracPart b))) in *.
  intros Hlt.
  unfold sub_abs, align_frac. cbn [fracPart intPart]. fold L. fold fa fb.
  rewrite (sub_digits_short nul fa fb 0); [| rewrite La; exact HLf | congruence].
  destruct (sub_run_spec fa fb 0) as [Lr [Dr [Cr Vr]]];
    [congruence | assumption | assumption | lia |].
  destruct (sub_run fa fb 0) as [rf cf]. cbn [fst snd] in Lr, Dr, Cr, Vr.
  rewrite La in Lr, Vr.
  set (a' := mkBigDecimal (sign a) (intPart a) fa).
  set (b' := mkBigDecimal (sign b) (intPart b) fb).
  destruct (pad_ints_spec a' b') as [LA [LB [VA [VB [DA DB]]]]].
  cbn [intPart a' b'] in LA, LB, VA, VB, DA, DB. fold n in LA, LB.
  destruct (pad_ints a' b') as [A B]. cbn [fst snd] in LA, LB, VA, VB, DA, DB.
  rewrite (sub_digits_short "0"%char A B cf); [| rewrite LA; exact HLi | congruence].
  destruct (sub_run_spec A B cf) as [Ls [Ds [Cs Vs]]];
    [congruence | auto | auto | lia |].
  destruct (sub_run A B cf) as [s c]. cbn [fst snd] in Ls, Ds, Cs, Vs.
  assert (Ns : empty s = false).
  { destruct s; [| reflexivity]. destruct A; [| discriminate Ls].
    unfold n in LA. destruct (intPart a); [discriminate Hna |].
    cbn [length] in LA. lia. }
  pose proof (digits_val_bounds s Ds) as Bs.
  pose proof (digits_val_bounds rf Dr) as Br.
  rewrite LA in Vs. pose proof (pow10_pos L) as PL.
  assert (c = 1).
  { assert (c = 0 \/ c = 1) as [E | E] by lia; [exfalso | assumption].
    subst c. rewrite VA, VB in Vs. nia. }
  subst c.
  assert (Vres : digits_val (trim_leading_zeros s) * 10 ^ Z.of_nat L
                 + digits_val (pad_right (trim_trailing_zeros rf)
                                 (L - length (trim_trailing_zeros rf)))
                 = digits_val (intPart a) * 10 ^ Z.of_nat L + digits_val fa
                   - (digits_val (intPart b) * 10 ^ Z.of_nat L + digits_val fb)
                   + 10 ^ Z.of_nat (n + L)).
  { rewrite trim_leading_zeros_val, digits_val_pad_right, pow10_add.
    pose proof (trim_trailing_zeros_val rf) as T. rewrite Lr in T.
    rewrite <- T. rewrite VA, VB in Vs. nia. }
  assert (Shape : forallb isdigit (trim_leading_zeros s) = true
                  /\ empty (trim_leading_zeros s) = false
                  /\ no_leading_zero (trim_leading_zeros s) = true
                  /\ forallb isdigit (trim_trailing_zeros rf) = true
                  /\ no_trailing_zero (trim_trailing_zeros rf) = true
                  /\ (length (trim_trailing_zeros rf) <= L)%nat).
  { repeat split.
    - now apply trim_leading_zeros_digits.
    - now apply trim_leading_zeros_nonempty.
    - apply trim_leading_zeros_normal.
    - now apply trim_trailing_zeros_digits.
    - apply trim_trailing_zeros_normal.
    - rewrite <- Lr. apply trim_trailing_zeros_length. }
  destruct Shape as [S1 [S2 [S3 [S4 [S5 S6]]]]].
  destruct (str_eqb (trim_leading_zeros s) (lit "0")
            && empty (trim_trailing_zeros rf)) eqn:Z0; cbn [sign intPart fracPart].
  - apply andb_true_iff in Z0. destruct Z0 as [Z1 _]. apply str_eqb_eq in Z1.
    rewrite <- Z1. repeat split; assumption.
  - repeat split; assumption.
Qed.

(** X15. When [sub_abs] is called against its precondition, with [|a| <
    |b|] on operands made of decimal digits whose parts have at most
    [INT_MAX] characters, it still returns a normalized value, but the borrow
    out of the leading digit is dropped: the magnitude returned is
    [|a| - |b| + 10^n], where [n] is the number of digits of the longer
    integer part. *)
Theorem sub_abs_precondition_violated (a b : BigDecimal) :
  is_all_digits (intPart a) = true -> forallb isdigit (fracPart a) = true ->
  is_all_digits (intPart b) = true -> forallb isdigit (fracPart b) = true ->
  in_int_range a = true -> in_int_range b = true ->
  (magnitude a < magnitude b)%Q ->
  normalized (sub_abs a b) = true
  /\ (magnitude (sub_abs a b)
      == magnitude a - magnitude b
         + inject_Z (10 ^ Z.of_nat (Nat.max (length (intPart a)) (length (intPart b)))))%Q.
Proof.
  intros Ia Fa Ib Fb Ra Rb Lt. destruct (range_bounds a b Ra Rb) as [HLi HLf].
  apply is_all_digits_inv in Ia, Ib. destruct Ia as [Ia Ea], Ib as [Ib Eb].
  set (L := Nat.max (length (fracPart a)) (length (fracPart b))).
  rewrite (magnitude_at L a), (magnitude_at L b) in Lt by (unfold L; lia).
  apply Qmake_lt in Lt.
  destruct (sub_abs_wraps a b Ia Ea Fa Ib Fb HLi HLf Lt) as [Di [Ei [Li [Df [Tf [Lf Vf]]]]]].
  fold L in Lf, Vf.
  split.
  - apply normalized_intro; auto.
    + unfold sub_abs. destruct (align_frac a b) as [a' b'].
      destruct (sub_digits nul _ _ 0) as [rf cf]. destruct (pad_ints a' b') as [A B].
      destruct (sub_digits "0"%char A B cf) as [s c]. destruct (_ && _); auto.
    + intros _. unfold sub_abs. destruct (align_frac a b) as [a' b'].
      destruct (sub_digits nul _ _ 0) as [rf cf]. destruct (pad_ints a' b') as [A B].
      destruct (sub_digits "0"%char A B cf) as [s c]. now destruct (_ && _).
  - rewrite (magnitude_at L _ Lf).
    rewrite (magnitude_at L a), (magnitude_at L b) by (unfold L; lia).
    rewrite Vf, pow10_add, Qmake_shift, Qmake_minus. reflexivity.
Qed.

Lemma sub_abs_precondition_violated_witness :
  sub_abs (parse_normalize (lit "1")) (parse_normalize (lit "1.005"))
  = mkBigDecimal 1 (lit "9") (lit "995")
  /\ (magnitude (sub_abs (parse_normalize (lit "1")) (parse_normalize (lit "1.005")))
      == magnitude (parse_normalize (lit "1")) - magnitude (parse_normalize (lit "1.005"))
         + inject_Z (10 ^ Z.of_nat 1))%Q.
Proof.
  split; [reflexivity |].
  apply (sub_abs_precondition_violated (parse_normalize (lit "1"))
           (parse_normalize (lit "1.005"))); reflexivity.
Defined.

(** ** Sizes of the results, as a property *)

(** X16. The results never grow beyond the operands, whatever the strings
    hold: the fractional part of a sum or difference has at most as many
    characters as the longer fractional part, the integer part of [sub_abs]
    at most as many as the longer integer part, and the integer part of
    [add_abs] and of [add_signed] at most one more. *)
Theorem result_lengths (a b : BigDecimal) :
  let Li := Nat.max (length (intPart a)) (length (intPart b)) in
  let Lf := Nat.max (length (fracPart a)) (length (fracPart b)) in
  ((length (intPart (add_abs a b)) <= S Li)%nat
   /\ (length (fracPart (add_abs a b)) <= Lf)%nat)
  /\ ((length (intPart (sub_abs a b)) <= Li)%nat
      /\ (length (fracPart (sub_abs a b)) <= Lf)%nat)
  /\ ((length (intPart (add_signed a b)) <= S Li)%nat
      /\ (length (fracPart (add_signed a b)) <= Lf)%nat).
Proof.
  intros Li Lf.
  pose proof (add_abs_lengths a b). pose proof (sub_abs_lengths a b).
  pose proof (add_signed_lengths a b). auto.
Qed.

(** ** Algebra of the signed adder *)

(** X17. [add_signed] is associative on normalized values whose fractional
    parts have at most [INT_MAX] characters and whose integer parts have
    fewer, so that a carry digit still fits. *)
Theorem add_signed_associative (a b c : BigDecimal) :
  normalized a = true -> normalized b = true -> normalized c = true ->
  carry_room a = true -> carry_room b = true -> carry_room c = true ->
  add_signed (add_signed a b) c = add_signed a (add_signed b c).
Proof.
  intros Na Nb Nc Ca Cb Cc.
  pose proof (carry_room_in_int_range a Ca) as Ra.
  pose proof (carry_room_in_int_range b Cb) as Rb.
  pose proof (carry_room_in_int_range c Cc) as Rc.
  pose proof (add_signed_in_int_range a b Ca Cb) as Rab.
  pose proof (add_signed_in_int_range b c Cb Cc) as Rbc.
  destruct (add_signed_sound a b Na Nb Ra Rb) as [Nab _].
  destruct (add_signed_sound b c Nb Nc Rb Rc) as [Nbc _].
  destruct (add_signed_sound _ c Nab Nc Rab Rc) as [N1 _].
  destruct (add_signed_sound a _ Na Nbc Ra Rbc) as [N2 _].
  apply value_injective; try assumption.
  rewrite (add_signed_value _ c Nab Nc Rab Rc), (add_signed_value a b Na Nb Ra Rb).
  rewrite (add_signed_value a _ Na Nbc Ra Rbc), (add_signed_value b c Nb Nc Rb Rc).
  ring.
Qed.

Lemma add_signed_associative_witness :
  add_signed (add_signed (parse_normalize (lit "0.1")) (parse_normalize (lit "0.2")))
    (parse_normalize (lit "-0.3"))
  = add_signed (parse_normalize (lit "0.1"))
      (add_signed (parse_normalize (lit "0.2")) (parse_normalize (lit "-0.3"))).
Proof.
  apply (add_signed_associative (parse_normalize (lit "0.1")) (parse_normalize (lit "0.2"))
           (parse_normalize (lit "-0.3"))); reflexivity.
Defined.

(** X18. On normalized values whose parts have at most [INT_MAX]
    characters, the sum is canonical zero exactly when the two values are
    opposite numbers. *)
Theorem add_signed_zero_iff (a b : BigDecimal) :
  normalized a = true -> normalized b = true ->
  in_int_range a = true -> in_int_range b = true ->
  (add_signed a b = zero <-> (value a + value b == 0)%Q).
Proof.
  intros Na Nb Ra Rb. destruct (add_signed_sound a b Na Nb Ra Rb) as [Ns _].
  rewrite <- (add_signed_value a b Na Nb Ra Rb). split.
  - intros ->. reflexivity.
  - intros E. apply value_injective; [assumption | reflexivity |].
    rewrite E. reflexivity.
Qed.

Lemma add_signed_zero_iff_witness :
  add_signed (parse_normalize (lit "12.50")) (parse_normalize (lit "-012.5")) = zero.
Proof.
  apply (add_signed_zero_iff (parse_normalize (lit "12.50"))
           (parse_normalize (lit "-012.5"))); reflexivity.
Defined.

Lemma cmp_abs_same_digits a b :
  intPart a = intPart b -> fracPart a = fracPart b -> cmp_abs a b = 0.
Proof.
  intros Ei Ef. unfold cmp_abs, align_frac. cbn [intPart fracPart].
  now rewrite Ei, Ef, Nat.eqb_refl, !str_eqb_refl.
Qed.

(** The two signs of the same unsigned text parse to the same digits; the
    signs are opposite unless the value is zero. *)
Lemma parse_parts_opposite body :
  add_signed (parse_parts 1 body) (parse_parts (-1) body) = zero.
Proof.
  unfold parse_parts.
  destruct (match split_dot body with
            | Some (p, q) => (p, q)
            | None => (body, [])
            end) as [ip fp].
  set (i := trim_leading_zeros ip). set (f := trim_trailing_zeros fp).
  unfold add_signed, isZero. cbn [intPart fracPart sign].
  destruct (str_eqb i (lit "0") && empty f) eqn:Z0.
  - apply andb_true_iff in Z0. destruct Z0 as [Z1 Z2].
    apply str_eqb_eq in Z1. apply empty_nil in Z2. now rewrite Z1, Z2.
  - cbn [Z.eqb]. rewrite cmp_abs_same_digits by reflexivity. reflexivity.
Qed.

(** X19. Additive inverse on literals: for every valid literal [x] written
    without a sign, the literal ["-" ++ x] is valid too and the two parse to
    values whose sum is canonical zero, formatted as "0". *)
Theorem add_signed_inverse_literal (d : ascii) (r : str) :
  isdigit d = true -> is_valid_double_literal (d :: r) = true ->
  is_valid_double_literal ("-"%char :: d :: r) = true
  /\ add_signed (parse_normalize (d :: r)) (parse_normalize ("-"%char :: d :: r)) = zero
  /\ to_string (add_signed (parse_normalize (d :: r))
                  (parse_normalize ("-"%char :: d :: r))) = lit "0".
Proof.
  intros Hd Hx.
  assert (Hm : is_valid_double_literal ("-"%char :: d :: r) = true).
  { rewrite is_valid_unfold in Hx |- *. rewrite (digit_not_sign d Hd) in Hx.
    exact Hx. }
  assert (E : add_signed (parse_normalize (d :: r)) (parse_normalize ("-"%char :: d :: r))
              = zero).
  { rewrite !parse_normalize_unfold.
    destruct (digit_head_not_sign d Hd) as [-> [-> _]].
    change (Ascii.eqb "-" "+") with false. change (Ascii.eqb "-" "-") with true.
    cbv iota. apply parse_parts_opposite. }
  split; [assumption |]. split; [assumption |]. now rewrite E.
Qed.

Lemma add_signed_inverse_literal_witness :
  add_signed (parse_normalize (lit "0012.50")) (parse_normalize (lit "-0012.50")) = zero.
Proof.
  apply (add_signed_inverse_literal "0"%char (lit "012.50")); reflexivity.
Defined.

(** X20. [add_signed] is cancellative on normalized values whose parts have
    at most [INT_MAX] characters: equal sums with the same first operand have
    the same second operand. *)
Theorem add_signed_cancel (a b c : BigDecimal) :
  normalized a = true -> normalized b = true -> normalized c = true ->
  in_int_range a = true -> in_int_range b = true -> in_int_range c = true ->
  add_signed a b = add_signed a c -> b = c.
Proof.
  intros Na Nb Nc Ra Rb Rc E. apply value_injective; try assumption.
  apply (Qplus_inj_l _ _ (value a)).
  rewrite <- (add_signed_value a b Na Nb Ra Rb), <- (add_signed_value a c Na Nc Ra Rc).
  now rewrite E.
Qed.

Lemma add_signed_cancel_witness :
  parse_normalize (lit "2.50") = parse_normalize (lit "+2.5").
Proof.
  apply (add_signed_cancel (parse_normalize (lit "-7")) (parse_normalize (lit "2.50"))
           (parse_normalize (lit "+2.5"))); reflexivity.
Defined.

(** ** The formatter *)

Lemma normalized_nonzero_positive v :
  normalized v = true -> isZero v = false ->
  0 < digits_val (intPart v ++ fracPart v).
Proof.
  intros N Z0. destruct (normalized_inv v N) as [_ [Iv [_ [_ [Fv _]]]]].
  pose proof (mag_at_nonneg (length (fracPart v)) v Iv Fv) as P.
  rewrite mag_at_scale in P by lia. rewrite Nat.sub_diag in P.
  change (10 ^ Z.of_nat 0) with 1 in P.
  assert (C : digits_val (intPart v ++ fracPart v) = 0
              \/ 0 < digits_val (intPart v ++ fracPart v)) by lia.
  destruct C as [C | C]; [exfalso | assumption].
  assert (M : mag_at (length (fracPart v)) v = 0).
  { rewrite mag_at_scale by lia. rewrite C. ring. }
  rewrite (normalized_mag_zero _ v N M) in Z0. discriminate Z0.
Qed.

(** X21. For every normalized value, [to_string] writes a valid literal that
    stands for exactly the value; the text starts with ['-'] if and only if
    the value is negative, and it never starts with ['+']. *)
Theorem to_string_literal (v : BigDecimal) :
  normalized v = true ->
  is_valid_double_literal (to_string v) = true
  /\ (literal_value (to_string v) == value v)%Q
  /\ ((exists r, to_string v = "-"%char :: r) <-> (value v < 0)%Q)
  /\ (forall r, to_string v <> "+"%char :: r).
Proof.
  intros N.
  split; [apply is_valid_iff_grammar; now apply to_string_valid |].
  split; [now apply to_string_value |].
  destruct (normalized_inv v N) as [Sv [Iv [Ev [_ [Fv [_ Zv]]]]]].
  destruct (isZero v) eqn:Z0.
  - assert (E : to_string v = lit "0") by (unfold to_string; now rewrite Z0).
    rewrite E. apply isZero_iff in Z0. destruct Z0 as [Ei Ef]. split.
    + split; [intros [r H]; discriminate H |].
      unfold value, Qlt. rewrite Ei, Ef. cbn. lia.
    + intros r H. discriminate H.
  - pose proof (normalized_nonzero_positive v N Z0) as P.
    rewrite (to_string_nonzero v Z0).
    destruct (intPart v) as [| d ds] eqn:Ei; [discriminate Ev |].
    cbn [forallb] in Iv. apply andb_true_iff in Iv. destruct Iv as [Dd _].
    destruct (digit_head_not_sign d Dd) as [Np [Nm _]].
    destruct Sv as [S1 | S1]; rewrite S1.
    + change (1 <? 0) with false. cbv iota. cbn [app]. split.
      * split.
        -- intros [r H]. injection H as -> _. discriminate Nm.
        -- unfold value, Qlt. rewrite S1, Ei. cbn [Qnum Qden]. lia.
      * intros r H. injection H as -> _. discriminate Np.
    + change (-1 <? 0) with true. cbv iota. split.
      * split; [intros _ | intros _; eexists; reflexivity].
        unfold value, Qlt. rewrite S1, Ei. cbn [Qnum Qden]. lia.
      * intros r H. discriminate H.
Qed.

Lemma to_string_literal_witness :
  is_valid_double_literal (to_string (mkBigDecimal (-1) (lit "0") (lit "005"))) = true
  /\ (value (mkBigDecimal (-1) (lit "0") (lit "005")) < 0)%Q.
Proof.
  destruct (to_string_literal (mkBigDecimal (-1) (lit "0") (lit "005")) eq_refl)
    as [H1 [_ [H3 _]]].
  split; [exact H1 |]. apply H3. eexists. reflexivity.
Defined.

(** ** Sizes of parsed values *)

Lemma split_dot_length s : forall p q,
  split_dot s = Some (p, q) -> (length p + length q < length s)%nat.
Proof.
  induction s as [| c s IH]; intros p q H; [discriminate H |].
  cbn [split_dot] in H. destruct (Ascii.eqb c ".").
  - injection H as <- <-. cbn [length]. lia.
  - destruct (split_dot s) as [[p' q'] |]; [| discriminate H].
    injection H as <- <-. specialize (IH p' q' eq_refl). cbn [length]. lia.
Qed.

Lemma parse_parts_lengths sg body :
  (length (intPart (parse_parts sg body)) <= length body)%nat
  /\ (length (fracPart (parse_parts sg body)) <= length body)%nat.
Proof.
  unfold parse_parts. destruct (split_dot body) as [[p q] |] eqn:E;
    cbn [intPart fracPart].
  - apply split_dot_length in E.
    pose proof (trim_leading_zeros_length p). pose proof (trim_trailing_zeros_length q).
    lia.
  - pose proof (trim_leading_zeros_length body).
    change (trim_trailing_zeros []) with (@nil ascii). cbn [length]. lia.
Qed.

Lemma parse_in_int_range x :
  Z.of_nat (length x) <= int_max -> in_int_range (parse_normalize x) = true.
Proof.
  intros H. rewrite parse_normalize_unfold.
  assert (W : forall sg body, (length body <= length x)%nat ->
                in_int_range (parse_parts sg body) = true).
  { intros sg body Le. destruct (parse_parts_lengths sg body).
    unfold in_int_range. apply andb_true_iff. split; apply Z.leb_le; lia. }
  destruct x as [| c r]; [now apply W |].
  destruct (Ascii.eqb c "+"); [apply W; cbn [length]; lia |].
  destruct (Ascii.eqb c "-"); apply W; cbn [length]; lia.
Qed.

(** ** The driver loop *)

Lemma words_from_word w : forall cur,
  existsb isspace w = false ->
  words_from cur w = if empty (rev cur ++ w) then [] else [rev cur ++ w].
Proof.
  induction w as [| x w IH]; intros cur H.
  - rewrite app_nil_r. destruct cur as [| c cur]; [reflexivity |].
    cbn [words_from rev]. destruct (rev cur); reflexivity.
  - cbn [existsb] in H. apply orb_false_iff in H. destruct H as [Hx Hw].
    cbn [words_from]. rewrite Hx, (IH (x :: cur) Hw). cbn [rev].
    now rewrite <- app_assoc.
Qed.

Lemma words_from_space s : forall cur c t,
  isspace c = true ->
  words_from cur (s ++ c :: t) = words_from cur s ++ words_from [] t.
Proof.
  induction s as [| x s IH]; intros cur c t Hc.
  - cbn [app words_from]. rewrite Hc. now destruct cur.
  - cbn [app words_from]. destruct (isspace x).
    + destruct cur; cbn [app]; now rewrite (IH [] c t Hc).
    + now apply IH.
Qed.

Lemma words_leading_space sep t :
  forallb isspace sep = true -> words (sep ++ t) = words t.
Proof.
  induction sep as [| c sep IH]; [reflexivity |].
  cbn [forallb]. intros H. apply andb_true_iff in H. destruct H as [Hc Hs].
  unfold words in *. cbn [app words_from]. rewrite Hc. now apply IH.
Qed.

Lemma words_word_then_space w sep t :
  w <> [] -> existsb isspace w = false ->
  sep <> [] -> forallb isspace sep = true ->
  words (w ++ sep ++ t) = w :: words t.
Proof.
  intros Hw Nw Hs Ws. destruct sep as [| c sep]; [now contradiction Hs |].
  cbn [forallb] in Ws. apply andb_true_iff in Ws. destruct Ws as [Hc Ws].
  unfold words. rewrite <- app_comm_cons, (words_from_space w [] c _ Hc).
  rewrite (words_from_word w [] Nw). cbn [rev app].
  destruct w; [now contradiction Hw |]. cbn [empty app].
  f_equal. now apply words_leading_space.
Qed.

Lemma pairs_ind (P : list str -> Prop) :
  P [] -> (forall a, P [a]) -> (forall a b r, P r -> P (a :: b :: r)) ->
  forall l, P l.
Proof.
  intros H0 H1 H2 l. assert (H : P l /\ forall a, P (a :: l)); [| apply H].
  induction l as [| b l [IH1 IH2]]; split; auto.
Qed.

Lemma run_cases_length ws : forall n,
  length (run_cases n ws) = Nat.div2 (length ws).
Proof.
  induction ws as [| a | a b r IH] using pairs_ind; intros n; try reflexivity.
  cbn [run_cases length Nat.div2]. cbv zeta. cbn [length]. now rewrite IH.
Qed.

Lemma int_wrap_small z : 0 <= z <= int_max -> int_wrap z = z.
Proof.
  unfold int_wrap, int_max. intros H. rewrite Z.mod_small by lia.
  destruct (Z.leb_spec z 2147483647); [reflexivity | lia].
Qed.

Lemma run_cases_nth ws : forall n i,
  0 <= n -> n + Z.of_nat (Nat.div2 (length ws)) <= int_max ->
  (i < Nat.div2 (length ws))%nat ->
  nth i (run_cases n ws) []
  = report_case (n + Z.of_nat i + 1) (nth (2 * i) ws []) (nth (S (2 * i)) ws []).
Proof.
  induction ws as [| a | a b r IH] using pairs_ind; intros n i Hn Hmax Hi;
    cbn [length Nat.div2] in Hi, Hmax; try lia.
  cbn [run_cases]. cbv zeta. rewrite (int_wrap_small (n + 1)) by lia.
  destruct i as [| j].
  - cbn [nth Nat.mul]. f_equal. lia.
  - replace (2 * S j)%nat with (S (S (2 * j))) by lia. cbn [nth].
    rewrite IH by lia. f_equal. lia.
Qed.

(** X22. The loop of [main] works on the whitespace-delimited words of the
    file: for a file made of optional leading whitespace, words each followed
    by at least one whitespace character, and possibly a last word that runs
    to the end of the file, it writes one report per complete pair of words,
    in order, and writes nothing for a last word left without a partner (so
    nothing at all for a file with fewer than two words).  As long as the
    file has at most [INT_MAX] pairs, the reports are numbered from 1. *)
Theorem process_file_reports (lead : str) (l : list (str * str)) (last : str) :
  forallb isspace lead = true ->
  Forall (fun p => fst p <> [] /\ existsb isspace (fst p) = false
                   /\ snd p <> [] /\ forallb isspace (snd p) = true) l ->
  existsb isspace last = false ->
  let ws := map fst l ++ (if empty last then [] else [last]) in
  process_file (lead ++ flat_map (fun p => fst p ++ snd p) l ++ last)
  = concat (run_cases 0 ws)
  /\ length (run_cases 0 ws) = Nat.div2 (length ws)
  /\ (Z.of_nat (Nat.div2 (length ws)) <= int_max ->
      forall i, (i < Nat.div2 (length ws))%nat ->
        nth i (run_cases 0 ws) []
        = report_case (Z.of_nat i + 1) (nth (2 * i) ws []) (nth (S (2 * i)) ws [])).
Proof.
  intros Hlead Hl Hlast ws.
  split; [| split; [apply run_cases_length
                   | intros Hmax i Hi; rewrite run_cases_nth by lia; reflexivity]].
  unfold process_file. do 2 f_equal. rewrite (words_leading_space _ _ Hlead).
  unfold ws. clear ws Hlead lead.
  induction Hl as [| [w sep] l [Hw [Nw [Hs Ws]]] Hl IH].
  - cbn [flat_map map app]. unfold words. rewrite (words_from_word last [] Hlast).
    reflexivity.
  - cbn [flat_map map fst snd app] in *. rewrite <- !app_assoc.
    rewrite (words_word_then_space w sep _ Hw Nw Hs Ws). now rewrite IH.
Qed.

Lemma process_file_reports_witness :
  process_file (lit "  1.5 +2.50" ++ [newline] ++ lit "x 3" ++ [newline] ++ lit "7")
  = report_case 1 (lit "1.5") (lit "+2.50") ++ report_case 2 (lit "x") (lit "3")
  /\ nth 1 (run_cases 0 [lit "1.5"; lit "+2.50"; lit "x"; lit "3"; lit "7"]) []
     = report_case 2 (lit "x") (lit "3").
Proof.
  destruct (process_file_reports (lit "  ")
              [(lit "1.5", lit " "); (lit "+2.50", [newline]);
               (lit "x", lit " "); (lit "3", [newline])]
              (lit "7")) as [H [_ N]].
  - reflexivity.
  - repeat constructor; discriminate.
  - reflexivity.
  - split; [exact H |]. apply (N ltac:(vm_compute; discriminate) 1%nat).
    vm_compute. lia.
Defined.

(** X23. What one iteration reports: after the line naming the case and the
    two words, an invalid first word is reported as invalid whatever the
    second word is; otherwise an invalid second word is reported; and when
    both are valid and have at most [INT_MAX] characters the line shows the
    two operands and their sum as valid literals that stand for the value of
    the first word, the value of the second, and exactly the sum of the
    two. *)
Theorem report_case_spec (n : Z) (a b : str) :
  let header := lit "Case " ++ show_int n ++ lit ": " ++ a ++ lit " + " ++ b ++ [newline] in
  (is_valid_double_literal a = false ->
   report_case n a b
   = header ++ lit "  -> INVALID: '" ++ a ++ lit "' is not a valid double literal."
     ++ [newline; newline])
  /\ (is_valid_double_literal a = true -> is_valid_double_literal b = false ->
      report_case n a b
      = header ++ lit "  -> INVALID: '" ++ b ++ lit "' is not a valid double literal."
        ++ [newline; newline])
  /\ (is_valid_double_literal a = true -> is_valid_double_literal b = true ->
      Z.of_nat (length a) <= int_max -> Z.of_nat (length b) <= int_max ->
      exists ra rb rs,
        report_case n a b
        = header ++ lit "  -> " ++ ra ++ lit " + " ++ rb ++ lit " = " ++ rs
          ++ [newline; newline]
        /\ is_valid_double_literal ra = true
        /\ is_valid_double_literal rb = true
        /\ is_valid_double_literal rs = true
        /\ (literal_value ra == literal_value a)%Q
        /\ (literal_value rb == literal_value b)%Q
        /\ (literal_value rs == literal_value a + literal_value b)%Q).
Proof.
  intros header. unfold report_case, header.
  split; [| split].
  - intros ->. cbn [negb]. now rewrite <- !app_assoc.
  - intros -> ->. cbn [negb]. now rewrite <- !app_assoc.
  - intros Ha Hb La Lb. rewrite Ha, Hb. cbn [negb].
    pose proof (valid_normalized a Ha) as Na. pose proof (valid_normalized b Hb) as Nb.
    pose proof (parse_in_int_range a La) as Ra. pose proof (parse_in_int_range b Lb) as Rb.
    destruct (add_signed_sound _ _ Na Nb Ra Rb) as [Ns _].
    exists (to_string (parse_normalize a)), (to_string (parse_normalize b)),
      (to_string (add_signed (parse_normalize a) (parse_normalize b))).
    split; [now rewrite <- !app_assoc |].
    repeat split; try (apply is_valid_iff_grammar; now apply to_string_valid).
    + rewrite (to_string_value _ Na). apply parse_value. now apply is_valid_iff_grammar.
    + rewrite (to_string_value _ Nb). apply parse_value. now apply is_valid_iff_grammar.
    + rewrite (to_string_value _ Ns), (add_signed_value _ _ Na Nb Ra Rb).
      rewrite (parse_value a), (parse_value b) by now apply is_valid_iff_grammar.
      reflexivity.
Qed.

Lemma report_case_spec_witness :
  report_case 3 (lit "5.") (lit "3")
  = lit "Case 3: 5. + 3" ++ [newline]
    ++ lit "  -> INVALID: '5.' is not a valid double literal." ++ [newline; newline]
  /\ report_case 1 (lit "+0001.0") (lit "-0001.005")
     = lit "Case 1: +0001.0 + -0001.005" ++ [newline]
       ++ lit "  -> 1 + -1.005 = -0.005" ++ [newline; newline].
Proof.
  destruct (report_case_spec 3 (lit "5.") (lit "3")) as [H1 _].
  destruct (report_case_spec 1 (lit "+0001.0") (lit "-0001.005")) as [_ [_ H3]].
  split.
  - rewrite (H1 eq_refl). reflexivity.
  - destruct (H3 eq_refl eq_refl ltac:(vm_compute; discriminate)
                ltac:(vm_compute; discriminate)) as [ra [rb [rs [E _]]]].
    reflexivity.
Defined.

(** ** Magnitudes of sums and differences *)

Lemma Qmake_zero_diff x y p : x = y -> (Qmake x p == Qmake y p)%Q.
Proof. intros ->. reflexivity. Qed.

(** X24. The case table of [add_signed] in terms of magnitudes, on
    normalized values whose parts have at most [INT_MAX] characters: operands
    of the same sign give the sum of the magnitudes, operands of different
    signs give the absolute difference of the magnitudes. *)
Theorem add_signed_magnitude (a b : BigDecimal) :
  normalized a = true -> normalized b = true ->
  in_int_range a = true -> in_int_range b = true ->
  (sign a = sign b ->
   (magnitude (add_signed a b) == magnitude a + magnitude b)%Q)
  /\ (sign a <> sign b ->
      (magnitude (add_signed a b) == Qabs (magnitude a - magnitude b))%Q).
Proof.
  intros Na Nb Ra Rb. destruct (add_signed_sound a b Na Nb Ra Rb) as [Ns [Lf V]].
  set (L := Nat.max (length (fracPart a)) (length (fracPart b))) in *.
  destruct (normalized_inv a Na) as [Sa [Ia [_ [_ [Fa _]]]]].
  destruct (normalized_inv b Nb) as [Sb [Ib [_ [_ [Fb _]]]]].
  destruct (normalized_inv _ Ns) as [Ss [Is [_ [_ [Fs _]]]]].
  pose proof (mag_at_nonneg L a Ia Fa) as Pa.
  pose proof (mag_at_nonneg L b Ib Fb) as Pb.
  pose proof (mag_at_nonneg L _ Is Fs) as Ps.
  unfold sval_at in V.
  rewrite (magnitude_at L _ Lf).
  rewrite (magnitude_at L a), (magnitude_at L b) by (unfold L; lia).
  split; intros Hs.
  - rewrite Qmake_plus. apply Qmake_zero_diff.
    destruct Sa as [S1 | S1], Sb as [S2 | S2], Ss as [S3 | S3];
      rewrite S1, S2 in Hs; rewrite S1, S2, S3 in V; lia.
  - rewrite Qmake_minus. cbn [Qabs]. apply Qmake_zero_diff.
    destruct Sa as [S1 | S1], Sb as [S2 | S2], Ss as [S3 | S3];
      rewrite S1, S2 in Hs; rewrite S1, S2, S3 in V; lia.
Qed.

Lemma add_signed_magnitude_witness :
  (magnitude (add_signed (parse_normalize (lit "1")) (parse_normalize (lit "-1.005")))
   == Qabs (magnitude (parse_normalize (lit "1"))
                 - magnitude (parse_normalize (lit "-1.005"))))%Q.
Proof.
  apply (add_signed_magnitude (parse_normalize (lit "1")) (parse_normalize (lit "-1.005")));
    [reflexivity | reflexivity | reflexivity | reflexivity | discriminate].
Defined.

(** X25. [sub_abs] needs digits, not normalization: on operands made of
    decimal digits, with leading or trailing zeros allowed and parts of at
    most [INT_MAX] characters, whenever [|a|] is numerically at least [|b|]
    the result is normalized, has sign [+1] and its magnitude is exactly
    [|a| - |b|]. *)
Theorem sub_abs_exact_on_digits (a b : BigDecimal) :
  is_all_digits (intPart a) = true -> forallb isdigit (fracPart a) = true ->
  is_all_digits (intPart b) = true -> forallb isdigit (fracPart b) = true ->
  in_int_range a = true -> in_int_range b = true ->
  (magnitude b <= magnitude a)%Q ->
  normalized (sub_abs a b) = true
  /\ sign (sub_abs a b) = 1
  /\ (magnitude (sub_abs a b) == magnitude a - magnitude b)%Q.
Proof. apply sub_abs_magnitude. Qed.

Lemma sub_abs_exact_on_digits_witness :
  sub_abs (mkBigDecimal 1 (lit "010") (lit "500")) (mkBigDecimal (-1) (lit "9") (lit "75"))
  = mkBigDecimal 1 (lit "0") (lit "75").
Proof.
  assert (H := sub_abs_exact_on_digits (mkBigDecimal 1 (lit "010") (lit "500"))
                 (mkBigDecimal (-1) (lit "9") (lit "75"))
                 eq_refl eq_refl eq_refl eq_refl eq_refl eq_refl).
  destruct H as [_ [_ _]]; [vm_compute; discriminate | reflexivity].
Defined.

(** ** The public interface on operands within the range of [int] *)

(** X26. For all valid literals [x] and [y] of at most [INT_MAX] characters,
    the formatted sum of the parsed values is a valid literal whose value is
    exactly the sum of the values of [x] and [y], and it is the text of the
    one normalized value with that value.  The sum of two 50-digit integers
    is written with 50 or 51 digits, and 0.1 + 0.2 is formatted as "0.3". *)
Theorem add_signed_exact_in_int_range (x y : str) :
  is_valid_double_literal x = true -> is_valid_double_literal y = true ->
  Z.of_nat (length x) <= int_max -> Z.of_nat (length y) <= int_max ->
  let r := to_string (add_signed (parse_normalize x) (parse_normalize y)) in
  is_valid_double_literal r = true
  /\ (literal_value r == literal_value x + literal_value y)%Q
  /\ (forall w, normalized w = true ->
        (value w == literal_value x + literal_value y)%Q -> to_string w = r)
  /\ (is_all_digits x = true -> is_all_digits y = true ->
      no_leading_zero x = true -> no_leading_zero y = true ->
      length x = 50%nat -> length y = 50%nat ->
      is_all_digits r = true
      /\ (length r = 50%nat \/ length r = 51%nat)
      /\ digits_val r = digits_val x + digits_val y)
  /\ to_string (add_signed (parse_normalize (lit "0.1")) (parse_normalize (lit "0.2")))
     = lit "0.3".
Proof.
  intros Hx Hy Mx My r.
  pose proof (valid_normalized x Hx) as Nx. pose proof (valid_normalized y Hy) as Ny.
  pose proof (parse_in_int_range x Mx) as Rx. pose proof (parse_in_int_range y My) as Ry.
  destruct (add_signed_sound _ _ Nx Ny Rx Ry) as [Ns _].
  assert (V : (value (add_signed (parse_normalize x) (parse_normalize y))
               == literal_value x + literal_value y)%Q).
  { rewrite (add_signed_value _ _ Nx Ny Rx Ry).
    rewrite (parse_value x), (parse_value y) by now apply is_valid_iff_grammar.
    reflexivity. }
  split; [apply is_valid_iff_grammar; now apply to_string_valid |].
  split; [unfold r; now rewrite (to_string_value _ Ns) |].
  split.
  { intros w Nw Vw. unfold r. f_equal.
    apply value_injective; try assumption. now rewrite Vw, V. }
  split; [| reflexivity].
  intros Dx Dy Lx Ly Ex Ey.
  destruct (integer_sum_digits x y Dx Dy Lx Ly) as [D [Len E]];
    [congruence | assumption |].
  fold r in D, Len, E. rewrite Ex in Len. auto.
Qed.

Lemma add_signed_exact_in_int_range_witness :
  let x := lit "99999999999999999999999999999999999999999999999999" in
  let y := lit "10000000000000000000000000000000000000000000000001" in
  let r := to_string (add_signed (parse_normalize x) (parse_normalize y)) in
  (literal_value r == literal_value x + literal_value y)%Q
  /\ length r = 51%nat
  /\ digits_val r = digits_val x + digits_val y.
Proof.
  intros x y r.
  destruct (add_signed_exact_in_int_range x y eq_refl eq_refl
              ltac:(vm_compute; discriminate) ltac:(vm_compute; discriminate))
    as [_ [V [_ [H _]]]].
  destruct (H eq_refl eq_refl eq_refl eq_refl eq_refl eq_refl) as [_ [_ E]].
  split; [exact V |]. split; [reflexivity | exact E].
Defined.

(** X27. For all normalized [a] and [b] whose parts have at most [INT_MAX]
    characters, with [|a| >= |b|] as decided by [cmp_abs], [sub_abs a b] is
    a normalized value of sign [+1] (integer part without leading zeros and
    of at least one digit, fractional part without trailing zeros) whose
    magnitude is exactly [|a| - |b|]. *)
Theorem sub_abs_exact_in_int_range (a b : BigDecimal) :
  normalized a = true -> normalized b = true ->
  in_int_range a = true -> in_int_range b = true ->
  0 <= cmp_abs a b ->
  normalized (sub_abs a b) = true
  /\ sign (sub_abs a b) = 1
  /\ (magnitude (sub_abs a b) == magnitude a - magnitude b)%Q.
Proof.
  intros Na Nb Ra Rb C. destruct (range_bounds a b Ra Rb) as [HLi HLf].
  destruct (normalized_inv a Na) as [Sa [Ia [Ea [La [Fa [Ta Za]]]]]].
  destruct (normalized_inv b Nb) as [Sb [Ib [Eb [Lb [Fb [Tb Zb]]]]]].
  rewrite (cmp_abs_spec a b Ia Ea La Fa Ib Eb Lb Fb) in C.
  set (L := Nat.max (length (fracPart a)) (length (fracPart b))) in *.
  assert (Ge : mag_at L b <= mag_at L a).
  { destruct (Z.compare_spec (mag_at L a) (mag_at L b)); cbn in C; lia. }
  destruct (sub_abs_spec a b Ia Ea Fa Ib Fb HLi HLf Ge)
    as [Sr [Di [Ei [Li [Df [Tf [Lf Vf]]]]]]].
  fold L in Lf, Vf.
  split; [apply normalized_intro; auto |]. split; [assumption |].
  rewrite (magnitude_at L _ Lf).
  rewrite (magnitude_at L a), (magnitude_at L b) by (unfold L; lia).
  now rewrite Qmake_minus, Vf.
Qed.

Lemma sub_abs_exact_in_int_range_witness :
  sub_abs (parse_normalize (lit "1.005")) (parse_normalize (lit "1"))
  = mkBigDecimal 1 (lit "0") (lit "005")
  /\ (magnitude (sub_abs (parse_normalize (lit "1.005")) (parse_normalize (lit "1")))
      == magnitude (parse_normalize (lit "1.005")) - magnitude (parse_normalize (lit "1")))%Q.
Proof.
  split; [reflexivity |].
  apply (sub_abs_exact_in_int_range (parse_normalize (lit "1.005"))
           (parse_normalize (lit "1")));
    [reflexivity | reflexivity | reflexivity | reflexivity | vm_compute; discriminate].
Defined.

(** X28. [parse_normalize] on any valid literal, and [add_signed] on
    normalized operands whose parts have at most [INT_MAX] characters,
    return values that satisfy the normalization invariants: the integer
    digits are non-empty and have no leading zero unless they are exactly
    "0", the fractional digits never end in a zero, every digit character is
    a decimal digit, the sign is [+1] or [-1], and a value that is zero has
    sign [+1]. *)
Theorem public_values_normalized_in_int_range (x : str) (a b : BigDecimal) :
  (is_valid_double_literal x = true ->
   Invariants (parse_normalize x)
   /\ ((magnitude (parse_normalize x) == 0)%Q -> sign (parse_normalize x) = 1))
  /\ (Invariants a -> Invariants b ->
      in_int_range a = true -> in_int_range b = true ->
      Invariants (add_signed a b)
      /\ ((magnitude (add_signed a b) == 0)%Q -> sign (add_signed a b) = 1)).
Proof.
  assert (Z : forall v, normalized v = true -> (magnitude v == 0)%Q -> sign v = 1).
  { intros v N M. unfold magnitude in M. apply Qmake_zero in M.
    rewrite (normalized_mag_zero (length (fracPart v)) v N); [reflexivity |].
    rewrite mag_at_scale by lia. rewrite M. ring. }
  split.
  - intros Hx. apply valid_normalized in Hx.
    split; [now apply normalized_iff | now apply Z].
  - intros Na Nb Ra Rb. apply normalized_iff in Na, Nb.
    destruct (add_signed_sound a b Na Nb Ra Rb) as [Ns _].
    split; [now apply normalized_iff | now apply Z].
Qed.

Lemma public_values_normalized_in_int_range_witness :
  Invariants (parse_normalize (lit "-000.500"))
  /\ Invariants (add_signed (parse_normalize (lit "99.95"))
                   (parse_normalize (lit "0.05"))).
Proof.
  pose proof (public_values_normalized_in_int_range (lit "-000.500")
                (parse_normalize (lit "99.95")) (parse_normalize (lit "0.05")))
    as [H1 H2].
  split; [apply H1; reflexivity |].
  apply H2; try reflexivity; apply normalized_iff; reflexivity.
Defined.
